(** * Kuboble: level codec, slide physics, BFS solver, generator, verifier

    A shallow embedding of [kuboble_verifier.py] and [kuboble_generator.py].

    Conventions of the embedding:
    - Python [int] is [Z]; a position is a pair [(row, col)] of [Z].
    - Python [str] is a list of characters.  Characters are the 8-bit
      code points (the Latin-1 block of Unicode), which contains every
      character the two files test for.
    - A Python [dict] is an association list in insertion order with
      unique keys ([dict_set] overwrites in place or appends).
    - A Python list indexed by an [int] is a list with [py_get]/[py_set]
      (negative indices count from the end, out of range raises
      [IndexError]).
    - Code that can raise lives in the [outcome] monad.
    - The functions are given twice where they print: first the value
      they return, with the [print] calls left out; then, in the part on
      output, with every [print] call, where [print] raises
      [UnicodeEncodeError] on a character that [sys.stdout] cannot
      encode.  Printed text is a list of Unicode code points. *)

From Stdlib Require Import ZArith Lia Ascii.
From Stdlib Require String DecimalString.
From stdpp Require Import base decidable option numbers list strings sorting.

Local Open Scope Z_scope.

(** ** Python strings *)

Abbreviation str := (list ascii).

Definition lit (s : string) : str := String.list_ascii_of_string s.
Global Arguments lit : simpl never.

Definition code (c : ascii) : Z := Z.of_N (N_of_ascii c).

(** [str.isspace] on one character (8-bit code points). *)
Definition is_space (c : ascii) : bool :=
  let n := code c in
  ((9 <=? n) && (n <=? 13)) || ((28 <=? n) && (n <=? 32))
  || (n =? 133) || (n =? 160).

(** [str.lower] on one character. *)
Definition lower_char (c : ascii) : ascii :=
  let n := code c in
  if ((65 <=? n) && (n <=? 90))
     || ((192 <=? n) && (n <=? 222) && negb (n =? 215))
  then ascii_of_N (Z.to_N (n + 32)) else c.

Definition lower (s : str) : str := map lower_char s.

Fixpoint lstrip (s : str) : str :=
  match s with
  | [] => []
  | c :: s' => if is_space c then lstrip s' else s
  end.

Definition rstrip (s : str) : str := rev (lstrip (rev s)).

(** [s.strip()] *)
Definition strip (s : str) : str := rstrip (lstrip s).

(** Cut [s] at every character satisfying [P]; always at least one piece. *)
Fixpoint split_by (P : ascii -> bool) (s : str) : list str :=
  match s with
  | [] => [[]]
  | c :: s' =>
      if P c then [] :: split_by P s'
      else match split_by P s' with
           | x :: xs => (c :: x) :: xs
           | [] => [[c]]
           end
  end.

Definition is_char (sep c : ascii) : bool := bool_decide (c = sep).

(** [s.split(sep)] for a one-character separator. *)
Definition split_on (sep : ascii) (s : str) : list str := split_by (is_char sep) s.

Definition nonempty (s : str) : bool :=
  match s with [] => false | _ => true end.

(** [s.split()]: runs of whitespace separate, empty pieces are dropped. *)
Definition split_ws (s : str) : list str := filter (fun t => nonempty t = true) (split_by is_space s).

(** [sep.join(parts)] *)
Fixpoint join (sep : str) (parts : list str) : str :=
  match parts with
  | [] => []
  | [p] => p
  | p :: ps => p ++ sep ++ join sep ps
  end.

(** [ch in s] for a character [ch]. *)
Definition contains (ch : ascii) (s : str) : bool := existsb (is_char ch) s.

Definition is_lower_letter (c : ascii) : bool := (code "a"%char <=? code c) && (code c <=? code "z"%char).
Definition is_upper_letter (c : ascii) : bool := (code "A"%char <=? code c) && (code c <=? code "Z"%char).

(** ** Exceptions *)

Inductive exn := IndexError | KeyError | ValueError | TypeError | UnicodeEncodeError.

Inductive outcome (A : Type) :=
| Ok (a : A)
| Raise (e : exn)
| OutOfFuel.
Arguments Ok {A} a.
Arguments Raise {A} e.
Arguments OutOfFuel {A}.

#[global] Instance outcome_ret : MRet outcome := fun A a => Ok a.
#[global] Instance outcome_bind : MBind outcome := fun A B f m =>
  match m with
  | Ok a => f a
  | Raise e => Raise e
  | OutOfFuel => OutOfFuel
  end.

(** ** Python dictionaries, in insertion order *)

Abbreviation dict V := (list (list ascii * V)).

Fixpoint dict_get {V} (k : str) (d : dict V) : option V :=
  match d with
  | [] => None
  | (k', v) :: d' => if decide (k' = k) then Some v else dict_get k d'
  end.

(** [d[k] = v] *)
Fixpoint dict_set {V} (k : str) (v : V) (d : dict V) : dict V :=
  match d with
  | [] => [(k, v)]
  | (k', v') :: d' =>
      if decide (k' = k) then (k, v) :: d' else (k', v') :: dict_set k v d'
  end.

(** [del d[k]] for a key that is present *)
Fixpoint dict_del {V} (k : str) (d : dict V) : dict V :=
  match d with
  | [] => []
  | (k', v') :: d' => if decide (k' = k) then d' else (k', v') :: dict_del k d'
  end.

(** [k in d] *)
Definition dict_mem {V} (k : str) (d : dict V) : bool :=
  match dict_get k d with Some _ => true | None => false end.

Definition keys {V} (d : dict V) : list str := fst <$> d.

(** ** Python list indexing *)

Definition py_index (n : nat) (i : Z) : option nat :=
  let j := if decide (i < 0) then i + Z.of_nat n else i in
  if decide (0 <= j < Z.of_nat n) then Some (Z.to_nat j) else None.

(** [l[i]] *)
Definition py_get {A} (l : list A) (i : Z) : outcome A :=
  match py_index (length l) i with
  | Some j => match l !! j with Some x => Ok x | None => Raise IndexError end
  | None => Raise IndexError
  end.

(** [l[i] = x] *)
Definition py_set {A} (l : list A) (i : Z) (x : A) : outcome (list A) :=
  match py_index (length l) i with
  | Some j => Ok (<[j := x]> l)
  | None => Raise IndexError
  end.

(** ** The board *)

Abbreviation pos := (Z * Z)%type.

Abbreviation grid_t := (list (list (list ascii))).

Record KubobleGame := mkGame {
  grid : grid_t;
  pieces : dict pos;
  targets : dict pos;
  width : Z;
  height : Z
}.

(** [g[r][c]] *)
Definition grid_get (g : grid_t) (r c : Z) : outcome str :=
  row ← py_get g r; py_get row c.

(** [g[r][c] = v]: the row object is fetched, then updated in place. *)
Definition grid_set (g : grid_t) (r c : Z) (v : str) : outcome grid_t :=
  row ← py_get g r; row' ← py_set row c v; py_set g r row'.

(** [g[r][c] = v] under a guard [0 <= r < len(g) and 0 <= c < len(g[r])]:
    cannot raise. *)
Definition grid_put (r c : Z) (v : str) (g : grid_t) : grid_t :=
  alter (fun row => <[Z.to_nat c := v]> row) (Z.to_nat r) g.

(** The content of cell [(r, c)], when it lies in the stored grid. *)
Definition cell (g : grid_t) (r c : Z) : option str :=
  if decide (0 <= r /\ 0 <= c) then
    match g !! Z.to_nat r with
    | Some row => row !! Z.to_nat c
    | None => None
    end
  else None.

(** [[['.' for _ in range(w)] for _ in range(h)]] *)
Definition blank_grid (w h : Z) : grid_t :=
  (fun _ => (fun _ => lit ".") <$> seqZ 0 w) <$> seqZ 0 h.

Definition in_range (r c h w : Z) : bool :=
  bool_decide (0 <= r < h /\ 0 <= c < w).

(** ** kuboble_verifier.py: [KubobleGame._parse_level] *)

(** The tokens of one raw row (the body of the first loop). *)
Definition row_tokens (row_str_raw : str) : list str :=
  let row_str := strip row_str_raw in
  if negb (nonempty row_str) then []
  else if contains " " row_str then
    filter (fun rt => nonempty rt = true) (split_on " " row_str)
  else if contains "." row_str then (fun ch => [ch]) <$> row_str
  else [row_str].

Definition max_width (processed_rows_tokens : list (list str)) : Z :=
  fold_left (fun current_max_width toks =>
               if decide (Z.of_nat (length toks) > current_max_width)
               then Z.of_nat (length toks) else current_max_width)
            processed_rows_tokens 0.

(** [(piece_in_cell, target_in_cell)] for one cell token. *)
Definition scan_token (char_cell_content : str) : option ascii * option ascii :=
  if decide (char_cell_content = lit "X") then (None, None)
  else if decide (char_cell_content = lit ".") then (None, None)
  else
    match char_cell_content with
    | [ch] =>
        if is_lower_letter ch then (None, Some ch)
        else if is_upper_letter ch then (Some ch, None)
        else (None, None)
    | _ =>
        fold_left (fun '(piece_in_cell, target_in_cell) sub_char =>
                     if is_lower_letter sub_char then (piece_in_cell, Some sub_char)
                     else if is_upper_letter sub_char then (Some sub_char, target_in_cell)
                     else (piece_in_cell, target_in_cell))
                  char_cell_content (None, None)
    end.

(** One row of the second loop; [pt] is [(self.pieces, self.targets)]. *)
Fixpoint scan_row (w r : Z) (c : nat) (toks : list str)
    (pt : dict pos * dict pos) : dict pos * dict pos :=
  match toks with
  | [] => pt
  | char_cell_content :: rest =>
      if decide (Z.of_nat c >= w) then pt
      else
        let '(piece_in_cell, target_in_cell) := scan_token char_cell_content in
        let ts := match target_in_cell with
                  | Some t => dict_set [t] (r, Z.of_nat c) pt.2
                  | None => pt.2
                  end in
        let ps := match piece_in_cell with
                  | Some p => dict_set [p] (r, Z.of_nat c) pt.1
                  | None => pt.1
                  end in
        scan_row w r (S c) rest (ps, ts)
  end.

Fixpoint scan_rows (w : Z) (r : nat) (rows : list (list str))
    (pt : dict pos * dict pos) : dict pos * dict pos :=
  match rows with
  | [] => pt
  | toks :: rest => scan_rows w (S r) rest (scan_row w (Z.of_nat r) 0 toks pt)
  end.

Definition tok_at (processed_rows_tokens : list (list str)) (r c : Z) : option str :=
  match processed_rows_tokens !! Z.to_nat r with
  | Some toks => toks !! Z.to_nat c
  | None => None
  end.

(** The loops over [range(height)] and [range(width)] that copy the ['X']
    tokens into the grid. *)
Definition mark_obstacles (processed_rows_tokens : list (list str)) (w h : Z)
    (g : grid_t) : grid_t :=
  fold_left (fun g r_val =>
    fold_left (fun g c_val =>
      match tok_at processed_rows_tokens r_val c_val with
      | Some t => if decide (t = lit "X") then grid_put r_val c_val (lit "X") g else g
      | None => g
      end) (seqZ 0 w) g) (seqZ 0 h) g.

(** The loop that writes each piece letter into the grid. *)
Definition mark_pieces (ps : dict pos) (w h : Z) (g : grid_t) : grid_t :=
  fold_left (fun g '(piece_char, (r_pos, c_pos)) =>
               if in_range r_pos c_pos h w then grid_put r_pos c_pos piece_char g else g)
            ps g.

Definition _parse_level (level_string : str) : KubobleGame :=
  let raw_rows := split_on ";" (strip level_string) in
  let h := Z.of_nat (length raw_rows) in
  if decide (h = 0) then mkGame [] [] [] 0 h
  else
    let processed_rows_tokens := row_tokens <$> raw_rows in
    let w := max_width processed_rows_tokens in
    let '(ps, ts) := scan_rows w 0 processed_rows_tokens ([], []) in
    let g := mark_pieces ps w h (mark_obstacles processed_rows_tokens w h (blank_grid w h)) in
    let ps := if dict_mem (lit "X") ps then dict_del (lit "X") ps else ps in
    mkGame g ps ts w h.

(** [KubobleGame(level_string)] *)
Definition new_game (level_string : str) : KubobleGame := _parse_level level_string.

(** ** [is_win] and [get_piece_target_pairs] *)

Definition get_piece_target_pairs (self : KubobleGame) : dict str :=
  fold_left (fun pairs piece_char => dict_set piece_char (lower piece_char) pairs)
            (keys (pieces self)) [].

(** The lookup [self.pieces[piece_char]] cannot miss: [piece_char] ranges
    over the keys of [self.pieces] (lemma [pairs_keys_in_pieces]). *)
Definition is_win (self : KubobleGame) : bool :=
  match pieces self with
  | [] => false
  | _ =>
      forallb (fun '(piece_char, target_char) =>
                 match dict_get target_char (targets self) with
                 | None => false
                 | Some tpos =>
                     match dict_get piece_char (pieces self) with
                     | Some ppos => bool_decide (ppos = tpos)
                     | None => false
                     end
                 end)
              (get_piece_target_pairs self)
  end.

(** ** [get_possible_moves] *)

Abbreviation move := (list ascii * (Z * Z) * list ascii)%type.

Definition directions : list (Z * Z * str) :=
  [(-1, 0, lit "up"); (1, 0, lit "down"); (0, -1, lit "left"); (0, 1, lit "right")].

(** The inner [for other_piece, (op_r, op_c) in self.pieces.items()] scan. *)
Definition blocked_by_other (ps : dict pos) (piece_char : str) (p : pos) : bool :=
  existsb (fun '(other_piece, op) =>
             bool_decide (other_piece <> piece_char) && bool_decide (op = p)) ps.

(** The [while True] loop; it returns [(land_r, land_c)]. *)
Fixpoint slide (fuel : nat) (self : KubobleGame) (piece_char : str)
    (dr dc curr_r curr_c : Z) : outcome pos :=
  match fuel with
  | O => OutOfFuel
  | S fuel =>
      let next_r := curr_r + dr in
      let next_c := curr_c + dc in
      if negb (in_range next_r next_c (height self) (width self)) then Ok (curr_r, curr_c)
      else
        x ← grid_get (grid self) next_r next_c;
        if decide (x = lit "X") then Ok (curr_r, curr_c)
        else if blocked_by_other (pieces self) piece_char (next_r, next_c)
             then Ok (curr_r, curr_c)
             else slide fuel self piece_char dr dc next_r next_c
  end.

(** A slide visits a new in-grid cell at every turn of the loop, so
    [height + width] turns are enough (lemma [slide_fuel_enough]). *)
Definition slide_fuel (self : KubobleGame) : nat := Z.to_nat (height self + width self).

(** The body of [for dr, dc, direction_name in directions]. *)
Definition moves_in_direction (self : KubobleGame) (piece_char : str) (r c : Z)
    (d : Z * Z * str) : outcome (list move) :=
  let '(dr, dc, direction_name) := d in
  let next_r_start := r + dr in
  let next_c_start := c + dc in
  if negb (in_range next_r_start next_c_start (height self) (width self)) then Ok []
  else
    x ← grid_get (grid self) next_r_start next_c_start;
    if decide (x = lit "X") then Ok []
    else if blocked_by_other (pieces self) piece_char (next_r_start, next_c_start) then Ok []
    else
      land ← slide (slide_fuel self) self piece_char dr dc r c;
      if decide (land <> (r, c)) then Ok [(piece_char, land, direction_name)] else Ok [].

(** Run [f] over [l] in order and concatenate what it appends to [moves]. *)
Fixpoint collect {A B} (f : A -> outcome (list B)) (l : list A) : outcome (list B) :=
  match l with
  | [] => Ok []
  | a :: l' => xs ← f a; ys ← collect f l'; Ok (xs ++ ys)
  end.

Definition get_possible_moves (self : KubobleGame) : outcome (list move) :=
  collect (fun '(piece_char, (r, c)) =>
             collect (moves_in_direction self piece_char r c) directions)
          (pieces self).

(** ** [apply_move] *)

Definition apply_move (self : KubobleGame) (piece_char : str) (new_pos : pos)
    : outcome KubobleGame :=
  let new_grid := grid self in
  let new_pieces := pieces self in
  match dict_get piece_char (pieces self) with
  | None => Raise KeyError
  | Some (old_r, old_c) =>
      let '(new_r, new_c) := new_pos in
      new_grid ← grid_set new_grid old_r old_c (lit ".");
      new_grid ← grid_set new_grid new_r new_c piece_char;
      let new_pieces := dict_set piece_char (new_r, new_c) new_pieces in
      Ok (mkGame new_grid new_pieces (targets self) (width self) (height self))
  end.

(** ** [verify_kuboble_solution] *)

(** How the first loop (tokenising the solution) ends. *)
Inductive parse_result :=
| ReturnIsWin
| ReturnFalse
| Parsed (parsed_moves : list (str * str)).

Definition direction_names : list str :=
  [lit "up"; lit "down"; lit "left"; lit "right"].

(** [for move_idx, raw_move_unstripped in enumerate(raw_moves)];
    [n] is [len(raw_moves)]. *)
Fixpoint parse_moves (n : nat) (move_idx : nat) (raw_moves : list str)
    (parsed_moves : list (str * str)) : parse_result :=
  match raw_moves with
  | [] => Parsed parsed_moves
  | raw_move_unstripped :: rest =>
      let raw_move := strip raw_move_unstripped in
      if negb (nonempty raw_move) then
        if bool_decide (Z.of_nat move_idx = Z.of_nat n - 1)
           && negb (bool_decide (parsed_moves <> []))
        then ReturnIsWin
        else parse_moves n (S move_idx) rest parsed_moves
      else
        match split_ws raw_move with
        | [p0; p1] =>
            let piece_char := p0 in
            let direction_name := lower p1 in
            if bool_decide (direction_name ∈ direction_names)
            then parse_moves n (S move_idx) rest
                   (parsed_moves ++ [(piece_char, direction_name)])
            else ReturnFalse
        | _ => ReturnFalse
        end
  end.

(** The search for [matched_game_move].  [pm_piece] equals a name that
    was just found in the piece map, so the lookup cannot miss. *)
Definition find_move (current : KubobleGame) (possible_moves : list move)
    (sol_piece_char sol_direction_name : str) : option move :=
  find (fun '(pm_piece, pm_new_pos, pm_direction) =>
          bool_decide (pm_piece = sol_piece_char)
          && bool_decide (pm_direction = sol_direction_name)
          && match dict_get pm_piece (pieces current) with
             | Some original_pos => bool_decide (pm_new_pos <> original_pos)
             | None => false
             end)
       possible_moves.

(** The replay loop and the final [is_win]. *)
Fixpoint replay (current_game_state : KubobleGame) (parsed_moves : list (str * str))
    : outcome bool :=
  match parsed_moves with
  | [] => Ok (is_win current_game_state)
  | (sol_piece_char, sol_direction_name) :: rest =>
      if negb (dict_mem sol_piece_char (pieces current_game_state)) then Ok false
      else
        possible_moves ← get_possible_moves current_game_state;
        match find_move current_game_state possible_moves
                sol_piece_char sol_direction_name with
        | None => Ok false
        | Some (pm_piece, pm_new_pos, _) =>
            next ← apply_move current_game_state pm_piece pm_new_pos;
            replay next rest
        end
  end.

Definition verify_kuboble_solution (level_string solution_string : str) : outcome bool :=
  let game := new_game level_string in
  if negb (nonempty solution_string) || negb (nonempty (strip solution_string))
  then Ok (is_win game)
  else
    let raw_moves := split_on ";" solution_string in
    match parse_moves (length raw_moves) 0 raw_moves [] with
    | ReturnIsWin => Ok (is_win game)
    | ReturnFalse => Ok false
    | Parsed parsed_moves =>
        if negb (bool_decide (parsed_moves <> [])) && nonempty (strip solution_string)
        then Ok (is_win game)
        else replay game parsed_moves
    end.

(** ** kuboble_generator.py: [_coords_to_level_string] *)

Definition place_obstacles (w h : Z) (obstacles_pos : list pos) (g : grid_t) : grid_t :=
  fold_left (fun g '(r, c) =>
               if in_range r c h w then grid_put r c (lit "X") g else g)
            obstacles_pos g.

(** The loop over [pieces_pos.items()]; it also deletes from [targets_pos]. *)
Definition place_pieces (w h : Z) (pieces_pos : dict pos)
    (gt : grid_t * dict pos) : grid_t * dict pos :=
  fold_left (fun '(g, targets_pos) '(piece_char, (r, c)) =>
               if in_range r c h w then
                 let target_char := lower piece_char in
                 if decide (dict_get target_char targets_pos = Some (r, c))
                 then (grid_put r c (piece_char ++ target_char) g,
                       dict_del target_char targets_pos)
                 else (grid_put r c piece_char g, targets_pos)
               else (g, targets_pos))
            pieces_pos gt.

Definition place_targets (w h : Z) (targets_pos : dict pos) (g : grid_t) : grid_t :=
  fold_left (fun g '(target_char, (r, c)) =>
               if in_range r c h w then
                 if decide (cell g r c = Some (lit ".")) then grid_put r c target_char g
                 else g
               else g)
            targets_pos g.

Definition _coords_to_level_string (w h : Z) (pieces_pos targets_pos : dict pos)
    (obstacles_pos : list pos) : str :=
  let g := blank_grid w h in
  let g := place_obstacles w h obstacles_pos g in
  let '(g, targets_pos) := place_pieces w h pieces_pos (g, targets_pos) in
  let g := place_targets w h targets_pos g in
  join (lit ";") (join (lit " ") <$> g).

(** ** [_is_solvable_bfs] *)

(** Python's [<=] on strings: lexicographic on code points. *)
Fixpoint str_leb (a b : str) : bool :=
  match a, b with
  | [], _ => true
  | _ :: _, [] => false
  | x :: a', y :: b' =>
      if code x <? code y then true
      else if code y <? code x then false
      else str_leb a' b'
  end.

(** Python's [<=] on the tuples [(piece_char, (r, c))]. *)
Definition item_leb (x y : str * pos) : bool :=
  let '(k1, (r1, c1)) := x in
  let '(k2, (r2, c2)) := y in
  if decide (k1 = k2) then
    if decide (r1 = r2) then c1 <=? c2 else r1 <? r2
  else str_leb k1 k2.

Definition item_le (x y : str * pos) : Prop := item_leb x y = true.

#[global] Instance item_le_dec x y : Decision (item_le x y).
Proof. unfold item_le. apply _. Defined.

(** [tuple(sorted(game.pieces.items()))] *)
Definition state_key (g : KubobleGame) : list (str * pos) :=
  merge_sort item_le (pieces g).

Abbreviation entry := (KubobleGame * list (list ascii) * Z)%type.

(** [f"{piece_char} {direction_name}"] *)
Definition move_str (piece_char direction_name : str) : str :=
  piece_char ++ lit " " ++ direction_name.

(** The [for ... in possible_moves] loop of one popped state: either a
    winning path is returned, or the queue and the visited set grow. *)
Fixpoint expand (current_game : KubobleGame) (current_path : list str) (depth : Z)
    (possible_moves : list move) (queue : list entry)
    (visited_states : list (list (str * pos)))
    : outcome (list str + list entry * list (list (str * pos))) :=
  match possible_moves with
  | [] => Ok (inr (queue, visited_states))
  | (piece_char, new_pos, direction_name) :: rest =>
      next_game_state ← apply_move current_game piece_char new_pos;
      let new_path := current_path ++ [move_str piece_char direction_name] in
      if is_win next_game_state then Ok (inl new_path)
      else
        let pieces_tuple := state_key next_game_state in
        if decide (pieces_tuple ∈ visited_states)
        then expand current_game current_path depth rest queue visited_states
        else expand current_game current_path depth rest
               (queue ++ [(next_game_state, new_path, depth + 1)])
               (pieces_tuple :: visited_states)
  end.

(** The [while queue] loop. *)
Fixpoint bfs_loop (fuel : nat) (max_depth : Z) (queue : list entry)
    (visited_states : list (list (str * pos))) : outcome (option (list str)) :=
  match queue with
  | [] => Ok None
  | (current_game, current_path, depth) :: queue =>
      match fuel with
      | O => OutOfFuel
      | S fuel =>
          if decide (depth >= max_depth) then bfs_loop fuel max_depth queue visited_states
          else
            possible_moves ← get_possible_moves current_game;
            r ← expand current_game current_path depth possible_moves queue visited_states;
            match r with
            | inl new_path => Ok (Some new_path)
            | inr (queue, visited_states) => bfs_loop fuel max_depth queue visited_states
            end
      end
  end.

(** The list of move strings the search returns, before it is joined. *)
Definition bfs_path (fuel : nat) (game_instance : KubobleGame) (max_depth : Z)
    : outcome (option (list str)) :=
  if is_win game_instance then Ok (Some [])
  else bfs_loop fuel max_depth [(game_instance, [], 0)] [state_key game_instance].

Definition _is_solvable_bfs (fuel : nat) (game_instance : KubobleGame) (max_depth : Z)
    : outcome (option str) :=
  r ← bfs_path fuel game_instance max_depth;
  match r with
  | Some path => Ok (Some (join (lit ";") path))
  | None => Ok None
  end.

(** ** [generate_kuboble_level] *)

(** [l.pop()] *)
Definition py_pop {A} (l : list A) : option (A * list A) :=
  match reverse l with
  | x :: r => Some (x, reverse r)
  | [] => None
  end.

(** [chr(ord('A') + i)] *)
Definition piece_letter (i : nat) : str := [ascii_of_nat (65 + i)].

(** [for i in range(num_pieces)]: [todo] pieces are still to be placed. *)
Fixpoint draw_pieces (i todo : nat) (all_coords : list pos)
    (pieces_pos targets_pos : dict pos) : list pos * dict pos * dict pos :=
  match todo with
  | O => (all_coords, pieces_pos, targets_pos)
  | S todo =>
      if decide (length all_coords < 2)%nat then (all_coords, pieces_pos, targets_pos)
      else
        match py_pop all_coords with
        | Some (piece_coord, all_coords1) =>
            match py_pop all_coords1 with
            | Some (target_coord, all_coords2) =>
                let piece_char := piece_letter i in
                let target_char := lower piece_char in
                draw_pieces (S i) todo all_coords2
                  (dict_set piece_char piece_coord pieces_pos)
                  (dict_set target_char target_coord targets_pos)
            | None => (all_coords, pieces_pos, targets_pos)
            end
        | None => (all_coords, pieces_pos, targets_pos)
        end
  end.

(** [for _ in range(num_obstacles)] *)
Fixpoint draw_obstacles (todo : nat) (all_coords obstacles_pos : list pos)
    : list pos * list pos :=
  match todo with
  | O => (all_coords, obstacles_pos)
  | S todo =>
      match py_pop all_coords with
      | None => (all_coords, obstacles_pos)
      | Some (obstacle_coord, all_coords) =>
          draw_obstacles todo all_coords (obstacles_pos ++ [obstacle_coord])
      end
  end.

(** [[(r, c) for r in range(height) for c in range(width)]] *)
Definition coords_of (w h : Z) : list pos :=
  r ← seqZ 0 h; (fun c => (r, c)) <$> seqZ 0 w.

Section Generator.
(** [random.shuffle] in attempt [i], as an oracle. *)
Variable shuffle : nat -> list pos -> list pos.
(** Fuel handed to every run of the solver. *)
Variable fuel : nat.

(** One turn of [for attempt in range(max_generation_attempts)]:
    [None] stands for [continue]. *)
Definition attempt_level (attempt : nat) (w h num_pieces num_obstacles : Z)
    (max_solver_depth : Z) (require_non_trivial_solution : bool)
    : outcome (option (str * str)) :=
  let all_coords := shuffle attempt (coords_of w h) in
  let '(all_coords, pieces_pos, targets_pos) :=
    draw_pieces 0 (Z.to_nat num_pieces) all_coords [] [] in
  if bool_decide (Z.of_nat (length pieces_pos) <> num_pieces) then Ok None
  else
    let '(_, obstacles_pos) := draw_obstacles (Z.to_nat num_obstacles) all_coords [] in
    let level_string := _coords_to_level_string w h pieces_pos targets_pos obstacles_pos in
    let game := new_game level_string in
    current_solution ← _is_solvable_bfs fuel game 0;
    if require_non_trivial_solution && bool_decide (current_solution = Some [])
    then Ok None
    else
      solution ← _is_solvable_bfs fuel game max_solver_depth;
      match solution with
      | Some solution => Ok (Some (level_string, solution))
      | None => Ok None
      end.

Fixpoint attempts (todo : list nat) (w h num_pieces num_obstacles : Z)
    (max_solver_depth : Z) (require_non_trivial_solution : bool)
    : outcome (option (str * str)) :=
  match todo with
  | [] => Ok None
  | attempt :: todo =>
      r ← attempt_level attempt w h num_pieces num_obstacles
            max_solver_depth require_non_trivial_solution;
      match r with
      | Some res => Ok (Some res)
      | None => attempts todo w h num_pieces num_obstacles
                  max_solver_depth require_non_trivial_solution
      end
  end.

Definition generate_kuboble_level (w h num_pieces num_obstacles : Z)
    (max_generation_attempts max_solver_depth : Z)
    (require_non_trivial_solution : bool) : outcome (option (str * str)) :=
  if decide (num_pieces = 0) then
    Ok (Some (_coords_to_level_string w h [] [] [], []))
  else if decide (num_pieces > 26) then Raise ValueError
  else
    let total_cells := w * h in
    if decide (num_pieces * 2 + num_obstacles > total_cells) then Raise ValueError
    else attempts (seq 0 (Z.to_nat max_generation_attempts)) w h num_pieces num_obstacles
           max_solver_depth require_non_trivial_solution.
End Generator.


(** ** [_verify_generated_solution] *)

(** The scan [for p_m_p, p_m_new_pos, p_m_dir in current_possible_moves]
    for the first move of [m_piece] in direction [m_dir]. *)
Definition actual_move (current_possible_moves : list move) (m_piece m_dir : str)
    : option move :=
  find (fun '(p_m_p, p_m_new_pos, p_m_dir) =>
          bool_decide (p_m_p = m_piece) && bool_decide (p_m_dir = m_dir))
       current_possible_moves.

(** The loop [for i, move_raw in enumerate(moves)]: the board it ends on,
    [None] once [possible_to_apply_all] was cleared. *)
Fixpoint apply_all (temp_game : KubobleGame) (moves : list str)
    : outcome (option KubobleGame) :=
  match moves with
  | [] => Ok (Some temp_game)
  | move_raw :: rest =>
      match split_ws (strip move_raw) with
      | [p0; p1] =>
          let m_piece := p0 in
          let m_dir := lower p1 in
          current_possible_moves ← get_possible_moves temp_game;
          match actual_move current_possible_moves m_piece m_dir with
          | Some (p_m_p, p_m_new_pos, _) =>
              temp_game ← apply_move temp_game p_m_p p_m_new_pos;
              apply_all temp_game rest
          | None => Ok None
          end
      | _ => Ok None
      end
  end.

(** [solution_str] may be [None]; [game_class_for_verifier] is the class
    whose constructor parses the level. *)
Definition _verify_generated_solution (level_str : str) (solution_str : option str)
    (game_class_for_verifier : str -> KubobleGame) : outcome bool :=
  match solution_str with
  | None => Ok false
  | Some solution_str =>
      let verifier_game := game_class_for_verifier level_str in
      if negb (nonempty solution_str) then Ok (is_win verifier_game)
      else
        r ← apply_all verifier_game (split_on ";" solution_str);
        match r with
        | Some temp_game => Ok (is_win temp_game)
        | None => Ok false
        end
  end.

(** ** Board invariants and reachability *)

(** The stored grid is a [height] by [width] rectangle. *)
Definition grid_shape (g : grid_t) (w h : Z) : Prop :=
  length g = Z.to_nat h /\ Forall (fun row => length row = Z.to_nat w) g.

Definition in_grid (s : KubobleGame) (p : pos) : Prop :=
  0 <= p.1 < height s /\ 0 <= p.2 < width s.

Definition is_obstacle (s : KubobleGame) (p : pos) : Prop :=
  cell (grid s) p.1 p.2 = Some (lit "X").

Definition occupied_by_other (s : KubobleGame) (piece_char : str) (p : pos) : Prop :=
  exists other, other <> piece_char /\ dict_get other (pieces s) = Some p.

(** A cell the piece [piece_char] can slide onto. *)
Definition free_cell (s : KubobleGame) (piece_char : str) (p : pos) : Prop :=
  in_grid s p /\ ~ is_obstacle s p /\ ~ occupied_by_other s piece_char p.

(** A cell that stops the piece [piece_char]. *)
Definition obstructed (s : KubobleGame) (piece_char : str) (p : pos) : Prop :=
  ~ in_grid s p \/ is_obstacle s p \/ occupied_by_other s piece_char p.

(** The obstacle cells of a board, in row-major order. *)
Definition obstacles (s : KubobleGame) : list pos :=
  filter (fun p => cell (grid s) p.1 p.2 = Some (lit "X")) (coords_of (width s) (height s)).

(** The invariants of a board (spec section 3): the grid is a rectangle,
    piece names are unique, every piece stands inside the grid on a cell
    that shows its letter, no piece is called ["X"], and a cell shows an
    obstacle, nothing, or the piece that stands on it. *)
Record wf_game (s : KubobleGame) : Prop := {
  wf_shape : grid_shape (grid s) (width s) (height s);
  wf_keys : NoDup (keys (pieces s));
  wf_piece : forall p r c, dict_get p (pieces s) = Some (r, c) ->
      in_grid s (r, c) /\ cell (grid s) r c = Some p /\ p <> lit "X";
  wf_cell : forall r c x, cell (grid s) r c = Some x ->
      x = lit "X" \/ x = lit "." \/ dict_get x (pieces s) = Some (r, c)
}.

(** One legal move: a triple of [get_possible_moves] fed to [apply_move]. *)
Definition legal_step (s s' : KubobleGame) : Prop :=
  exists ms piece_char new_pos direction_name,
    get_possible_moves s = Ok ms /\ (piece_char, new_pos, direction_name) ∈ ms /\
    apply_move s piece_char new_pos = Ok s'.

(** States reached from [s0] by legal moves. *)
Inductive reachable (s0 : KubobleGame) : KubobleGame -> Prop :=
| reachable_start : reachable s0 s0
| reachable_move s s' : reachable s0 s -> legal_step s s' -> reachable s0 s'.

(** [serialize]: the level text of a board. *)
Definition serialize (s : KubobleGame) : str :=
  _coords_to_level_string (width s) (height s) (pieces s) (targets s) (obstacles s).

(** Two dictionaries that hold the same entries (Python's [==] on dicts). *)
Definition dict_equiv {V} (d1 d2 : dict V) : Prop :=
  forall k, dict_get k d1 = dict_get k d2.

(** ** Auxiliary notions used in the proofs *)

(** How many cells lie ahead of [(r, c)] inside the grid. *)
Definition room (dr dc r c h w : Z) : Z :=
  if decide (dr = -1) then r
  else if decide (dr = 1) then h - 1 - r
  else if decide (dc = -1) then c
  else w - 1 - c.

(** The piece and the target a cell token names. *)
Definition token_piece (tok : str) : option str := (fun ch => [ch]) <$> (scan_token tok).1.
Definition token_target (tok : str) : option str := (fun ch => [ch]) <$> (scan_token tok).2.

(** Every entry of a scanned dictionary comes from the token of its cell. *)
Definition entries_from (sel : str -> option str) (prt : list (list str)) (d : dict pos) : Prop :=
  NoDup (keys d)
  /\ forall k r c, dict_get k d = Some (r, c) ->
       0 <= r /\ 0 <= c /\ exists tok, tok_at prt r c = Some tok /\ sel tok = Some k.

(** A run of legal moves: each move is a triple of [get_possible_moves]
    of the board it is applied to. *)
Inductive run : KubobleGame -> list move -> KubobleGame -> Prop :=
| run_nil s : run s [] s
| run_cons s possible_moves piece_char new_pos direction_name s1 ms s' :
    get_possible_moves s = Ok possible_moves ->
    (piece_char, new_pos, direction_name) ∈ possible_moves ->
    apply_move s piece_char new_pos = Ok s1 ->
    run s1 ms s' ->
    run s ((piece_char, new_pos, direction_name) :: ms) s'.

(** The text of a run, as the solver writes it, and the pairs the
    verifier reads back. *)
Definition move_text (m : move) : str := move_str m.1.1 m.2.
Definition move_pair (m : move) : str * str := (m.1.1, m.2).

(** The board the replay loop holds after [parsed_moves], [None] once a
    move was rejected. *)
Fixpoint replay_state (current_game_state : KubobleGame) (parsed_moves : list (str * str))
    : outcome (option KubobleGame) :=
  match parsed_moves with
  | [] => Ok (Some current_game_state)
  | (sol_piece_char, sol_direction_name) :: rest =>
      if negb (dict_mem sol_piece_char (pieces current_game_state)) then Ok None
      else
        possible_moves ← get_possible_moves current_game_state;
        match find_move current_game_state possible_moves
                sol_piece_char sol_direction_name with
        | None => Ok None
        | Some (pm_piece, pm_new_pos, _) =>
            next ← apply_move current_game_state pm_piece pm_new_pos;
            replay_state next rest
        end
  end.


(** What the solver keeps of a queued state: a run of legal moves from
    the start that ends on it, the text of that run, its length, and the
    fact that the state is not won. *)
Definition entry_ok (s0 : KubobleGame) (e : entry) : Prop :=
  exists ms, run s0 ms e.1.1 /\ e.1.2 = move_text <$> ms
             /\ e.2 = Z.of_nat (length ms) /\ is_win e.1.1 = false.

(** Piece names are single capital letters. *)
Definition piece_names_ok (s : KubobleGame) : Prop :=
  forall p, p ∈ keys (pieces s) -> exists ch, p = [ch] /\ is_upper_letter ch = true.

(** *** The invariant of the breadth-first search *)

(** Boards at most [d] legal moves away from [s0]. *)
Definition near (s0 : KubobleGame) (d : Z) (t : KubobleGame) : Prop :=
  exists ms, run s0 ms t /\ Z.of_nat (length ms) <= d.

Definition in_queue (t : KubobleGame) (queue : list entry) : Prop :=
  exists path depth, (t, path, depth) ∈ queue.

(** [d] is the depth of the layer being expanded and [E] lists the
    states expanded so far.  The queue holds the rest of layer [d]
    followed by the part of layer [d + 1] found so far; no state within
    [d] moves of the start is won, and each of them is expanded or
    queued; the successors of expanded states are not won and are
    expanded or queued; the visited set holds the keys of the expanded
    and the queued states. *)
Record bfs_inv (s0 : KubobleGame) (d : Z) (E : list KubobleGame)
    (queue : list entry) (visited : list (list (str * pos))) : Prop := {
  inv_entries : Forall (entry_ok s0) queue;
  inv_layers : exists q1 q2, queue = q1 ++ q2
      /\ Forall (fun e : entry => e.2 = d) q1
      /\ Forall (fun e : entry => e.2 = d + 1) q2;
  inv_near : forall t, near s0 d t ->
      is_win t = false /\ (t ∈ E \/ exists path, (t, path, d) ∈ queue);
  inv_succ : forall s t, s ∈ E -> legal_step s t ->
      is_win t = false /\ (t ∈ E \/ in_queue t queue);
  inv_visited : forall k, k ∈ visited ->
      exists t, (t ∈ E \/ in_queue t queue) /\ state_key t = k;
  inv_done : forall t, t ∈ E -> exists ms, run s0 ms t
}.

(** The state of the [for] loop over the moves of the popped state [g]:
    [handled] are the moves already looked at, [qa] and [va] the queue
    and the visited set at this point. *)
Record expanding (s0 : KubobleGame) (d : Z) (E : list KubobleGame) (g : KubobleGame)
    (rest : list entry) (handled : list move) (qa : list entry)
    (va : list (list (str * pos))) : Prop := {
  exp_added : exists added, qa = rest ++ added
      /\ Forall (fun e : entry => e.2 = d + 1) added;
  exp_entries : Forall (entry_ok s0) qa;
  exp_handled : forall m t, m ∈ handled -> apply_move g m.1.1 m.1.2 = Ok t ->
      is_win t = false /\ (t = g \/ t ∈ E \/ in_queue t qa);
  exp_visited : forall k, k ∈ va ->
      exists t, (t = g \/ t ∈ E \/ in_queue t qa) /\ state_key t = k
}.

(** *** Notions for the round trip through the level text *)

(** The grid of cell tokens that [_coords_to_level_string] joins. *)
Definition level_grid (w h : Z) (pieces_pos targets_pos : dict pos)
    (obstacles_pos : list pos) : grid_t :=
  let g := place_obstacles w h obstacles_pos (blank_grid w h) in
  let gt := place_pieces w h pieces_pos (g, targets_pos) in
  place_targets w h gt.2 gt.1.

(** A cell token the parser reads back as one token: not empty, free of
    whitespace and of [;], and free of [.] unless it is ["."] itself. *)
Definition nice_token (tok : str) : Prop :=
  tok <> []
  /\ Forall (fun c => is_space c = false /\ c <> ";"%char) tok
  /\ (tok = lit "." \/ Forall (fun c => c <> "."%char) tok).

(** Neither the first nor the last character is whitespace. *)
Definition edge_clean (s : str) : Prop :=
  (forall c, head s = Some c -> is_space c = false)
  /\ (forall c, last s = Some c -> is_space c = false).

(** The board the parser builds from the tokens of the rows. *)
Definition board_of_tokens (processed_rows_tokens : list (list str)) : KubobleGame :=
  let h := Z.of_nat (length processed_rows_tokens) in
  let w := max_width processed_rows_tokens in
  let '(ps, ts) := scan_rows w 0 processed_rows_tokens ([], []) in
  let g := mark_pieces ps w h (mark_obstacles processed_rows_tokens w h (blank_grid w h)) in
  let ps := if dict_mem (lit "X") ps then dict_del (lit "X") ps else ps in
  mkGame g ps ts w h.

(** Every token that names something through [sel] has its name among
    the keys of [d]. *)
Definition names_covered (sel : str -> option str) (prt : list (list str)) (d : dict pos)
    : Prop :=
  forall r c tok k, 0 <= r -> 0 <= c -> tok_at prt r c = Some tok -> sel tok = Some k ->
                    k ∈ keys d.

(** A name is carried by the token of one cell at most. *)
Definition names_once (sel : str -> option str) (prt : list (list str)) : Prop :=
  forall r c r' c' tok tok' k, 0 <= r -> 0 <= c -> 0 <= r' -> 0 <= c' ->
    tok_at prt r c = Some tok -> tok_at prt r' c' = Some tok' ->
    sel tok = Some k -> sel tok' = Some k -> (r, c) = (r', c').

(** The token [_coords_to_level_string] writes for a piece on [x]. *)
Definition piece_token (T : dict pos) (p : str) (x : pos) : str :=
  if decide (dict_get (lower p) T = Some x) then p ++ lower p else p.

(** The token of cell [x] in the level text of pieces [P], targets [T]
    and obstacles [O]: the piece on the cell (with its own target when
    it stands on it), else the target on the cell, else the obstacle or
    the empty cell. *)
Definition level_token (P T : dict pos) (O : list pos) (x : pos) : str :=
  match list_find (fun a : str * pos => a.2 = x) P with
  | Some (_, (p, _)) => piece_token T p x
  | None =>
      match list_find (fun a : str * pos => a.2 = x) T with
      | Some (_, (t, _)) => t
      | None => if decide (x ∈ O) then lit "X" else lit "."
      end
  end.

(** Coordinates the level writer can render faithfully: pieces are named by
    different capital letters other than [X] and stand on different cells of
    the grid, targets are named by different small letters and lie on
    different cells, and no piece or target shares a cell with an obstacle. *)
Record placement (w h : Z) (P T : dict pos) (O : list pos) : Prop := {
  pl_height : 0 < h;
  pl_width : 0 <= w;
  pl_piece_keys : NoDup (keys P);
  pl_piece_cells : NoDup (P.*2);
  pl_piece_range : forall p x, (p, x) ∈ P -> 0 <= x.1 < h /\ 0 <= x.2 < w;
  pl_piece_names : forall p, p ∈ keys P -> exists ch, p = [ch] /\ is_upper_letter ch = true;
  pl_piece_not_X : lit "X" ∉ keys P;
  pl_piece_free : forall p x, (p, x) ∈ P -> x ∉ O;
  pl_target_keys : NoDup (keys T);
  pl_target_cells : NoDup (T.*2);
  pl_target_names : forall t, t ∈ keys T -> exists ch, t = [ch] /\ is_lower_letter ch = true;
  pl_target_free : forall t x, (t, x) ∈ T -> x ∉ O;
  pl_obstacles : NoDup O
}.

(** A fragment of a solution text that names the piece and the direction of
    the move [m]. *)
Definition fragment_of (frag : str) (m : move) : Prop :=
  exists p1, split_ws (strip frag) = [m.1.1; p1] /\ lower p1 = m.2.

(** ** Objects and aliasing: [apply_move] on the heap

    [apply_move] builds its result from copies ([row[:]],
    [self.pieces.copy()]) and from a shared reference ([self.targets]).
    To state that the board it is called on is left as it was, lists and
    dictionaries are objects in a heap here and a board is a record of
    references.  Strings, integers and tuples are immutable and stay
    values. *)

Inductive obj :=
| ORow (cells : list str)       (* one row of the grid *)
| ORows (rows : list nat)       (* the grid: a list of references to rows *)
| ODict (d : dict pos).         (* [pieces] or [targets] *)

Abbreviation heap := (list obj).

Record game_ref := mkRef {
  grid_ref : nat;
  pieces_ref : nat;
  targets_ref : nat;
  width_ref : Z;
  height_ref : Z
}.

(** Computations that read and write the heap and may raise. *)
Definition hm (A : Type) : Type := heap -> outcome (A * heap).

#[global] Instance hm_ret : MRet hm := fun A a h => Ok (a, h).
#[global] Instance hm_bind : MBind hm := fun A B f m h =>
  match m h with
  | Ok (a, h') => f a h'
  | Raise e => Raise e
  | OutOfFuel => OutOfFuel
  end.

Definition lift {A} (m : outcome A) : hm A := fun h =>
  match m with
  | Ok a => Ok (a, h)
  | Raise e => Raise e
  | OutOfFuel => OutOfFuel
  end.

(** A new object gets the next free address. *)
Definition alloc (o : obj) : hm nat := fun h => Ok (length h, h ++ [o]).

Definition store (l : nat) (o : obj) : hm unit := fun h => Ok (tt, <[l := o]> h).

Definition load_row (l : nat) : hm (list str) := fun h =>
  match h !! l with Some (ORow cells) => Ok (cells, h) | _ => Raise TypeError end.

Definition load_rows (l : nat) : hm (list nat) := fun h =>
  match h !! l with Some (ORows rows) => Ok (rows, h) | _ => Raise TypeError end.

Definition load_dict (l : nat) : hm (dict pos) := fun h =>
  match h !! l with Some (ODict d) => Ok (d, h) | _ => Raise TypeError end.

(** [[row[:] for row in rows]] *)
Fixpoint copy_rows (rows : list nat) : hm (list nat) :=
  match rows with
  | [] => mret []
  | r :: rows =>
      cells ← load_row r;
      r' ← alloc (ORow cells);
      rest ← copy_rows rows;
      mret (r' :: rest)
  end.

(** [g[r][c] = v] on the grid object at [g] *)
Definition set_cell (g : nat) (r c : Z) (v : str) : hm unit :=
  rows ← load_rows g;
  row ← lift (py_get rows r);
  cells ← load_row row;
  cells' ← lift (py_set cells c v);
  store row (ORow cells').

Definition apply_move_heap (self : game_ref) (piece_char : str) (new_pos : pos)
    : hm game_ref :=
  rows ← load_rows (grid_ref self);
  new_rows ← copy_rows rows;
  new_grid ← alloc (ORows new_rows);
  d ← load_dict (pieces_ref self);
  new_pieces ← alloc (ODict d);
  d0 ← load_dict (pieces_ref self);
  match dict_get piece_char d0 with
  | None => lift (Raise KeyError)
  | Some (old_r, old_c) =>
      let '(new_r, new_c) := new_pos in
      _ ← set_cell new_grid old_r old_c (lit ".");
      _ ← set_cell new_grid new_r new_c piece_char;
      d1 ← load_dict new_pieces;
      _ ← store new_pieces (ODict (dict_set piece_char (new_r, new_c) d1));
      mret (mkRef new_grid new_pieces (targets_ref self) (width_ref self) (height_ref self))
  end.

(** The value of the objects a board refers to. *)
Fixpoint read_rows (h : heap) (rows : list nat) : option grid_t :=
  match rows with
  | [] => Some []
  | r :: rows =>
      match h !! r, read_rows h rows with
      | Some (ORow cells), Some g => Some (cells :: g)
      | _, _ => None
      end
  end.

Definition read_game (h : heap) (self : game_ref) : option KubobleGame :=
  match h !! grid_ref self, h !! pieces_ref self, h !! targets_ref self with
  | Some (ORows rows), Some (ODict ps), Some (ODict ts) =>
      match read_rows h rows with
      | Some g => Some (mkGame g ps ts (width_ref self) (height_ref self))
      | None => None
      end
  | _, _, _ => None
  end.

(** ** Output: [print], [repr] and the encoding of [sys.stdout]

    The definitions above give the values the functions return.  Here the
    functions that print are given again with their [print] calls.
    [print] encodes its text for [sys.stdout] and raises
    [UnicodeEncodeError] on a character the encoding lacks (the error
    handler of [sys.stdout] is [strict]); the stream is taken to be open
    and writable. *)

(** Printed text: Unicode code points. *)
Abbreviation text := (list Z).

Definition chars (s : str) : text := code <$> s.

(** [str(z)] for an [int]. *)
Definition str_of_int (z : Z) : str :=
  String.list_ascii_of_string (DecimalString.NilZero.string_of_int (Z.to_int z)).

(** [str(b)] for a [bool]. *)
Definition str_of_bool (b : bool) : str := if b then lit "True" else lit "False".

Definition hex_digit (n : Z) : ascii :=
  nth (Z.to_nat n) (lit "0123456789abcdef") "0"%char.

(** [str.isprintable] on an 8-bit character. *)
Definition is_printable (c : ascii) : bool :=
  let n := code c in
  ((32 <=? n) && (n <? 127)) || ((161 <=? n) && negb (n =? 173)).

(** One character of [repr(s)], inside the quote character [quote]. *)
Definition repr_char (quote c : ascii) : str :=
  let n := code c in
  if bool_decide (c = quote) || (n =? 92) then ["092"%char; c]
  else if n =? 9 then ["092"%char; "t"%char]
  else if n =? 10 then ["092"%char; "n"%char]
  else if n =? 13 then ["092"%char; "r"%char]
  else if is_printable c then [c]
  else ["092"%char; "x"%char; hex_digit (n / 16); hex_digit (n `mod` 16)].

(** [repr(s)] for a [str]: single quotes, unless [s] holds a single quote
    and no double quote. *)
Definition repr_str (s : str) : str :=
  let quote := if contains "'" s && negb (contains "034" s) then "034"%char
               else "'"%char in
  [quote] ++ concat (repr_char quote <$> s) ++ [quote].

(** [repr((r, c))] *)
Definition repr_pos (p : pos) : str :=
  lit "(" ++ str_of_int p.1 ++ lit ", " ++ str_of_int p.2 ++ lit ")".

(** [repr(d)] for a dict of positions. *)
Definition repr_dict (d : dict pos) : str :=
  lit "{" ++ join (lit ", ") ((fun e : str * pos => repr_str e.1 ++ lit ": " ++ repr_pos e.2) <$> d)
  ++ lit "}".

(** [repr((piece_char, (r, c), direction_name))] *)
Definition repr_move (m : move) : str :=
  lit "(" ++ repr_str m.1.1 ++ lit ", " ++ repr_pos m.1.2 ++ lit ", " ++ repr_str m.2
  ++ lit ")".

(** [repr(moves)] for a list of moves. *)
Definition repr_moves (ms : list move) : str :=
  lit "[" ++ join (lit ", ") (repr_move <$> ms) ++ lit "]".

(** A loop whose body can raise. *)
Fixpoint foldM {A S} (f : S -> A -> outcome S) (l : list A) (s : S) : outcome S :=
  match l with
  | [] => Ok s
  | a :: l' => s' ← f s a; foldM f l' s'
  end.

(** [min(l)] and [max(l)]: [ValueError] on an empty sequence. *)
Definition py_min (l : list Z) : outcome Z :=
  match l with
  | [] => Raise ValueError
  | x :: l' => Ok (fold_left Z.min l' x)
  end.

Definition py_max (l : list Z) : outcome Z :=
  match l with
  | [] => Raise ValueError
  | x :: l' => Ok (fold_left Z.max l' x)
  end.

(** The text in brackets in the print of line 235 of the verifier. *)
Definition debug_literal : text :=
  [3648; 3593; 3614; 3634; 3632; 3626; 3656; 3623; 3609; 3607; 3637; 3656; 3617; 3637;
   3594; 3636; 3657; 3609; 3626; 3656; 3623; 3609].

Section Output.
(** The code points the encoding of [sys.stdout] has. *)
Variable stdout_encodes : Z -> bool.

(** [print(t)]: the text and the newline are encoded. *)
Definition print (t : text) : outcome unit :=
  if forallb stdout_encodes (t ++ [10]) then Ok tt else Raise UnicodeEncodeError.

Definition print_str (s : str) : outcome unit := print (chars s).

(** *** [is_win], with its prints *)

(** The loop over [self.get_piece_target_pairs().items()] and what
    follows it. *)
Fixpoint is_win_loop (self : KubobleGame) (pairs : list (str * str)) : outcome bool :=
  match pairs with
  | [] => _ ← print_str (lit "  IS_WIN_TRUE"); Ok true
  | (piece_char, target_char) :: rest =>
      match dict_get target_char (targets self) with
      | None => Ok false
      | Some tpos =>
          match dict_get piece_char (pieces self) with
          | None => Raise KeyError
          | Some ppos =>
              if bool_decide (ppos <> tpos) then
                _ ← print_str (lit "  IS_WIN_FALSE: " ++ piece_char ++ lit " at "
                               ++ repr_pos ppos ++ lit " != " ++ target_char ++ lit " at "
                               ++ repr_pos tpos);
                Ok false
              else is_win_loop self rest
          end
      end
  end.

Definition is_win_io (self : KubobleGame) : outcome bool :=
  _ ← print_str (lit "DEBUG_IS_WIN_CALLED: Pieces: " ++ repr_dict (pieces self)
                 ++ lit ", Targets: " ++ repr_dict (targets self));
  match pieces self with
  | [] => Ok false
  | _ => is_win_loop self (get_piece_target_pairs self)
  end.

(** *** [verify_kuboble_solution], with its debugging branch *)

(** [min_r], [max_r], [min_c], [max_c] of the debugging branch (computed
    and not used). *)
Definition debug_bounds (s : KubobleGame) : outcome (Z * Z * Z * Z) :=
  min_r ← match pieces s with
          | [] => Ok 0
          | _ => py_min ((fun e : str * pos => e.2.1) <$> pieces s)
          end;
  max_r ← match pieces s with
          | [] => Ok (height s - 1)
          | _ => py_max ((fun e : str * pos => e.2.1) <$> pieces s)
          end;
  min_c ← match pieces s with
          | [] => Ok 0
          | _ => py_min ((fun e : str * pos => e.2.2) <$> pieces s)
          end;
  max_c ← match pieces s with
          | [] => Ok (width s - 1)
          | _ => py_max ((fun e : str * pos => e.2.2) <$> pieces s)
          end;
  Ok (min_r, max_r, min_c, max_c).

(** [temp_display_grid] after its three loops: obstacles, pieces, and
    the targets of cells that still show ['.'] (the two other branches of
    the last loop are [pass]). *)
Definition display_grid (s : KubobleGame) : outcome grid_t :=
  let temp_display_grid := blank_grid (width s) (height s) in
  temp_display_grid ←
    foldM (fun temp (x : pos) =>
             cell_content ← grid_get (grid s) x.1 x.2;
             if decide (cell_content = lit "X") then grid_set temp x.1 x.2 (lit "X")
             else Ok temp)
          (coords_of (width s) (height s)) temp_display_grid;
  temp_display_grid ←
    foldM (fun temp (e : str * pos) => grid_set temp e.2.1 e.2.2 e.1)
          (pieces s) temp_display_grid;
  foldM (fun temp (e : str * pos) =>
           shown ← grid_get temp e.2.1 e.2.2;
           if decide (shown = lit ".") then grid_set temp e.2.1 e.2.2 e.1
           else Ok temp)
        (targets s) temp_display_grid.

(** What the debugging branch does after [apply_move] (lines 233-258). *)
Definition debug_after (s : KubobleGame) : outcome unit :=
  _ ← print_str (lit "    [DEBUG_T20] Pieces after apply_move: " ++ repr_dict (pieces s));
  _ ← print (chars (lit "    [DEBUG_T20] Grid after apply_move (") ++ debug_literal
             ++ chars (lit "):"));
  _ ← debug_bounds s;
  temp_display_grid ← display_grid s;
  foldM (fun _ r_print =>
           row ← py_get temp_display_grid r_print;
           print_str (lit "      [DEBUG_T20] " ++ join (lit " ") row))
        (seqZ 0 (height s)) tt.

(** The replay loop and the final [is_win]; [n] is [len(parsed_moves)]
    and [i] the index of the move at hand. *)
Fixpoint replay_io (level_string : str) (n i : nat) (current_game_state : KubobleGame)
    (parsed_moves : list (str * str)) : outcome bool :=
  match parsed_moves with
  | [] => is_win_io current_game_state
  | (sol_piece_char, sol_direction_name) :: rest =>
      let is_test_20_level := bool_decide (level_string = lit "A B . ;X . . ;b a .") in
      _ ← (if is_test_20_level then
             _ ← print_str (lit "  [DEBUG_T20] Processing move "
                            ++ str_of_int (Z.of_nat i + 1) ++ lit "/"
                            ++ str_of_int (Z.of_nat n) ++ lit ": "
                            ++ sol_piece_char ++ lit " " ++ sol_direction_name);
             print_str (lit "    [DEBUG_T20] Current pieces: "
                        ++ repr_dict (pieces current_game_state))
           else Ok tt);
      if negb (dict_mem sol_piece_char (pieces current_game_state)) then
        _ ← (if is_test_20_level then
               print_str (lit "    [DEBUG_T20] Piece '" ++ sol_piece_char
                          ++ lit "' not found. FAILING.")
             else Ok tt);
        Ok false
      else
        possible_moves ← get_possible_moves current_game_state;
        _ ← (if is_test_20_level then
               print_str (lit "    [DEBUG_T20] Possible moves from current state: "
                          ++ repr_moves possible_moves)
             else Ok tt);
        match find_move current_game_state possible_moves
                sol_piece_char sol_direction_name with
        | None =>
            _ ← (if is_test_20_level then
                   print_str (lit "    [DEBUG_T20] Solution move '" ++ sol_piece_char
                              ++ lit " " ++ sol_direction_name
                              ++ lit "' not found in possible_moves. FAILING.")
                 else Ok tt);
            Ok false
        | Some (pm_piece, pm_new_pos, pm_direction) =>
            _ ← (if is_test_20_level then
                   print_str (lit "    [DEBUG_T20] Applying matched game move: "
                              ++ repr_move (pm_piece, pm_new_pos, pm_direction))
                 else Ok tt);
            next ← apply_move current_game_state pm_piece pm_new_pos;
            _ ← (if is_test_20_level then debug_after next else Ok tt);
            replay_io level_string n (S i) next rest
        end
  end.

Definition verify_kuboble_solution_io (level_string solution_string : str)
    : outcome bool :=
  let game := new_game level_string in
  if negb (nonempty solution_string) || negb (nonempty (strip solution_string))
  then is_win_io game
  else
    let raw_moves := split_on ";" solution_string in
    match parse_moves (length raw_moves) 0 raw_moves [] with
    | ReturnIsWin => is_win_io game
    | ReturnFalse => Ok false
    | Parsed parsed_moves =>
        if negb (bool_decide (parsed_moves <> [])) && nonempty (strip solution_string)
        then is_win_io game
        else replay_io level_string (length parsed_moves) 0 game parsed_moves
    end.

(** *** [_verify_generated_solution], with its prints *)

(** The loop over [enumerate(moves)]; [i] is the index of [move_raw]. *)
Fixpoint apply_all_io (i : nat) (temp_game : KubobleGame) (moves : list str)
    : outcome (option KubobleGame) :=
  match moves with
  | [] => Ok (Some temp_game)
  | move_raw :: rest =>
      match split_ws (strip move_raw) with
      | [p0; p1] =>
          let m_piece := p0 in
          let m_dir := lower p1 in
          current_possible_moves ← get_possible_moves temp_game;
          match actual_move current_possible_moves m_piece m_dir with
          | Some (p_m_p, p_m_new_pos, _) =>
              temp_game ← apply_move temp_game p_m_p p_m_new_pos;
              apply_all_io (S i) temp_game rest
          | None =>
              _ ← print_str (lit "  Verification Error: Generated solution move "
                             ++ str_of_int (Z.of_nat i + 1) ++ lit " ('" ++ move_raw
                             ++ lit "') not possible from current state.");
              _ ← print_str (lit "    Available moves: "
                             ++ repr_moves current_possible_moves);
              _ ← print_str (lit "    Current pieces: " ++ repr_dict (pieces temp_game));
              Ok None
          end
      | _ =>
          _ ← print_str (lit "  Verification Error: Malformed move '" ++ move_raw
                         ++ lit "' in generated solution.");
          Ok None
      end
  end.

(** The class passed as [game_class_for_verifier] is taken to be
    [KubobleGame], the class the file passes: its [is_win] prints. *)
Definition _verify_generated_solution_io (level_str : str) (solution_str : option str)
    (game_class_for_verifier : str -> KubobleGame) : outcome bool :=
  match solution_str with
  | None =>
      _ ← print_str (lit "  Verification Error: No solution string provided for a generated level.");
      Ok false
  | Some solution_str =>
      let verifier_game := game_class_for_verifier level_str in
      verified_correctly ←
        (if negb (nonempty solution_str) then
           verified_correctly ← is_win_io verifier_game;
           _ ← (if negb verified_correctly then
                  print_str (lit "  Verification Error: Empty solution provided, but game is not initially won.")
                else Ok tt);
           Ok verified_correctly
         else
           r ← apply_all_io 0 verifier_game (split_on ";" solution_str);
           match r with
           | Some temp_game =>
               verified_correctly ← is_win_io temp_game;
               _ ← (if negb verified_correctly then
                      print_str (lit "  Verification Error: All solution moves applied, but game is not won.")
                    else Ok tt);
               Ok verified_correctly
           | None => Ok false
           end);
      _ ← print_str (lit "Solution verified by applying moves: "
                     ++ str_of_bool verified_correctly);
      Ok verified_correctly
  end.

(** [m] returns [v], or a [print] raised on a code point in [P] that the
    encoding lacks. *)
Definition prints_within (P : Z -> Prop) {A} (m : outcome A) (v : A) : Prop :=
  m = Ok v
  \/ (m = Raise UnicodeEncodeError /\ exists z, P z /\ stdout_encodes z = false).
End Output.

(** The text of an ASCII string. *)
Definition asciib (s : str) : bool := forallb (fun c => code c <? 128) s.

(** Every character of [s] has its code point in [P]. *)
Definition text_in (P : Z -> Prop) (s : str) : Prop := Forall (fun c => P (code c)) s.

(** Target names are single small letters. *)
Definition target_names_ok (s : KubobleGame) : Prop :=
  forall t, t ∈ keys (targets s) -> exists ch, t = [ch] /\ is_lower_letter ch = true.

(** What the boards of a replay satisfy: the invariants of a board,
    letters as names, and targets inside the grid. *)
Definition replay_board (s : KubobleGame) : Prop :=
  wf_game s /\ piece_names_ok s /\ target_names_ok s
  /\ forall t x, dict_get t (targets s) = Some x -> in_grid s x.
(** * Properties *)

(** ** The outcome monad *)

Lemma bind_Ok {A B} (m : outcome A) (f : A -> outcome B) (b : B) :
  m ≫= f = Ok b <-> exists a, m = Ok a /\ f a = Ok b.
Proof.
  destruct m as [a|e|]; simpl; split; try naive_solver.
Qed.

Ltac inv_bind H :=
  let a := fresh "a" in
  let Ha := fresh "Ha" in
  apply bind_Ok in H; destruct H as (a & Ha & H).

(** ** Dictionaries *)

Section Dict.
Context {V : Type}.
Implicit Types (d : dict V) (k : str) (v : V).

Lemma dict_get_set_eq k v d : dict_get k (dict_set k v d) = Some v.
Proof.
  induction d as [|[k' v'] d IH]; simpl.
  - by rewrite decide_True.
  - destruct (decide (k' = k)) as [->|Hne]; simpl.
    + by rewrite decide_True.
    + by rewrite decide_False.
Qed.

Lemma dict_get_set_ne k k' v d :
  k <> k' -> dict_get k' (dict_set k v d) = dict_get k' d.
Proof.
  intros Hne. induction d as [|[k0 v0] d IH]; simpl.
  - by rewrite decide_False.
  - destruct (decide (k0 = k)) as [->|Hne0]; simpl.
    + by rewrite !decide_False.
    + by rewrite IH.
Qed.

Lemma dict_get_None k d : dict_get k d = None <-> k ∉ keys d.
Proof.
  induction d as [|[k0 v0] d IH]; simpl.
  - split; [intros _; apply not_elem_of_nil | done].
  - rewrite not_elem_of_cons. destruct (decide (k0 = k)) as [->|Hne].
    + naive_solver.
    + rewrite IH. naive_solver.
Qed.

Lemma dict_get_Some_elem k v d : dict_get k d = Some v -> (k, v) ∈ d.
Proof.
  induction d as [|[k0 v0] d IH]; simpl; [done|].
  destruct (decide (k0 = k)) as [->|Hne].
  - intros [= ->]. apply elem_of_cons; by left.
  - intros H. apply elem_of_cons; right; auto.
Qed.

Lemma dict_get_is_Some k d : is_Some (dict_get k d) <-> k ∈ keys d.
Proof.
  destruct (dict_get k d) as [v|] eqn:E.
  - split; [|by eauto]. intros _. apply dict_get_Some_elem in E.
    apply (list_elem_of_fmap_2 fst) in E. exact E.
  - split; [by intros [? ?]|]. intros Hin. by apply dict_get_None in E.
Qed.

Lemma elem_dict_get k v d : NoDup (keys d) -> (k, v) ∈ d -> dict_get k d = Some v.
Proof.
  induction d as [|[k0 v0] d IH]; simpl; intros Hnd Hin.
  - by apply elem_of_nil in Hin.
  - apply NoDup_cons in Hnd as [Hnotin Hnd].
    apply elem_of_cons in Hin as [Heq|Hin].
    + simplify_eq. by rewrite decide_True.
    + destruct (decide (k0 = k)) as [->|Hne]; [|by auto].
      exfalso. apply Hnotin. apply (list_elem_of_fmap_2 fst) in Hin. exact Hin.
Qed.

Lemma keys_dict_set_in k v d : k ∈ keys d -> keys (dict_set k v d) = keys d.
Proof.
  induction d as [|[k0 v0] d IH]; simpl; intros Hin.
  - by apply elem_of_nil in Hin.
  - destruct (decide (k0 = k)) as [->|Hne]; simpl; [done|].
    apply elem_of_cons in Hin as [->|Hin]; [done|]. f_equal. auto.
Qed.

Lemma keys_dict_set_notin k v d : k ∉ keys d -> keys (dict_set k v d) = keys d ++ [k].
Proof.
  induction d as [|[k0 v0] d IH]; simpl; intros Hin; [done|].
  apply not_elem_of_cons in Hin as [Hne Hin].
  rewrite decide_False by done. simpl. f_equal. auto.
Qed.

Lemma keys_dict_set_elem k k' v d : k' ∈ keys (dict_set k v d) <-> k' = k \/ k' ∈ keys d.
Proof.
  destruct (decide (k ∈ keys d)) as [Hin|Hin].
  - rewrite keys_dict_set_in by done. naive_solver.
  - rewrite keys_dict_set_notin by done. rewrite elem_of_app, list_elem_of_singleton.
    naive_solver.
Qed.

Lemma NoDup_keys_set k v d : NoDup (keys d) -> NoDup (keys (dict_set k v d)).
Proof.
  intros Hnd. destruct (decide (k ∈ keys d)) as [Hin|Hin].
  - by rewrite keys_dict_set_in.
  - rewrite keys_dict_set_notin by done. apply NoDup_app. split_and!; [done| |].
    + intros x Hx Hx'. apply list_elem_of_singleton in Hx'. by subst.
    + apply NoDup_singleton.
Qed.

Lemma length_dict_set_in k v d : k ∈ keys d -> length (dict_set k v d) = length d.
Proof.
  intros Hin. pose proof (f_equal length (keys_dict_set_in k v d Hin)) as H.
  unfold keys in H. by rewrite !length_map in H.
Qed.

Lemma dict_get_del_ne k k' d : k <> k' -> dict_get k' (dict_del k d) = dict_get k' d.
Proof.
  intros Hne. induction d as [|[k0 v0] d IH]; simpl; [done|].
  destruct (decide (k0 = k)) as [->|Hne0]; simpl.
  - by rewrite decide_False.
  - by rewrite IH.
Qed.

Lemma dict_get_del_eq k d : NoDup (keys d) -> dict_get k (dict_del k d) = None.
Proof.
  induction d as [|[k0 v0] d IH]; simpl; intros Hnd; [done|].
  apply NoDup_cons in Hnd as [Hnotin Hnd].
  destruct (decide (k0 = k)) as [->|Hne0]; simpl.
  - by apply dict_get_None.
  - rewrite decide_False by done. auto.
Qed.

Lemma keys_dict_del_sub k k' d : k' ∈ keys (dict_del k d) -> k' ∈ keys d.
Proof.
  induction d as [|[k0 v0] d IH]; simpl; [done|].
  destruct (decide (k0 = k)) as [->|Hne0]; simpl.
  - intros H. apply elem_of_cons; by right.
  - intros [->|H]%elem_of_cons; apply elem_of_cons; auto.
Qed.

Lemma NoDup_keys_del k d : NoDup (keys d) -> NoDup (keys (dict_del k d)).
Proof.
  induction d as [|[k0 v0] d IH]; simpl; intros Hnd; [done|].
  apply NoDup_cons in Hnd as [Hnotin Hnd].
  destruct (decide (k0 = k)) as [->|Hne0]; simpl; [done|].
  apply NoDup_cons. split; [|auto]. intros H. by apply keys_dict_del_sub in H.
Qed.
End Dict.

(** ** Indexing and grids *)

Lemma py_index_nonneg n i : 0 <= i < Z.of_nat n -> py_index n i = Some (Z.to_nat i).
Proof.
  intros H. unfold py_index. simpl. repeat case_decide; try lia; done.
Qed.

Lemma py_index_nonneg_inv n i j : 0 <= i -> py_index n i = Some j ->
  j = Z.to_nat i /\ i < Z.of_nat n.
Proof.
  intros H. unfold py_index. simpl. repeat case_decide; try lia; try done.
  intros [= <-]. lia.
Qed.

Lemma py_get_nonneg {A} (l : list A) i x :
  0 <= i -> py_get l i = Ok x <-> l !! Z.to_nat i = Some x.
Proof.
  intros Hi. unfold py_get. split.
  - destruct (py_index (length l) i) as [j|] eqn:E; [|done].
    apply py_index_nonneg_inv in E as [-> _]; [|done].
    destruct (l !! Z.to_nat i); naive_solver.
  - intros Hl. rewrite py_index_nonneg.
    + by rewrite Hl.
    + apply lookup_lt_Some in Hl. lia.
Qed.

Lemma grid_get_cell g r c x :
  0 <= r -> 0 <= c -> grid_get g r c = Ok x <-> cell g r c = Some x.
Proof.
  intros Hr Hc. unfold grid_get, cell. rewrite decide_True by done.
  rewrite bind_Ok. split.
  - intros (row & Hrow & Hx). apply py_get_nonneg in Hrow; [|done].
    rewrite Hrow. by apply py_get_nonneg in Hx.
  - destruct (g !! Z.to_nat r) as [row|] eqn:E; [|done].
    intros Hx. exists row. split; by apply py_get_nonneg.
Qed.

Lemma cell_is_Some g w h r c :
  grid_shape g w h -> 0 <= r < h -> 0 <= c < w -> is_Some (cell g r c).
Proof.
  intros [Hlen Hrows] Hr Hc. unfold cell. rewrite decide_True by lia.
  destruct (lookup_lt_is_Some_2 g (Z.to_nat r)) as [row Hrow]; [lia|].
  rewrite Hrow. apply lookup_lt_is_Some_2.
  rewrite Forall_forall in Hrows. rewrite (Hrows row); [lia|].
  eapply list_elem_of_lookup_2. exact Hrow.
Qed.

Lemma cell_Some_in_range g w h r c x :
  grid_shape g w h -> cell g r c = Some x -> 0 <= r < h /\ 0 <= c < w.
Proof.
  intros [Hlen Hrows]. unfold cell. case_decide; [|done].
  destruct (g !! Z.to_nat r) as [row|] eqn:E; [|done]. intros Hx.
  apply lookup_lt_Some in E as Hr. apply lookup_lt_Some in Hx.
  rewrite Forall_forall in Hrows. rewrite (Hrows row) in Hx; [lia|].
  eapply list_elem_of_lookup_2. exact E.
Qed.

Lemma grid_put_shape g w h r c v : grid_shape g w h -> grid_shape (grid_put r c v g) w h.
Proof.
  intros [Hlen Hrows]. unfold grid_put. split.
  - by rewrite length_alter.
  - rewrite Forall_forall in Hrows. apply Forall_forall. intros row Hin.
    apply list_elem_of_lookup in Hin as [i Hi].
    destruct (decide (i = Z.to_nat r)) as [->|Hne].
    + rewrite list_lookup_alter_eq in Hi.
      destruct (g !! Z.to_nat r) as [row0|] eqn:E; simpl in Hi; [|done].
      injection Hi as <-. rewrite length_insert. apply Hrows. eapply list_elem_of_lookup_2. exact E.
    + rewrite list_lookup_alter_ne in Hi by done. apply Hrows.
      eapply list_elem_of_lookup_2. exact Hi.
Qed.

Lemma cell_grid_put_eq g r c v :
  is_Some (cell g r c) -> cell (grid_put r c v g) r c = Some v.
Proof.
  unfold cell, grid_put. case_decide; [|by intros [? ?]].
  rewrite list_lookup_alter_eq.
  destruct (g !! Z.to_nat r) as [row|] eqn:E; simpl; [|by intros [? ?]].
  intros [x Hx]. apply list_lookup_insert_eq. by apply lookup_lt_Some in Hx.
Qed.

Lemma cell_grid_put_ne g r c v r' c' :
  0 <= r -> 0 <= c -> (r, c) <> (r', c') ->
  cell (grid_put r c v g) r' c' = cell g r' c'.
Proof.
  intros Hr Hc Hne. unfold cell, grid_put. case_decide; [|done].
  destruct (decide (Z.to_nat r = Z.to_nat r')) as [Heq|Hner].
  - rewrite <- Heq. rewrite list_lookup_alter_eq.
    destruct (g !! Z.to_nat r) as [row|] eqn:E; simpl; [|done].
    apply list_lookup_insert_ne. intros Hcc. apply Hne. f_equal; lia.
  - by rewrite list_lookup_alter_ne.
Qed.

(** A guarded [g[r][c] = v] is the update [grid_put]. *)
Lemma grid_set_put g w h r c v :
  grid_shape g w h -> 0 <= r < h -> 0 <= c < w ->
  grid_set g r c v = Ok (grid_put r c v g).
Proof.
  intros [Hlen Hrows] Hr Hc. unfold grid_set, grid_put.
  destruct (lookup_lt_is_Some_2 g (Z.to_nat r)) as [row Hrow]; [lia|].
  assert (length row = Z.to_nat w) as Hrl.
  { rewrite Forall_forall in Hrows. apply Hrows. eapply list_elem_of_lookup_2. exact Hrow. }
  assert (py_get g r = Ok row) as -> by (apply py_get_nonneg; [lia|done]).
  simpl. unfold py_set. rewrite !py_index_nonneg by lia. simpl.
  f_equal. apply list_eq. intros i.
  destruct (decide (i = Z.to_nat r)) as [->|Hne].
  - rewrite list_lookup_insert_eq by lia. rewrite list_lookup_alter_eq. by rewrite Hrow.
  - rewrite list_lookup_insert_ne by done. by rewrite list_lookup_alter_ne.
Qed.

(** Two rectangles of the same size with the same cells are equal. *)
Lemma grid_ext g1 g2 w h :
  grid_shape g1 w h -> grid_shape g2 w h ->
  (forall r c, 0 <= r < h -> 0 <= c < w -> cell g1 r c = cell g2 r c) -> g1 = g2.
Proof.
  intros [Hl1 Hr1] [Hl2 Hr2] Hcell. apply list_eq. intros i.
  destruct (decide (i < Z.to_nat h)%nat) as [Hi|Hi].
  - destruct (lookup_lt_is_Some_2 g1 i) as [row1 E1]; [lia|].
    destruct (lookup_lt_is_Some_2 g2 i) as [row2 E2]; [lia|].
    rewrite E1, E2. f_equal. apply list_eq. intros j.
    rewrite Forall_forall in Hr1, Hr2.
    assert (length row1 = Z.to_nat w) as L1.
    { apply Hr1. eapply list_elem_of_lookup_2. exact E1. }
    assert (length row2 = Z.to_nat w) as L2.
    { apply Hr2. eapply list_elem_of_lookup_2. exact E2. }
    destruct (decide (j < Z.to_nat w)%nat) as [Hj|Hj].
    + specialize (Hcell (Z.of_nat i) (Z.of_nat j)). unfold cell in Hcell.
      rewrite !decide_True in Hcell by lia. rewrite !Nat2Z.id in Hcell.
      rewrite E1, E2 in Hcell. apply Hcell; lia.
    + rewrite !lookup_ge_None_2 by lia. done.
  - rewrite !lookup_ge_None_2 by lia. done.
Qed.

Lemma blank_grid_shape w h : grid_shape (blank_grid w h) w h.
Proof.
  unfold blank_grid. split.
  - by rewrite length_fmap, length_seqZ.
  - apply Forall_forall. intros row Hin.
    apply list_elem_of_fmap in Hin as (r & -> & _).
    by rewrite length_fmap, length_seqZ.
Qed.

Lemma blank_grid_cell w h r c :
  0 <= r < h -> 0 <= c < w -> cell (blank_grid w h) r c = Some (lit ".").
Proof.
  intros Hr Hc. unfold cell, blank_grid. rewrite decide_True by lia.
  rewrite list_lookup_fmap. rewrite lookup_seqZ_lt by lia. simpl.
  rewrite list_lookup_fmap. rewrite lookup_seqZ_lt by lia. done.
Qed.

Lemma in_range_true r c h w : in_range r c h w = true <-> 0 <= r < h /\ 0 <= c < w.
Proof. unfold in_range. by rewrite bool_decide_eq_true. Qed.

Lemma in_range_false r c h w : in_range r c h w = false <-> ~ (0 <= r < h /\ 0 <= c < w).
Proof. unfold in_range. by rewrite bool_decide_eq_false. Qed.

(** ** Strings *)

Lemma lstrip_all_space s : Forall (fun c => is_space c = true) s -> lstrip s = [].
Proof.
  induction 1 as [|c s Hc _ IH]; simpl; [done|]. by rewrite Hc.
Qed.

Lemma strip_all_space s : Forall (fun c => is_space c = true) s -> strip s = [].
Proof. intros H. unfold strip. by rewrite lstrip_all_space. Qed.

(** The pieces of a split hold the characters that are not separators. *)
Lemma split_by_Forall (P : ascii -> bool) (Q : ascii -> Prop) s :
  Forall (fun c => P c = true \/ Q c) s -> Forall (Forall Q) (split_by P s).
Proof.
  induction 1 as [|c s Hc _ IH]; simpl.
  - repeat constructor.
  - destruct (P c) eqn:E.
    + constructor; [constructor | done].
    + destruct Hc as [Hc|Hc]; [congruence|].
      destruct (split_by P s) as [|x xs]; [repeat constructor; done|].
      apply Forall_cons in IH as [Hx Hxs]. constructor; [by constructor|done].
Qed.

(** ** The verifier on blank solutions *)

Lemma parse_moves_blank n idx frags :
  Forall (fun f => strip f = []) frags ->
  parse_moves n idx frags [] = ReturnIsWin \/ parse_moves n idx frags [] = Parsed [].
Proof.
  intros H. revert idx. induction H as [|f frags Hf _ IH]; intros idx; simpl.
  - by right.
  - rewrite Hf. simpl. destruct (bool_decide _ && _); [by left | apply IH].
Qed.

Lemma replay_nil g : replay g [] = Ok (is_win g).
Proof. done. Qed.

Lemma verify_blank level solution :
  Forall (fun c => c = ";"%char \/ is_space c = true) solution ->
  verify_kuboble_solution level solution = Ok (is_win (new_game level)).
Proof.
  intros H. unfold verify_kuboble_solution.
  destruct (negb (nonempty solution) || negb (nonempty (strip solution))); [done|].
  assert (Forall (fun f => strip f = []) (split_on ";" solution)) as Hfr.
  { unfold split_on.
    eapply Forall_impl; [apply (split_by_Forall _ (fun c => is_space c = true))|].
    - eapply Forall_impl; [exact H|]. intros c [->|Hc]; [left|by right].
      unfold is_char. by apply bool_decide_eq_true.
    - intros f Hf. by apply strip_all_space. }
  destruct (parse_moves_blank (length (split_on ";" solution)) 0 _ Hfr) as [-> | ->];
    [done|].
  by destruct (_ && _).
Qed.

Lemma is_win_no_pieces gr ts w h : is_win (mkGame gr [] ts w h) = false.
Proof. done. Qed.

(** C5. A solution made only of delimiters and whitespace (the empty
    solution included) verifies exactly when the parsed level is already
    won; a board without pieces is never won, so such a solution is
    rejected on a level without pieces, on the level ["A B ; b a"], and
    on a level whose pieces stand on each other's targets. *)
Theorem blank_solution_verifies_iff_won (level solution : str) :
  Forall (fun c => c = ";"%char \/ is_space c = true) solution ->
  verify_kuboble_solution level solution = Ok (is_win (new_game level))
  /\ (forall gr ts w h, is_win (mkGame gr [] ts w h) = false)
  /\ verify_kuboble_solution (lit ". .;. .") solution = Ok false
  /\ verify_kuboble_solution (lit "A B ; b a") solution = Ok false
  /\ verify_kuboble_solution (lit "Ab Ba") solution = Ok false.
Proof.
  intros H. split_and!.
  - by apply verify_blank.
  - apply is_win_no_pieces.
  - by rewrite verify_blank.
  - by rewrite verify_blank.
  - by rewrite verify_blank.
Qed.

Lemma blank_solution_verifies_iff_won_witness :
  Forall (fun c => c = ";"%char \/ is_space c = true) (lit " ;; ")
  /\ verify_kuboble_solution (lit "Aa") (lit " ;; ") = Ok (is_win (new_game (lit "Aa")))
  /\ is_win (new_game (lit "Aa")) = true.
Proof.
  assert (Forall (fun c => c = ";"%char \/ is_space c = true) (lit " ;; ")) as H.
  { repeat (apply Forall_cons_2; [first [by left | by right]|]). apply Forall_nil_2. }
  split_and!; [exact H | | by vm_compute].
  apply (blank_solution_verifies_iff_won (lit "Aa") (lit " ;; ") H).
Defined.

(** ** The generator's parameter checks *)

(** C7 (as amended). With [num_pieces <> 0], the generator raises
    [ValueError] at once when [num_pieces > 26] or when
    [2 * num_pieces + num_obstacles] exceeds [width * height]; the error
    is an exception, not the [None] of an exhausted search. *)
Theorem generate_config_error shuffle fuel (w h num_pieces num_obstacles : Z)
    (max_generation_attempts max_solver_depth : Z) (require_non_trivial_solution : bool) :
  num_pieces <> 0 ->
  num_pieces > 26 \/ 2 * num_pieces + num_obstacles > w * h ->
  generate_kuboble_level shuffle fuel w h num_pieces num_obstacles
    max_generation_attempts max_solver_depth require_non_trivial_solution
  = Raise ValueError
  /\ (Raise ValueError : outcome (option (str * str))) <> Ok None.
Proof.
  intros Hnz Hbad. split; [|done]. unfold generate_kuboble_level.
  rewrite decide_False by done.
  destruct (decide (num_pieces > 26)); [done|].
  rewrite decide_True by lia. done.
Qed.

Lemma generate_config_error_witness :
  1 <> 0 /\ (1 > 26 \/ 2 * 1 + 3 > 2 * 2)
  /\ generate_kuboble_level (fun _ l => l) 0 2 2 1 3 100 25 true = Raise ValueError.
Proof.
  split_and!; [lia | right; lia |].
  apply (generate_config_error (fun _ l => l) 0%nat 2 2 1 3 100 25 true); lia.
Defined.

(** With no pieces requested the parameters are not checked: five
    obstacles do not fit a 2 by 2 grid, and an empty level comes back. *)
Lemma generate_no_pieces_skips_checks :
  2 * 0 + 5 > 2 * 2
  /\ generate_kuboble_level (fun _ l => l) 0 2 2 0 5 100 25 true
     = Ok (Some (lit ". .;. .", [])).
Proof. split; [lia | by vm_compute]. Qed.

(** ** [apply_move] *)

Lemma apply_move_Ok s p old d :
  grid_shape (grid s) (width s) (height s) ->
  dict_get p (pieces s) = Some old -> in_grid s old -> in_grid s d ->
  apply_move s p d =
    Ok (mkGame (grid_put d.1 d.2 p (grid_put old.1 old.2 (lit ".") (grid s)))
               (dict_set p d (pieces s)) (targets s) (width s) (height s)).
Proof.
  intros Hsh Hp [Ho1 Ho2] [Hd1 Hd2]. unfold apply_move. rewrite Hp.
  destruct old as [old_r old_c], d as [new_r new_c]. simpl in *.
  rewrite (grid_set_put _ (width s) (height s)) by done. simpl.
  rewrite (grid_set_put _ (width s) (height s)); [done| |done|done].
  by apply grid_put_shape.
Qed.

Lemma apply_move_KeyError s p d :
  dict_get p (pieces s) = None -> apply_move s p d = Raise KeyError.
Proof. intros H. unfold apply_move. by rewrite H. Qed.

Lemma apply_move_fields s p d s' :
  apply_move s p d = Ok s' ->
  pieces s' = dict_set p d (pieces s) /\ targets s' = targets s
  /\ width s' = width s /\ height s' = height s.
Proof.
  unfold apply_move. destruct (dict_get p (pieces s)) as [[old_r old_c]|]; [|done].
  destruct d as [new_r new_c]. intros H. inv_bind H. inv_bind H. by simplify_eq.
Qed.

Lemma obstacles_ext s s' :
  width s' = width s -> height s' = height s ->
  (forall r c, is_obstacle s' (r, c) <-> is_obstacle s (r, c)) ->
  obstacles s' = obstacles s.
Proof.
  intros Hw Hh Hob. unfold obstacles. rewrite Hw, Hh.
  apply list_filter_iff. intros [r c]. apply Hob.
Qed.

(** C10. [apply_move] does not look at what its destination holds: on
    a rectangular grid with the piece inside it, every destination
    inside the grid is accepted and the piece is recorded there.  Moving
    onto an obstacle erases the obstacle, and moving onto another piece
    leaves two pieces on one cell, so the slide rules are kept only when
    the destination comes from [get_possible_moves]. *)
Theorem apply_move_unchecked (s : KubobleGame) (p : str) (old d : pos) :
  grid_shape (grid s) (width s) (height s) ->
  dict_get p (pieces s) = Some old -> in_grid s old -> in_grid s d ->
  (exists s', apply_move s p d = Ok s' /\ dict_get p (pieces s') = Some d)
  /\ (exists s1, apply_move (new_game (lit "A X")) (lit "A") (0, 1) = Ok s1
                 /\ is_obstacle (new_game (lit "A X")) (0, 1)
                 /\ dict_get (lit "A") (pieces s1) = Some (0, 1)
                 /\ obstacles s1 = [])
  /\ (exists s2, apply_move (new_game (lit "A B")) (lit "A") (0, 1) = Ok s2
                 /\ dict_get (lit "A") (pieces s2) = Some (0, 1)
                 /\ dict_get (lit "B") (pieces s2) = Some (0, 1))
  /\ (exists s3, apply_move (new_game (lit "A . X .")) (lit "A") (0, 3) = Ok s3
                 /\ get_possible_moves (new_game (lit "A . X ."))
                    = Ok [(lit "A", (0, 1), lit "right")]
                 /\ dict_get (lit "A") (pieces s3) = Some (0, 3)).
Proof.
  intros Hsh Hp Ho Hd. split_and!.
  - eexists. split; [by apply (apply_move_Ok s p old d)|]. simpl.
    apply dict_get_set_eq.
  - eexists. split_and!; [by vm_compute..].
  - eexists. split_and!; [by vm_compute..].
  - eexists. split_and!; [by vm_compute..].
Qed.

Lemma apply_move_unchecked_witness :
  exists s', apply_move (new_game (lit "A . ;X B")) (lit "A") (1, 0) = Ok s'
             /\ dict_get (lit "A") (pieces s') = Some (1, 0).
Proof.
  refine (proj1 (apply_move_unchecked (new_game (lit "A . ;X B")) (lit "A") (0, 0) (1, 0)
                   _ _ _ _)).
  - split; [by vm_compute|]. repeat constructor.
  - by vm_compute.
  - by vm_compute.
  - by vm_compute.
Defined.

(** ** Slides *)

Lemma blocked_by_other_true ps piece_char q :
  blocked_by_other ps piece_char q = true <->
  exists other, other <> piece_char /\ (other, q) ∈ ps.
Proof.
  unfold blocked_by_other. rewrite existsb_exists. split.
  - intros ([other op] & Hin & H). apply andb_true_iff in H as [H1 H2].
    apply bool_decide_eq_true in H1, H2. subst. exists other.
    split; [done|]. by apply list_elem_of_In.
  - intros (other & Hne & Hin). exists (other, q). split; [by apply list_elem_of_In|].
    apply andb_true_iff. split; by apply bool_decide_eq_true.
Qed.

Lemma blocked_occupied s piece_char q :
  NoDup (keys (pieces s)) ->
  blocked_by_other (pieces s) piece_char q = true <-> occupied_by_other s piece_char q.
Proof.
  intros Hnd. rewrite blocked_by_other_true. unfold occupied_by_other.
  split; intros (other & Hne & H); exists other; split; try done.
  - by apply elem_dict_get.
  - by apply dict_get_Some_elem.
Qed.

(** What one turn of the loop decides about the next cell. *)
Lemma next_cell_cases s piece_char q :
  NoDup (keys (pieces s)) ->
  (in_range q.1 q.2 (height s) (width s) = true
   /\ (exists x, grid_get (grid s) q.1 q.2 = Ok x /\ x <> lit "X")
   /\ blocked_by_other (pieces s) piece_char q = false) ->
  free_cell s piece_char q.
Proof.
  intros Hnd (Hin & (x & Hx & HX) & Hb). apply in_range_true in Hin.
  split_and!.
  - done.
  - unfold is_obstacle. apply grid_get_cell in Hx; [|lia..]. rewrite Hx. congruence.
  - intros Hocc. apply (blocked_occupied s) in Hocc; [|done]. by rewrite Hocc in Hb.
Qed.

(** The loop stops after [n] steps on the last free cell of the line. *)
Lemma slide_spec fuel s piece_char dr dc r c land :
  NoDup (keys (pieces s)) ->
  slide fuel s piece_char dr dc r c = Ok land ->
  exists n : nat,
    land = (r + Z.of_nat n * dr, c + Z.of_nat n * dc)
    /\ (forall k : nat, (1 <= k <= n)%nat ->
          free_cell s piece_char (r + Z.of_nat k * dr, c + Z.of_nat k * dc))
    /\ obstructed s piece_char (land.1 + dr, land.2 + dc).
Proof.
  intros Hnd. revert r c. induction fuel as [|fuel IH]; intros r c; simpl; [done|].
  destruct (in_range (r + dr) (c + dc) (height s) (width s)) eqn:Hin; simpl.
  - intros H. inv_bind H. apply in_range_true in Hin as Hin'.
    revert H. destruct (decide (a = lit "X")) as [->|HX]; intros H.
    + injection H as <-. exists O. split_and!.
      * f_equal; lia.
      * intros k Hk. lia.
      * right; left. unfold is_obstacle. simpl. apply grid_get_cell; [lia..|done].
    + revert H.
      destruct (blocked_by_other (pieces s) piece_char (r + dr, c + dc)) eqn:Hb; intros H.
      * injection H as <-. exists O. split_and!.
        -- f_equal; lia.
        -- intros k Hk. lia.
        -- right; right. by apply blocked_occupied.
      * apply IH in H as (n & -> & Hfree & Hobs). exists (S n). split_and!.
        -- f_equal; lia.
        -- intros k Hk. destruct (decide (k = 1%nat)) as [->|Hk1].
           ++ replace (r + Z.of_nat 1 * dr) with (r + dr) by lia.
              replace (c + Z.of_nat 1 * dc) with (c + dc) by lia.
              apply (next_cell_cases s piece_char (r + dr, c + dc)); [done|].
              split_and!; [done| |done]. by exists a.
           ++ specialize (Hfree (k - 1)%nat ltac:(lia)).
              replace (r + Z.of_nat k * dr) with (r + dr + Z.of_nat (k - 1) * dr) by lia.
              replace (c + Z.of_nat k * dc) with (c + dc + Z.of_nat (k - 1) * dc) by lia.
              done.
        -- done.
  - intros [= <-]. exists O. split_and!.
    + f_equal; lia.
    + intros k Hk. lia.
    + left. apply in_range_false in Hin. done.
Qed.

Lemma collect_elem {A B} (f : A -> outcome (list B)) l ys y :
  collect f l = Ok ys -> y ∈ ys -> exists a xs, a ∈ l /\ f a = Ok xs /\ y ∈ xs.
Proof.
  revert ys. induction l as [|x l IH]; intros ys; simpl.
  - intros [= <-] Hy. by apply elem_of_nil in Hy.
  - intros H Hy. inv_bind H. inv_bind H. injection H as <-.
    apply elem_of_app in Hy as [Hy|Hy].
    + exists x, a. split_and!; [apply elem_of_cons; by left|done|done].
    + destruct (IH _ Ha0 Hy) as (a' & xs & Hin & Hf & Hy').
      exists a', xs. split_and!; [apply elem_of_cons; by right|done|done].
Qed.

Lemma moves_in_direction_spec s piece_char r c dr dc name ms p land name' :
  NoDup (keys (pieces s)) ->
  moves_in_direction s piece_char r c (dr, dc, name) = Ok ms ->
  (p, land, name') ∈ ms ->
  p = piece_char /\ name' = name /\ land <> (r, c)
  /\ exists n : nat,
       land = (r + Z.of_nat n * dr, c + Z.of_nat n * dc)
       /\ (forall k : nat, (1 <= k <= n)%nat ->
             free_cell s piece_char (r + Z.of_nat k * dr, c + Z.of_nat k * dc))
       /\ obstructed s piece_char (land.1 + dr, land.2 + dc).
Proof.
  intros Hnd. unfold moves_in_direction.
  destruct (negb _); [intros [= <-] H; by apply elem_of_nil in H|].
  intros H. inv_bind H. revert H. destruct (decide (a = lit "X"));
    [intros [= <-] H; by apply elem_of_nil in H|].
  destruct (blocked_by_other _ _ _);
    [intros [= <-] H; by apply elem_of_nil in H|].
  intros H. inv_bind H. revert H. destruct (decide (a0 <> (r, c))) as [Hne|Heq];
    [|intros [= <-] H; by apply elem_of_nil in H].
  intros [= <-] Hin. apply list_elem_of_singleton in Hin.
  injection Hin as -> -> ->. split_and!; [done..|].
  by eapply slide_spec.
Qed.

(** An emitted triple is a maximal slide of its piece. *)
Lemma emitted_move_is_maximal_slide (s : KubobleGame) (ms : list move)
    (p : str) (land : pos) (name : str) :
  NoDup (keys (pieces s)) ->
  get_possible_moves s = Ok ms ->
  (p, land, name) ∈ ms ->
  exists (start : pos) (dr dc : Z) (n : nat),
    dict_get p (pieces s) = Some start
    /\ (dr, dc, name) ∈ directions
    /\ (1 <= n)%nat
    /\ land = (start.1 + Z.of_nat n * dr, start.2 + Z.of_nat n * dc)
    /\ land <> start
    /\ (forall k : nat, (1 <= k <= n)%nat ->
          free_cell s p (start.1 + Z.of_nat k * dr, start.2 + Z.of_nat k * dc))
    /\ obstructed s p (land.1 + dr, land.2 + dc).
Proof.
  intros Hnd Hms Hin. unfold get_possible_moves in Hms.
  destruct (collect_elem _ _ _ _ Hms Hin) as ([piece_char [r c]] & xs & Hp & Hxs & Hin').
  destruct (collect_elem _ _ _ _ Hxs Hin') as ([[dr dc] nm] & ys & Hd & Hys & Hin'').
  destruct (moves_in_direction_spec _ _ _ _ _ _ _ _ _ _ _ Hnd Hys Hin'')
    as (-> & -> & Hne & n & Hland & Hfree & Hobs).
  exists (r, c), dr, dc, n. simpl. split_and!; try done.
  - by apply elem_dict_get.
  - destruct n; [|lia]. exfalso. apply Hne. rewrite Hland. f_equal; lia.
Qed.

(** C2. Every triple of [get_possible_moves] is a maximal slide: the
    landing cell lies [n >= 1] steps from the piece's cell in one of the
    four directions and differs from it, each of the [n] cells from the
    neighbour up to the landing cell is inside the grid, is no obstacle
    and holds no other piece, and the cell after the landing cell is
    outside the grid, an obstacle, or held by another piece. *)
Theorem possible_moves_are_maximal_slides (s : KubobleGame) (ms : list move)
    (p : str) (land : pos) (name : str) :
  NoDup (keys (pieces s)) ->
  get_possible_moves s = Ok ms ->
  (p, land, name) ∈ ms ->
  exists (start : pos) (dr dc : Z) (n : nat),
    dict_get p (pieces s) = Some start
    /\ (dr, dc, name) ∈ directions
    /\ (1 <= n)%nat
    /\ land = (start.1 + Z.of_nat n * dr, start.2 + Z.of_nat n * dc)
    /\ land <> start
    /\ (forall k : nat, (1 <= k <= n)%nat ->
          free_cell s p (start.1 + Z.of_nat k * dr, start.2 + Z.of_nat k * dc))
    /\ obstructed s p (land.1 + dr, land.2 + dc).
Proof. apply emitted_move_is_maximal_slide. Qed.

Lemma possible_moves_are_maximal_slides_witness :
  exists (start : pos) (dr dc : Z) (n : nat),
    dict_get (lit "A") (pieces (new_game (lit "A . .;. X b"))) = Some start
    /\ (dr, dc, lit "right") ∈ directions
    /\ (1 <= n)%nat
    /\ (0, 2) = (start.1 + Z.of_nat n * dr, start.2 + Z.of_nat n * dc)
    /\ (0, 2) <> start
    /\ (forall k : nat, (1 <= k <= n)%nat ->
          free_cell (new_game (lit "A . .;. X b")) (lit "A")
            (start.1 + Z.of_nat k * dr, start.2 + Z.of_nat k * dc))
    /\ obstructed (new_game (lit "A . .;. X b")) (lit "A") ((0, 2).1 + dr, (0, 2).2 + dc).
Proof.
  apply (possible_moves_are_maximal_slides (new_game (lit "A . .;. X b"))
           [(lit "A", (1, 0), lit "down"); (lit "A", (0, 2), lit "right")]).
  - apply (bool_decide_unpack _). by vm_compute.
  - by vm_compute.
  - apply elem_of_cons. right. apply elem_of_cons. by left.
Defined.

(** ** The slide loop terminates *)

Lemma directions_cases dr dc name :
  (dr, dc, name) ∈ directions ->
  (dr = -1 /\ dc = 0) \/ (dr = 1 /\ dc = 0) \/ (dr = 0 /\ dc = -1) \/ (dr = 0 /\ dc = 1).
Proof.
  unfold directions. rewrite !elem_of_cons, elem_of_nil. naive_solver.
Qed.

Lemma grid_get_Ok s r c :
  grid_shape (grid s) (width s) (height s) ->
  in_range r c (height s) (width s) = true ->
  exists x, grid_get (grid s) r c = Ok x.
Proof.
  intros Hsh Hin. apply in_range_true in Hin as [Hr Hc].
  destruct (cell_is_Some _ _ _ r c Hsh Hr Hc) as [x Hx].
  exists x. apply grid_get_cell; [lia..|done].
Qed.

Lemma slide_total fuel s piece_char dr dc name r c :
  grid_shape (grid s) (width s) (height s) ->
  (dr, dc, name) ∈ directions ->
  room dr dc r c (height s) (width s) <= Z.of_nat fuel ->
  exists land, slide (S fuel) s piece_char dr dc r c = Ok land.
Proof.
  intros Hsh Hd. apply directions_cases in Hd.
  revert r c. induction fuel as [|fuel IH]; intros r c Hroom.
  - simpl. destruct (in_range _ _ _ _) eqn:Hin; simpl; [|by eauto].
    destruct (grid_get_Ok s _ _ Hsh Hin) as [x ->]. simpl.
    case_decide; [by eauto|]. destruct (blocked_by_other _ _ _); [by eauto|].
    exfalso. apply in_range_true in Hin. unfold room in Hroom.
    repeat case_decide; lia.
  - cbn [slide]. destruct (in_range _ _ _ _) eqn:Hin; simpl; [|by eauto].
    destruct (grid_get_Ok s _ _ Hsh Hin) as [x ->]. simpl.
    case_decide; [by eauto|]. destruct (blocked_by_other _ _ _); [by eauto|].
    apply IH. unfold room in *. repeat case_decide; lia.
Qed.

Lemma collect_Ok {A B} (f : A -> outcome (list B)) l :
  (forall a, a ∈ l -> exists xs, f a = Ok xs) -> exists ys, collect f l = Ok ys.
Proof.
  induction l as [|x l IH]; intros H; simpl; [by eauto|].
  destruct (H x) as [xs ->]; [apply elem_of_cons; by left|].
  destruct IH as [ys ->]; [intros a Ha; apply H; apply elem_of_cons; by right|].
  simpl. by eauto.
Qed.

Lemma moves_in_direction_Ok s piece_char r c dr dc name :
  grid_shape (grid s) (width s) (height s) ->
  (dr, dc, name) ∈ directions ->
  exists ms, moves_in_direction s piece_char r c (dr, dc, name) = Ok ms.
Proof.
  intros Hsh Hd. unfold moves_in_direction.
  destruct (in_range _ _ _ _) eqn:Hin; simpl; [|by eauto].
  destruct (grid_get_Ok s _ _ Hsh Hin) as [x ->]. simpl.
  case_decide; [by eauto|]. destruct (blocked_by_other _ _ _); [by eauto|].
  apply in_range_true in Hin.
  assert (exists f, slide_fuel s = S f /\
            room dr dc r c (height s) (width s) <= Z.of_nat f) as (f & -> & Hf).
  { exists (Z.to_nat (height s + width s - 1)). unfold slide_fuel, room.
    apply directions_cases in Hd. split; [lia|]. repeat case_decide; lia. }
  destruct (slide_total f s piece_char dr dc name r c Hsh Hd Hf) as [land ->].
  simpl. case_decide; by eauto.
Qed.

(** [get_possible_moves] cannot raise on a rectangular grid. *)
Lemma get_possible_moves_Ok s :
  grid_shape (grid s) (width s) (height s) -> exists ms, get_possible_moves s = Ok ms.
Proof.
  intros Hsh. unfold get_possible_moves. apply collect_Ok.
  intros [piece_char [r c]] _. apply collect_Ok. intros [[dr dc] name] Hd.
  by apply moves_in_direction_Ok.
Qed.

(** ** Legal moves keep the board invariants *)

Lemma wf_distinct s p q x :
  wf_game s -> dict_get p (pieces s) = Some x -> dict_get q (pieces s) = Some x -> p = q.
Proof.
  intros Hwf Hp Hq. destruct x as [r c].
  destruct (wf_piece s Hwf p r c Hp) as (_ & Hcp & _).
  destruct (wf_piece s Hwf q r c Hq) as (_ & Hcq & _). congruence.
Qed.

(** A move to a free cell that is not the piece's own keeps the board
    well formed and its obstacles in place. *)
Lemma move_to_free_cell s p old d :
  wf_game s -> dict_get p (pieces s) = Some old -> free_cell s p d -> d <> old ->
  exists s', apply_move s p d = Ok s' /\ wf_game s'
    /\ pieces s' = dict_set p d (pieces s) /\ targets s' = targets s
    /\ width s' = width s /\ height s' = height s
    /\ keys (pieces s') = keys (pieces s)
    /\ (forall r c, is_obstacle s' (r, c) <-> is_obstacle s (r, c)).
Proof.
  intros Hwf Hp (Hd & HdX & Hdocc) Hne.
  destruct old as [old_r old_c], d as [new_r new_c].
  destruct (wf_piece s Hwf p _ _ Hp) as (Ho & Hcell_old & HpX).
  pose proof (wf_shape s Hwf) as Hsh.
  eexists. split; [by apply (apply_move_Ok s p (old_r, old_c) (new_r, new_c))|].
  simpl. set (g1 := grid_put old_r old_c (lit ".") (grid s)).
  set (g2 := grid_put new_r new_c p g1).
  assert (grid_shape g1 (width s) (height s)) as Hsh1 by by apply grid_put_shape.
  assert (forall r c, (r, c) <> (new_r, new_c) -> (r, c) <> (old_r, old_c) ->
            cell g2 r c = cell (grid s) r c) as Hother.
  { intros r c H1 H2. unfold g2, g1.
    rewrite cell_grid_put_ne; [|by destruct Hd; simpl in *; lia..|done].
    rewrite cell_grid_put_ne; [done|by destruct Ho; simpl in *; lia..|done]. }
  assert (cell g2 new_r new_c = Some p) as Hnew.
  { unfold g2. apply cell_grid_put_eq.
    destruct Hd; by apply (cell_is_Some _ (width s) (height s)). }
  assert (cell g2 old_r old_c = Some (lit ".")) as Hold.
  { unfold g2. rewrite cell_grid_put_ne; [|by destruct Hd; simpl in *; lia..|done].
    unfold g1. apply cell_grid_put_eq. by rewrite Hcell_old. }
  assert (keys (dict_set p (new_r, new_c) (pieces s)) = keys (pieces s)) as Hkeys.
  { apply keys_dict_set_in. apply dict_get_is_Some. by rewrite Hp. }
  split_and!; try done.
  - constructor; simpl.
    + by apply grid_put_shape.
    + rewrite Hkeys. apply (wf_keys s Hwf).
    + intros q r c Hq. destruct (decide (q = p)) as [->|Hqp].
      * rewrite dict_get_set_eq in Hq. injection Hq as <- <-. done.
      * rewrite dict_get_set_ne in Hq by done.
        destruct (wf_piece s Hwf q _ _ Hq) as (Hin & Hc & HqX).
        split_and!; [done| |done]. rewrite Hother; [done| |].
        -- intros [= -> ->]. apply Hdocc. by exists q.
        -- intros [= -> ->]. apply Hqp. by eapply wf_distinct.
    + intros r c x Hx. destruct (decide ((r, c) = (new_r, new_c))) as [[= -> ->]|H1].
      { rewrite Hnew in Hx. injection Hx as <-. right; right. apply dict_get_set_eq. }
      destruct (decide ((r, c) = (old_r, old_c))) as [[= -> ->]|H2].
      { rewrite Hold in Hx. injection Hx as <-. right; by left. }
      rewrite Hother in Hx by done.
      destruct (wf_cell s Hwf r c x Hx) as [->| [->|Hxp]]; [by left|right; by left|].
      right; right. rewrite dict_get_set_ne; [done|].
      intros ->. apply H2. congruence.
  - intros r c. unfold is_obstacle. simpl.
    destruct (decide ((r, c) = (new_r, new_c))) as [[= -> ->]|H1].
    { rewrite Hnew. split; [intros [= ->]; done|]. intros H. by apply HdX in H. }
    destruct (decide ((r, c) = (old_r, old_c))) as [[= -> ->]|H2].
    { rewrite Hold, Hcell_old. split; [intros [= H]; done | intros [= ->]; done]. }
    by rewrite Hother.
Qed.

(** A triple of [get_possible_moves] lands on a free cell. *)
Lemma legal_move_free s ms p d name :
  wf_game s -> get_possible_moves s = Ok ms -> (p, d, name) ∈ ms ->
  exists old, dict_get p (pieces s) = Some old /\ free_cell s p d /\ d <> old.
Proof.
  intros Hwf Hms Hin.
  destruct (emitted_move_is_maximal_slide s ms p d name (wf_keys s Hwf) Hms Hin)
    as (start & dr & dc & n & Hp & _ & Hn & Hland & Hne & Hfree & _).
  exists start. split_and!; [done| |done]. rewrite Hland. apply Hfree. lia.
Qed.

Lemma legal_step_wf s s' :
  wf_game s -> legal_step s s' ->
  wf_game s' /\ targets s' = targets s /\ width s' = width s /\ height s' = height s
  /\ keys (pieces s') = keys (pieces s)
  /\ (forall r c, is_obstacle s' (r, c) <-> is_obstacle s (r, c)).
Proof.
  intros Hwf (ms & p & d & name & Hms & Hin & Happ).
  destruct (legal_move_free s ms p d name Hwf Hms Hin) as (old & Hp & Hfree & Hne).
  destruct (move_to_free_cell s p old d Hwf Hp Hfree Hne)
    as (s'' & Happ' & Hwf' & _ & Ht & Hw & Hh & Hk & Hob).
  rewrite Happ in Happ'. injection Happ' as <-. done.
Qed.

Lemma reachable_wf s0 s :
  wf_game s0 -> reachable s0 s ->
  wf_game s /\ targets s = targets s0 /\ width s = width s0 /\ height s = height s0
  /\ keys (pieces s) = keys (pieces s0)
  /\ (forall r c, is_obstacle s (r, c) <-> is_obstacle s0 (r, c)).
Proof.
  intros Hwf0. induction 1 as [|s s' Hr IH Hstep]; [done|].
  destruct IH as (Hwf & Ht & Hw & Hh & Hk & Hob).
  destruct (legal_step_wf s s' Hwf Hstep) as (Hwf' & Ht' & Hw' & Hh' & Hk' & Hob').
  split_and!; try congruence. intros r c. by rewrite Hob', Hob.
Qed.

(** ** The parser builds a well-formed board *)

Lemma max_width_fold rows m :
  m <= fold_left (fun current_max_width (toks : list str) =>
               if decide (Z.of_nat (length toks) > current_max_width)
               then Z.of_nat (length toks) else current_max_width) rows m
  /\ Forall (fun toks : list str => Z.of_nat (length toks) <=
       fold_left (fun current_max_width (toks : list str) =>
               if decide (Z.of_nat (length toks) > current_max_width)
               then Z.of_nat (length toks) else current_max_width) rows m) rows.
Proof.
  revert m. induction rows as [|toks rows IH]; intros m; simpl.
  - split; [lia|constructor].
  - destruct (IH (if decide (Z.of_nat (length toks) > m)
                  then Z.of_nat (length toks) else m)) as [H1 H2].
    split; [case_decide; lia|]. constructor; [case_decide; lia|done].
Qed.

Lemma max_width_nonneg prt : 0 <= max_width prt.
Proof. apply max_width_fold. Qed.

Lemma max_width_bound prt toks : toks ∈ prt -> Z.of_nat (length toks) <= max_width prt.
Proof.
  intros Hin. pose proof (proj2 (max_width_fold prt 0)) as H.
  rewrite Forall_forall in H. by apply H.
Qed.

Lemma tok_at_in_range prt r c tok :
  0 <= r -> 0 <= c -> tok_at prt r c = Some tok ->
  r < Z.of_nat (length prt) /\ c < max_width prt.
Proof.
  intros Hr Hc. unfold tok_at.
  destruct (prt !! Z.to_nat r) as [toks|] eqn:E; [|done]. intros Htok.
  apply lookup_lt_Some in E as Hlt. apply lookup_lt_Some in Htok.
  pose proof (max_width_bound prt toks (list_elem_of_lookup_2 _ _ _ E)). lia.
Qed.

Lemma entries_from_set sel prt d k r c tok :
  entries_from sel prt d -> 0 <= r -> 0 <= c ->
  tok_at prt r c = Some tok -> sel tok = Some k ->
  entries_from sel prt (dict_set k (r, c) d).
Proof.
  intros [Hnd Hd] Hr Hc Htok Hsel. split; [by apply NoDup_keys_set|].
  intros k' r' c' Hget. destruct (decide (k = k')) as [->|Hne].
  - rewrite dict_get_set_eq in Hget. injection Hget as <- <-. by eauto.
  - rewrite dict_get_set_ne in Hget by done. by apply Hd.
Qed.

Lemma scan_row_entries prt w r c toks pt :
  0 <= r ->
  (forall i tok, toks !! i = Some tok -> tok_at prt r (Z.of_nat (c + i)) = Some tok) ->
  entries_from token_piece prt pt.1 -> entries_from token_target prt pt.2 ->
  entries_from token_piece prt (scan_row w r c toks pt).1
  /\ entries_from token_target prt (scan_row w r c toks pt).2.
Proof.
  intros Hr. revert c pt. induction toks as [|tok toks IH]; intros c pt Htoks Hp Ht;
    simpl; [done|].
  case_decide; [done|].
  assert (tok_at prt r (Z.of_nat c) = Some tok) as Htok.
  { rewrite <- (Nat.add_0_r c). by apply Htoks. }
  destruct (scan_token tok) as [pc tc] eqn:E.
  apply IH.
  - intros i tok' Hi. replace (S c + i)%nat with (c + S i)%nat by lia. by apply Htoks.
  - simpl. destruct pc as [ch|]; [|done].
    apply (entries_from_set _ _ _ _ _ _ tok); [done|done|lia|done|].
    unfold token_piece. by rewrite E.
  - simpl. destruct tc as [ch|]; [|done].
    apply (entries_from_set _ _ _ _ _ _ tok); [done|done|lia|done|].
    unfold token_target. by rewrite E.
Qed.

Lemma scan_rows_entries prt w r rows pt :
  (forall i toks, rows !! i = Some toks -> prt !! (r + i)%nat = Some toks) ->
  entries_from token_piece prt pt.1 -> entries_from token_target prt pt.2 ->
  entries_from token_piece prt (scan_rows w r rows pt).1
  /\ entries_from token_target prt (scan_rows w r rows pt).2.
Proof.
  revert r pt. induction rows as [|toks rows IH]; intros r pt Hrows Hp Ht; simpl; [done|].
  assert (prt !! r = Some toks) as Hrow.
  { rewrite <- (Nat.add_0_r r). by apply Hrows. }
  destruct (scan_row_entries prt w (Z.of_nat r) 0 toks pt) as [Hp' Ht'];
    [lia| |done|done|].
  { intros i tok Hi. unfold tok_at. rewrite Nat2Z.id, Hrow. simpl.
    by rewrite Nat2Z.id. }
  apply IH; [|done|done].
  intros i toks' Hi. replace (S r + i)%nat with (r + S i)%nat by lia. by apply Hrows.
Qed.

Lemma entries_from_nil sel prt : entries_from sel prt [].
Proof. split; [constructor|done]. Qed.

Lemma scan_all_entries prt :
  entries_from token_piece prt (scan_rows (max_width prt) 0 prt ([], [])).1
  /\ entries_from token_target prt (scan_rows (max_width prt) 0 prt ([], [])).2.
Proof.
  apply scan_rows_entries; [done|apply entries_from_nil..].
Qed.

(** Two entries on one cell carry the same name. *)
Lemma entries_from_inj sel prt d k1 k2 x :
  entries_from sel prt d -> dict_get k1 d = Some x -> dict_get k2 d = Some x -> k1 = k2.
Proof.
  intros [_ Hd] H1 H2. destruct x as [r c].
  destruct (Hd _ _ _ H1) as (_ & _ & tok1 & Ht1 & Hs1).
  destruct (Hd _ _ _ H2) as (_ & _ & tok2 & Ht2 & Hs2). congruence.
Qed.

(** *** Loops that write cells *)

(** A loop whose turns each rewrite at most their own cell. *)
Lemma fold_put_other {A} (f : grid_t -> A -> grid_t) (at_ : A -> pos) (l : list A) g r c :
  (forall g a, f g a = g \/ exists v, 0 <= (at_ a).1 /\ 0 <= (at_ a).2 /\
                            f g a = grid_put (at_ a).1 (at_ a).2 v g) ->
  (forall a, a ∈ l -> at_ a <> (r, c)) ->
  cell (fold_left f l g) r c = cell g r c.
Proof.
  intros Hf. revert g. induction l as [|a l IH]; intros g Hl; simpl; [done|].
  rewrite IH by (intros a' Ha'; apply Hl; apply elem_of_cons; by right).
  destruct (Hf g a) as [->|(v & H1 & H2 & ->)]; [done|].
  apply cell_grid_put_ne; [done..|].
  specialize (Hl a ltac:(apply elem_of_cons; by left)).
  destruct (at_ a); simpl in *. done.
Qed.

Lemma fold_put_shape {A} (f : grid_t -> A -> grid_t) (l : list A) g w h :
  (forall g a, f g a = g \/ exists r c v, f g a = grid_put r c v g) ->
  grid_shape g w h -> grid_shape (fold_left f l g) w h.
Proof.
  intros Hf. revert g. induction l as [|a l IH]; intros g Hg; simpl; [done|].
  apply IH. destruct (Hf g a) as [->|(r & c & v & ->)]; [done|]. by apply grid_put_shape.
Qed.

Lemma cell_grid_put_None g r c v r' c' :
  cell g r' c' = None -> cell (grid_put r c v g) r' c' = None.
Proof.
  unfold cell, grid_put. case_decide; [|done].
  destruct (decide (Z.to_nat r = Z.to_nat r')) as [Heq|Hne].
  - rewrite <- Heq, list_lookup_alter_eq.
    destruct (g !! Z.to_nat r) as [row|]; simpl; [|done].
    intros Hx. apply lookup_ge_None in Hx. apply lookup_ge_None.
    by rewrite length_insert.
  - by rewrite list_lookup_alter_ne.
Qed.

Section WriteLoops.
Context {A : Type} (f : grid_t -> A -> grid_t).
Context (at_ : A -> pos) (cond : A -> bool) (val : A -> str).
Context (dom : A -> Prop).
Hypothesis Hf : forall g a,
  f g a = if cond a then grid_put (at_ a).1 (at_ a).2 (val a) g else g.
Hypothesis Hnonneg : forall a, dom a -> cond a = true -> 0 <= (at_ a).1 /\ 0 <= (at_ a).2.

Lemma write_loop_shape l g w h :
  grid_shape g w h -> grid_shape (fold_left f l g) w h.
Proof.
  revert g. induction l as [|a l IH]; intros g Hg; simpl; [done|].
  apply IH. rewrite Hf. destruct (cond a); [by apply grid_put_shape|done].
Qed.

(** A cell no writing turn aims at is left alone. *)
Lemma write_loop_miss l g r c :
  Forall dom l ->
  (forall a, a ∈ l -> at_ a = (r, c) -> cond a = false) ->
  cell (fold_left f l g) r c = cell g r c.
Proof.
  revert g. induction l as [|a l IH]; intros g Hdom Hl; simpl; [done|].
  apply Forall_cons in Hdom as [Ha Hdom].
  rewrite IH; [|done|intros a' Ha'; apply Hl; apply elem_of_cons; by right].
  rewrite Hf. destruct (cond a) eqn:Hc; [|done].
  apply cell_grid_put_ne; [by apply Hnonneg..|].
  intros Heq. specialize (Hl a ltac:(apply elem_of_cons; by left)).
  destruct (at_ a) as [r0 c0]; simpl in *. rewrite Hl in Hc; done.
Qed.

(** When every cell is aimed at once, a writing turn decides its cell. *)
Lemma write_loop_hit l g a r c :
  Forall dom l ->
  NoDup (at_ <$> l) -> a ∈ l -> at_ a = (r, c) -> cond a = true ->
  is_Some (cell g r c) ->
  cell (fold_left f l g) r c = Some (val a).
Proof.
  revert g. induction l as [|x l IH]; intros g Hdom Hnd Hin Hat Hc Hsome; simpl.
  - by apply elem_of_nil in Hin.
  - rewrite fmap_cons in Hnd. apply NoDup_cons in Hnd as [Hx Hnd].
    apply Forall_cons in Hdom as [Hdx Hdom].
    apply elem_of_cons in Hin as [<-|Hin].
    + rewrite write_loop_miss; [|done|].
      * rewrite Hf, Hc, Hat. simpl. by apply cell_grid_put_eq.
      * intros a' Ha' Hat'. exfalso. apply Hx. rewrite Hat, <- Hat'.
        by apply list_elem_of_fmap_2.
    + apply IH; try done. rewrite Hf. destruct (cond x) eqn:Hcx; [|done].
      rewrite cell_grid_put_ne; [done|by apply Hnonneg..|].
      intros Heq. apply Hx. replace (at_ x) with (at_ a).
      * by apply list_elem_of_fmap_2.
      * rewrite Hat. destruct (at_ x); simpl in *. done.
Qed.
End WriteLoops.

Lemma elem_of_coords_of w h r c :
  (r, c) ∈ coords_of w h <-> 0 <= r < h /\ 0 <= c < w.
Proof.
  unfold coords_of. rewrite list_elem_of_bind. split.
  - intros (r' & Hc & Hr). apply list_elem_of_fmap in Hc as (c' & [= -> ->] & Hc).
    apply elem_of_seqZ in Hr, Hc. lia.
  - intros [Hr Hc]. exists r. split.
    + apply list_elem_of_fmap. exists c. split; [done|]. apply elem_of_seqZ. lia.
    + apply elem_of_seqZ. lia.
Qed.

Lemma coords_of_nonneg w h : Forall (fun p : pos => 0 <= p.1 /\ 0 <= p.2) (coords_of w h).
Proof.
  apply Forall_forall. intros [r c] H. apply elem_of_coords_of in H. simpl. lia.
Qed.

Lemma NoDup_coords_of w h : NoDup (coords_of w h).
Proof.
  unfold coords_of. apply NoDup_bind.
  - intros r1 r2 [r c] _ _ H1 H2.
    apply list_elem_of_fmap in H1 as (c1 & [= -> ->] & _).
    apply list_elem_of_fmap in H2 as (c2 & [= -> ->] & _). done.
  - intros r _. apply NoDup_fmap_2; [|apply NoDup_seqZ]. intros c1 c2 [= ->]. done.
  - apply NoDup_seqZ.
Qed.

(** The two nested [range] loops visit the cells in row-major order. *)
Lemma nested_fold {G} (F : G -> pos -> G) (rs cs : list Z) (g : G) :
  fold_left (fun g r => fold_left (fun g c => F g (r, c)) cs g) rs g
  = fold_left F (r ← rs; (fun c => (r, c)) <$> cs) g.
Proof.
  revert g. induction rs as [|r rs IH]; intros g; [done|].
  rewrite bind_cons, fold_left_app. simpl. rewrite IH. f_equal.
  generalize g. clear. induction cs as [|c cs IH]; intros g; simpl; [done|]. apply IH.
Qed.

Lemma mark_obstacles_flat prt w h g :
  mark_obstacles prt w h g
  = fold_left (fun g (p : pos) =>
                 match tok_at prt p.1 p.2 with
                 | Some t => if decide (t = lit "X") then grid_put p.1 p.2 (lit "X") g else g
                 | None => g
                 end) (coords_of w h) g.
Proof. unfold mark_obstacles, coords_of. by rewrite <- nested_fold. Qed.

Lemma mark_obstacles_step prt g (p : pos) :
  match tok_at prt p.1 p.2 with
  | Some t => if decide (t = lit "X") then grid_put p.1 p.2 (lit "X") g else g
  | None => g
  end
  = if bool_decide (tok_at prt p.1 p.2 = Some (lit "X"))
    then grid_put (id p).1 (id p).2 (lit "X") g else g.
Proof.
  destruct (tok_at prt p.1 p.2) as [t|]; [|done].
  case_decide; subst.
  - by rewrite bool_decide_eq_true_2.
  - rewrite bool_decide_eq_false_2; [done|]. congruence.
Qed.

Lemma mark_obstacles_shape prt w h g w' h' :
  grid_shape g w' h' -> grid_shape (mark_obstacles prt w h g) w' h'.
Proof.
  rewrite mark_obstacles_flat.
  apply write_loop_shape with (at_ := id) (val := fun _ => lit "X")
    (cond := fun p : pos => bool_decide (tok_at prt p.1 p.2 = Some (lit "X"))).
  intros. apply mark_obstacles_step.
Qed.

(** After the loop a cell shows ["X"] exactly when its token is ["X"]. *)
Lemma mark_obstacles_cell prt w h r c :
  0 <= r < h -> 0 <= c < w ->
  cell (mark_obstacles prt w h (blank_grid w h)) r c
  = Some (if bool_decide (tok_at prt r c = Some (lit "X")) then lit "X" else lit ".").
Proof.
  intros Hr Hc. rewrite mark_obstacles_flat.
  destruct (bool_decide (tok_at prt r c = Some (lit "X"))) eqn:E.
  - apply (write_loop_hit _ id (fun p => bool_decide (tok_at prt p.1 p.2 = Some (lit "X")))
             (fun _ => lit "X") (fun p => 0 <= p.1 /\ 0 <= p.2)) with (a := (r, c));
      try done.
    + intros. apply mark_obstacles_step.
    + apply coords_of_nonneg.
    + rewrite list_fmap_id. apply NoDup_coords_of.
    + by apply elem_of_coords_of.
    + rewrite blank_grid_cell by done. by eauto.
  - rewrite <- (blank_grid_cell w h r c) by done.
    apply (write_loop_miss _ id (fun p => bool_decide (tok_at prt p.1 p.2 = Some (lit "X")))
             (fun _ => lit "X") (fun p => 0 <= p.1 /\ 0 <= p.2)).
    + intros. apply mark_obstacles_step.
    + done.
    + apply coords_of_nonneg.
    + intros [r' c'] _ [= -> ->]. done.
Qed.

Lemma NoDup_snd_of_inj {K V} (l : list (K * V)) :
  NoDup (l.*1) ->
  (forall k1 k2 v, (k1, v) ∈ l -> (k2, v) ∈ l -> k1 = k2) ->
  NoDup (l.*2).
Proof.
  induction l as [|[k v] l IH]; simpl; intros Hnd Hinj; [constructor|].
  apply NoDup_cons in Hnd as [Hk Hnd]. apply NoDup_cons. split.
  - intros Hv. apply list_elem_of_fmap in Hv as ([k' v'] & Heq & Hin). simpl in Heq. subst v'.
    apply Hk. rewrite (Hinj k k' v).
    + by apply (list_elem_of_fmap_2 fst) in Hin.
    + apply elem_of_cons. by left.
    + apply elem_of_cons. by right.
  - apply IH; [done|]. intros k1 k2 v' H1 H2.
    apply (Hinj k1 k2 v'); apply elem_of_cons; by right.
Qed.

Lemma entries_from_positions sel prt d : entries_from sel prt d -> NoDup (d.*2).
Proof.
  intros Hd. apply NoDup_snd_of_inj; [apply Hd|].
  intros k1 k2 v H1 H2. destruct Hd as [Hnd Hd'].
  apply (entries_from_inj sel prt d k1 k2 v); [by split| |]; by apply elem_dict_get.
Qed.

Lemma mark_pieces_step w h g (a : str * pos) :
  (let '(piece_char, (r_pos, c_pos)) := a in
   if in_range r_pos c_pos h w then grid_put r_pos c_pos piece_char g else g)
  = if in_range a.2.1 a.2.2 h w then grid_put (a.2).1 (a.2).2 a.1 g else g.
Proof. by destruct a as [k [r c]]. Qed.

Lemma mark_pieces_shape ps w h g w' h' :
  grid_shape g w' h' -> grid_shape (mark_pieces ps w h g) w' h'.
Proof.
  unfold mark_pieces.
  apply write_loop_shape with (at_ := snd) (val := fst)
    (cond := fun a : str * pos => in_range a.2.1 a.2.2 h w).
  intros g' [k [r c]]. done.
Qed.

Lemma mark_pieces_miss ps w h g r c :
  (r, c) ∉ ps.*2 -> cell (mark_pieces ps w h g) r c = cell g r c.
Proof.
  intros Hnot. unfold mark_pieces.
  apply write_loop_miss with (at_ := snd) (val := fst)
    (cond := fun a : str * pos => in_range a.2.1 a.2.2 h w) (dom := fun _ => True).
  - intros g' [k [r' c']]. done.
  - intros a _ Hc. apply in_range_true in Hc. lia.
  - by apply Forall_forall.
  - intros a Ha Hat. exfalso. apply Hnot. rewrite <- Hat. by apply list_elem_of_fmap_2.
Qed.

Lemma mark_pieces_hit ps w h g k r c :
  NoDup (ps.*2) -> (k, (r, c)) ∈ ps -> 0 <= r < h -> 0 <= c < w ->
  is_Some (cell g r c) ->
  cell (mark_pieces ps w h g) r c = Some k.
Proof.
  intros Hnd Hin Hr Hc Hsome. unfold mark_pieces.
  apply write_loop_hit with (at_ := snd) (val := fst) (a := (k, (r, c)))
    (cond := fun a : str * pos => in_range a.2.1 a.2.2 h w) (dom := fun _ => True);
    try done.
  - intros g' [k' [r' c']]. done.
  - intros a _ Hc'. apply in_range_true in Hc'. lia.
  - by apply Forall_forall.
  - by apply in_range_true.
Qed.

(** The cells of the parsed grid. *)
Lemma parsed_grid_cell prt ps w h r c :
  NoDup (ps.*1) -> NoDup (ps.*2) ->
  (forall k r c, (k, (r, c)) ∈ ps -> 0 <= r < h /\ 0 <= c < w) ->
  0 <= r < h -> 0 <= c < w ->
  cell (mark_pieces ps w h (mark_obstacles prt w h (blank_grid w h))) r c
  = Some (match list_find (fun a : str * pos => a.2 = (r, c)) ps with
          | Some (_, a) => a.1
          | None => if bool_decide (tok_at prt r c = Some (lit "X")) then lit "X"
                    else lit "."
          end).
Proof.
  intros Hnd1 Hnd2 Hin Hr Hc.
  destruct (list_find _ ps) as [[i [k x]]|] eqn:E.
  - apply list_find_Some in E as (Hi & Hx & _). simpl in Hx. subst x.
    apply mark_pieces_hit; try done.
    + by eapply list_elem_of_lookup_2.
    + rewrite mark_obstacles_cell by done. by eauto.
  - rewrite mark_pieces_miss; [by apply mark_obstacles_cell|].
    intros Hel. apply list_elem_of_fmap in Hel as ([k x] & Heq & Hel). simpl in Heq. subst x.
    apply list_find_None in E. rewrite Forall_forall in E. by apply (E (k, (r, c))).
Qed.

Lemma parse_level_wf level_string : wf_game (_parse_level level_string).
Proof.
  unfold _parse_level.
  set (raw_rows := split_on ";" (strip level_string)).
  set (h := Z.of_nat (length raw_rows)).
  case_decide as Hh.
  { constructor; simpl; try done.
    - rewrite Hh. split; [done|constructor].
    - constructor.
    - intros r c x. unfold cell. case_decide; done. }
  set (prt := row_tokens <$> raw_rows).
  set (w := max_width prt).
  destruct (scan_all_entries prt) as [Hps Hts].
  fold w in Hps, Hts.
  destruct (scan_rows w 0 prt ([], [])) as [ps ts] eqn:Escan. simpl in Hps, Hts.
  assert (length prt = length raw_rows) as Hlen by (unfold prt; by rewrite length_fmap).
  assert (forall k r c, dict_get k ps = Some (r, c) -> 0 <= r < h /\ 0 <= c < w) as Hin.
  { intros k r c Hk. destruct Hps as [_ Hps].
    destruct (Hps _ _ _ Hk) as (Hr & Hc & tok & Htok & _).
    destruct (tok_at_in_range prt r c tok Hr Hc Htok). unfold h, w. lia. }
  pose proof (entries_from_positions _ _ _ Hps) as Hnd2.
  assert (NoDup (ps.*1)) as Hnd1 by apply Hps.
  set (g := mark_pieces ps w h (mark_obstacles prt w h (blank_grid w h))).
  assert (grid_shape g w h) as Hsh.
  { apply mark_pieces_shape, mark_obstacles_shape, blank_grid_shape. }
  assert (forall k r c, dict_get k ps = Some (r, c) -> cell g r c = Some k) as Hcell.
  { intros k r c Hk. destruct (Hin _ _ _ Hk) as [Hr Hc].
    apply mark_pieces_hit; try done.
    - by apply dict_get_Some_elem.
    - rewrite mark_obstacles_cell by done. by eauto. }
  set (ps' := if dict_mem (lit "X") ps then dict_del (lit "X") ps else ps).
  assert (NoDup (keys ps')) as Hnd'.
  { unfold ps'. destruct (dict_mem _ _); [by apply NoDup_keys_del|done]. }
  assert (forall k x, dict_get k ps' = Some x -> dict_get k ps = Some x /\ k <> lit "X")
    as Hsub.
  { intros k x. unfold ps', dict_mem.
    destruct (dict_get (lit "X") ps) eqn:EX; simpl.
    - intros Hk. destruct (decide (k = lit "X")) as [->|Hne].
      + by rewrite (dict_get_del_eq (lit "X") ps Hnd1) in Hk.
      + by rewrite dict_get_del_ne in Hk.
    - intros Hk. split; [done|]. intros ->. congruence. }
  assert (forall k x, dict_get k ps = Some x -> k <> lit "X" -> dict_get k ps' = Some x)
    as Hsup.
  { intros k x Hk Hne. unfold ps'. destruct (dict_mem _ _); [|done].
    by rewrite dict_get_del_ne. }
  constructor; simpl; fold g ps'.
  - done.
  - done.
  - intros p r c Hp. apply Hsub in Hp as [Hp HpX].
    split_and!; [by apply (Hin p)|by apply Hcell|done].
  - intros r c x Hx.
    destruct (cell_Some_in_range _ _ _ _ _ _ Hsh Hx) as [Hr Hc].
    unfold g in Hx. rewrite (parsed_grid_cell prt ps w h r c) in Hx; try done.
    + destruct (list_find _ ps) as [[i [k y]]|] eqn:E.
      * apply list_find_Some in E as (Hi & Hy & _). simpl in *. subst y.
        injection Hx as <-. destruct (decide (k = lit "X")) as [->|Hne]; [by left|].
        right; right. apply Hsup; [|done]. apply elem_dict_get; [done|].
        by eapply list_elem_of_lookup_2.
      * injection Hx as <-. destruct (bool_decide _); [by left|right; by left].
    + intros k r' c' Hel. apply (Hin k). by apply elem_dict_get.
Qed.

Lemma new_game_wf level_string : wf_game (new_game level_string).
Proof. apply parse_level_wf. Qed.

(** ** Reachable boards *)

(** C8. On every board reached from a parsed level by legal moves no
    piece stands on an obstacle, no two pieces share a cell, and the
    obstacles, the targets and the dimensions are those of the parsed
    level. *)
Theorem reachable_states_keep_invariants (level_string : str) (s : KubobleGame) :
  reachable (new_game level_string) s ->
  (forall p x, dict_get p (pieces s) = Some x -> ~ is_obstacle s x)
  /\ (forall p q x, p <> q -> dict_get p (pieces s) = Some x ->
        dict_get q (pieces s) <> Some x)
  /\ obstacles s = obstacles (new_game level_string)
  /\ targets s = targets (new_game level_string)
  /\ width s = width (new_game level_string)
  /\ height s = height (new_game level_string).
Proof.
  intros Hr.
  destruct (reachable_wf _ _ (new_game_wf level_string) Hr)
    as (Hwf & Ht & Hw & Hh & _ & Hob).
  split_and!; try done.
  - intros p [r c] Hp Hobs. destruct (wf_piece s Hwf p r c Hp) as (_ & Hc & HX).
    unfold is_obstacle in Hobs. simpl in Hobs. congruence.
  - intros p q x Hne Hp Hq. apply Hne. by eapply wf_distinct.
  - by apply obstacles_ext.
Qed.

Lemma reachable_states_keep_invariants_witness :
  let s := mkGame [[lit "."; lit "."; lit "A"]; [lit "."; lit "X"; lit "."]]
                  [(lit "A", (0, 2))] [(lit "b", (1, 2))] 3 2 in
  reachable (new_game (lit "A . .;. X b")) s
  /\ obstacles s = obstacles (new_game (lit "A . .;. X b"))
  /\ targets s = targets (new_game (lit "A . .;. X b")).
Proof.
  intros s.
  assert (reachable (new_game (lit "A . .;. X b")) s) as Hr.
  { eapply reachable_move; [apply reachable_start|].
    exists [(lit "A", (1, 0), lit "down"); (lit "A", (0, 2), lit "right")],
      (lit "A"), (0, 2), (lit "right").
    split_and!; [by vm_compute| |by vm_compute].
    apply elem_of_cons. right. apply elem_of_cons. by left. }
  split; [exact Hr|].
  destruct (reachable_states_keep_invariants (lit "A . .;. X b") s Hr)
    as (_ & _ & Ho & Ht & _ & _).
  by split.
Defined.

(** ** The verifier never raises *)

Lemma find_move_Some s possible p d m :
  find_move s possible p d = Some m ->
  m ∈ possible /\ m.1.1 = p /\ m.2 = d
  /\ exists original_pos, dict_get p (pieces s) = Some original_pos /\ m.1.2 <> original_pos.
Proof.
  unfold find_move. intros H. apply find_some in H as [Hin Hf].
  destruct m as [[pm_piece pm_new_pos] pm_direction]. simpl.
  apply andb_true_iff in Hf as [Hf H3]. apply andb_true_iff in Hf as [H1 H2].
  apply bool_decide_eq_true in H1, H2. subst.
  destruct (dict_get p (pieces s)) as [original_pos|]; [|done].
  apply bool_decide_eq_true in H3. split_and!; try done.
  - by apply list_elem_of_In.
  - by exists original_pos.
Qed.

Lemma find_move_None s possible p d :
  find_move s possible p d = None ->
  forall pos, (p, pos, d) ∈ possible -> dict_get p (pieces s) = Some pos
                                        \/ dict_get p (pieces s) = None.
Proof.
  unfold find_move. intros H pos Hin.
  apply list_elem_of_In in Hin.
  pose proof (find_none _ _ H _ Hin) as Hf. simpl in Hf.
  rewrite !bool_decide_eq_true_2 in Hf by done. simpl in Hf.
  destruct (dict_get p (pieces s)) as [original_pos|]; [|by right].
  left. apply bool_decide_eq_false in Hf. f_equal.
  destruct (decide (pos = original_pos)); [done|]. by exfalso.
Qed.

(** A matched move is legal, so it applies and keeps the board well formed. *)
Lemma matched_move_applies s possible p d m :
  wf_game s -> get_possible_moves s = Ok possible ->
  find_move s possible p d = Some m ->
  exists s', apply_move s m.1.1 m.1.2 = Ok s' /\ wf_game s' /\ legal_step s s'.
Proof.
  intros Hwf Hms Hfind. apply find_move_Some in Hfind as (Hin & _ & _ & _).
  destruct m as [[pm_piece pm_new_pos] pm_direction]. simpl.
  destruct (legal_move_free s possible _ _ _ Hwf Hms Hin) as (old & Hp & Hfree & Hne).
  destruct (move_to_free_cell s _ old _ Hwf Hp Hfree Hne) as (s' & Happ & Hwf' & _).
  exists s'. split_and!; [done..|]. by exists possible, pm_piece, pm_new_pos, pm_direction.
Qed.


Lemma replay_via_state s parsed_moves :
  replay s parsed_moves =
  r ← replay_state s parsed_moves;
  Ok (match r with Some s' => is_win s' | None => false end).
Proof.
  revert s. induction parsed_moves as [|[p d] rest IH]; intros s; simpl; [done|].
  destruct (negb _); [done|].
  destruct (get_possible_moves s) as [possible| |]; simpl; [|done..].
  destruct (find_move s possible p d) as [[[pm_piece pm_new_pos] pm_direction]|];
    [|done].
  destruct (apply_move s pm_piece pm_new_pos) as [s'| |]; simpl; [|done..]. apply IH.
Qed.




(** *** Tokenising the solution *)

Lemma lstrip_nil_inv s : lstrip s = [] -> Forall (fun c => is_space c = true) s.
Proof.
  induction s as [|c s IH]; simpl; [constructor|].
  destruct (is_space c) eqn:E; [|done]. intros H. constructor; auto.
Qed.

Lemma lstrip_head s c t : lstrip s = c :: t -> is_space c = false.
Proof.
  induction s as [|x s IH]; simpl; [done|].
  destruct (is_space x) eqn:Ex; [done|]. intros [= <- <-]. done.
Qed.

Lemma rev_nil_inv {A} (l : list A) : rev l = [] -> l = [].
Proof.
  intros H. apply (f_equal (@length A)) in H. rewrite length_rev in H.
  by destruct l.
Qed.

Lemma strip_nil_inv s : strip s = [] -> Forall (fun c => is_space c = true) s.
Proof.
  unfold strip, rstrip. intros H. apply rev_nil_inv in H.
  apply lstrip_nil_inv in H.
  destruct (lstrip s) as [|c t] eqn:E; [by apply lstrip_nil_inv|].
  exfalso. apply lstrip_head in E. simpl in H.
  rewrite Forall_app, Forall_singleton in H. destruct H as [_ H]. congruence.
Qed.

Lemma nonempty_false (s : str) : nonempty s = false <-> s = [].
Proof. destruct s; naive_solver. Qed.


Lemma parse_moves_blank_solution solution :
  negb (nonempty solution) || negb (nonempty (strip solution)) = true ->
  forall pm, parse_moves (length (split_on ";" solution)) 0 (split_on ";" solution) []
             = Parsed pm -> pm = [].
Proof.
  intros Hblank pm Hpm.
  assert (Forall (fun c => is_space c = true) solution) as Hsp.
  { apply orb_true_iff in Hblank as [H|H]; apply negb_true_iff, nonempty_false in H.
    - subst. constructor.
    - by apply strip_nil_inv. }
  assert (Forall (fun f => strip f = []) (split_on ";" solution)) as Hfr.
  { unfold split_on.
    eapply Forall_impl; [apply (split_by_Forall _ (fun c => is_space c = true))|].
    - eapply Forall_impl; [exact Hsp|]. intros c Hc. by right.
    - intros f Hf. by apply strip_all_space. }
  destruct (parse_moves_blank (length (split_on ";" solution)) 0 _ Hfr) as [H|H];
    rewrite H in Hpm; by simplify_eq.
Qed.

(** Once the solution is tokenised into at least one move, the verdict
    is the verdict of the replay. *)
Lemma verify_parsed level_string solution pm :
  parse_moves (length (split_on ";" solution)) 0 (split_on ";" solution) [] = Parsed pm ->
  pm <> [] ->
  verify_kuboble_solution level_string solution = replay (new_game level_string) pm.
Proof.
  intros Hpm Hne. unfold verify_kuboble_solution.
  destruct (negb (nonempty solution) || negb (nonempty (strip solution))) eqn:Hblank.
  - by destruct (Hne (parse_moves_blank_solution solution Hblank pm Hpm)).
  - rewrite Hpm. rewrite (bool_decide_eq_true_2 _ Hne). done.
Qed.




(** ** The solver returns runs of legal moves *)

Lemma run_snoc s ms s1 possible p pos d s2 :
  run s ms s1 -> get_possible_moves s1 = Ok possible -> (p, pos, d) ∈ possible ->
  apply_move s1 p pos = Ok s2 -> run s (ms ++ [(p, pos, d)]) s2.
Proof.
  intros Hrun Hms Hin Happ. induction Hrun as [s|s pm pc np dn sa ms s' H1 H2 H3 Hr IH].
  - simpl. eapply run_cons; [done..|]. apply run_nil.
  - simpl. eapply run_cons; [done..|]. by apply IH.
Qed.

Lemma run_reachable s ms s' : run s ms s' -> forall s0, reachable s0 s -> reachable s0 s'.
Proof.
  induction 1 as [s|s pm pc np dn sa ms s' H1 H2 H3 Hr IH]; intros s0 H0; [done|].
  apply IH. eapply reachable_move; [done|]. by exists pm, pc, np, dn.
Qed.

Lemma run_wf s ms s' : wf_game s -> run s ms s' -> wf_game s'.
Proof.
  intros Hwf Hrun. eapply reachable_wf; [done|].
  eapply run_reachable; [done|]. apply reachable_start.
Qed.

Lemma expand_sound s0 g path depth moves possible queue visited r :
  entry_ok s0 (g, path, depth) ->
  get_possible_moves g = Ok possible -> moves ⊆ possible ->
  Forall (entry_ok s0) queue ->
  expand g path depth moves queue visited = Ok r ->
  match r with
  | inl new_path => exists ms t, run s0 ms t /\ is_win t = true
                                 /\ new_path = move_text <$> ms
                                 /\ Z.of_nat (length ms) = depth + 1
  | inr (queue', _) => Forall (entry_ok s0) queue'
  end.
Proof.
  intros (ms & Hrun & Hpath & Hdepth & Hnw) Hposs. simpl in *.
  revert queue visited. induction moves as [|[[pc np] dn] moves IH];
    intros queue visited Hsub Hq; simpl.
  - by intros [= <-].
  - intros H. inv_bind H.
    assert ((pc, np, dn) ∈ possible) as Hin by (apply Hsub, elem_of_cons; by left).
    assert (moves ⊆ possible) as Hsub'.
    { intros m Hm. apply Hsub, elem_of_cons. by right. }
    pose proof (run_snoc _ _ _ _ _ _ _ _ Hrun Hposs Hin Ha) as Hrun'.
    destruct (is_win a) eqn:Hw.
    + injection H as <-. exists (ms ++ [(pc, np, dn)]), a.
      split_and!; [done..| |].
      * by rewrite Hpath, fmap_app.
      * rewrite length_app. simpl. lia.
    + case_decide.
      * by apply (IH queue visited).
      * eapply (IH _ _ Hsub'); [|exact H]. apply Forall_app. split; [done|].
        apply Forall_singleton. exists (ms ++ [(pc, np, dn)]). simpl.
        split_and!; [done| |rewrite length_app; simpl; lia|done].
        by rewrite Hpath, fmap_app.
Qed.

Lemma bfs_loop_sound s0 fuel max_depth queue visited path :
  Forall (entry_ok s0) queue ->
  bfs_loop fuel max_depth queue visited = Ok (Some path) ->
  exists ms t, run s0 ms t /\ is_win t = true /\ path = move_text <$> ms /\ ms <> [].
Proof.
  revert queue visited. induction fuel as [|fuel IH]; intros queue visited Hq.
  - destruct queue as [|[[g p] k] queue]; simpl; done.
  - destruct queue as [|[[g p] k] queue]; simpl; [done|].
    apply Forall_cons in Hq as [He Hq].
    destruct (decide (k >= max_depth)) as [Hge|Hlt]; [by apply IH|].
    intros H. inv_bind H. inv_bind H.
    pose proof (expand_sound s0 g p k a a queue visited a0 He Ha ltac:(done) Hq Ha0) as Hex.
    destruct a0 as [new_path|[queue' visited']].
    + injection H as <-. destruct Hex as (ms & t & Hrun & Hw & Hp & Hlen).
      exists ms, t. split_and!; [done..|]. intros ->. simpl in Hlen.
      destruct He as (ms0 & _ & _ & Hk & _). simpl in Hk. lia.
    + by apply (IH queue' visited').
Qed.

Lemma bfs_path_sound fuel s0 max_depth path :
  bfs_path fuel s0 max_depth = Ok (Some path) ->
  exists ms t, run s0 ms t /\ is_win t = true /\ path = move_text <$> ms
               /\ (ms = [] -> is_win s0 = true).
Proof.
  unfold bfs_path. destruct (is_win s0) eqn:Hw.
  - intros [= <-]. exists [], s0. split_and!; [apply run_nil|done..].
  - intros H. apply (bfs_loop_sound s0) in H as (ms & t & Hrun & Hwin & Hp & Hne).
    + exists ms, t. split_and!; [done..|]. intros ->. done.
    + apply Forall_singleton. exists []. simpl. split_and!; [apply run_nil|done..].
Qed.

(** ** The verifier accepts the runs of the solver *)

Lemma free_not_obstructed s p x : free_cell s p x -> obstructed s p x -> False.
Proof. intros (H1 & H2 & H3) [H|[H|H]]; done. Qed.

Lemma direction_of_name dr1 dc1 dr2 dc2 name :
  (dr1, dc1, name) ∈ directions -> (dr2, dc2, name) ∈ directions ->
  dr1 = dr2 /\ dc1 = dc2.
Proof.
  unfold directions. rewrite !elem_of_cons, !elem_of_nil.
  intros [H1|[H1|[H1|[H1|[]]]]] [H2|[H2|[H2|[H2|[]]]]]; simplify_eq; done.
Qed.

(** One piece has at most one move in one direction. *)
Lemma emitted_move_unique s ms p pos1 pos2 name :
  NoDup (keys (pieces s)) -> get_possible_moves s = Ok ms ->
  (p, pos1, name) ∈ ms -> (p, pos2, name) ∈ ms -> pos1 = pos2.
Proof.
  intros Hnd Hms H1 H2.
  destruct (emitted_move_is_maximal_slide s ms p pos1 name Hnd Hms H1)
    as (st1 & dr1 & dc1 & n1 & Hp1 & Hd1 & Hn1 & Hl1 & _ & Hf1 & Ho1).
  destruct (emitted_move_is_maximal_slide s ms p pos2 name Hnd Hms H2)
    as (st2 & dr2 & dc2 & n2 & Hp2 & Hd2 & Hn2 & Hl2 & _ & Hf2 & Ho2).
  rewrite Hp1 in Hp2. injection Hp2 as <-.
  destruct (direction_of_name _ _ _ _ _ Hd1 Hd2) as [<- <-].
  assert (n1 = n2) as ->; [|congruence].
  destruct (decide (n1 < n2)%nat) as [Hlt|Hge].
  { exfalso. apply (free_not_obstructed s p (pos1.1 + dr1, pos1.2 + dc1)); [|done].
    specialize (Hf2 (S n1) ltac:(lia)). rewrite Hl1. simpl.
    replace (st1.1 + Z.of_nat n1 * dr1 + dr1) with (st1.1 + Z.of_nat (S n1) * dr1) by lia.
    replace (st1.2 + Z.of_nat n1 * dc1 + dc1) with (st1.2 + Z.of_nat (S n1) * dc1) by lia.
    done. }
  destruct (decide (n2 < n1)%nat) as [Hlt|Hge']; [|lia].
  exfalso. apply (free_not_obstructed s p (pos2.1 + dr1, pos2.2 + dc1)); [|done].
  specialize (Hf1 (S n2) ltac:(lia)). rewrite Hl2. simpl.
  replace (st1.1 + Z.of_nat n2 * dr1 + dr1) with (st1.1 + Z.of_nat (S n2) * dr1) by lia.
  replace (st1.2 + Z.of_nat n2 * dc1 + dc1) with (st1.2 + Z.of_nat (S n2) * dc1) by lia.
  done.
Qed.

(** The verifier's search finds the very triple the solver used. *)
Lemma find_move_emitted s ms p pos name :
  NoDup (keys (pieces s)) -> get_possible_moves s = Ok ms -> (p, pos, name) ∈ ms ->
  dict_mem p (pieces s) = true
  /\ exists name', find_move s ms p name = Some (p, pos, name').
Proof.
  intros Hnd Hms Hin.
  destruct (emitted_move_is_maximal_slide s ms p pos name Hnd Hms Hin)
    as (st & dr & dc & n & Hp & Hd & Hn & Hl & Hne & Hf & Ho).
  split; [unfold dict_mem; by rewrite Hp|].
  destruct (find_move s ms p name) as [[[mp mpos] md]|] eqn:E.
  - apply find_move_Some in E as (Hin' & H1 & H2 & _). simpl in *. subst.
    exists name. f_equal. f_equal. f_equal. by eapply emitted_move_unique.
  - exfalso. destruct (find_move_None _ _ _ _ E pos Hin) as [H|H]; congruence.
Qed.

Lemma run_replay s ms s' :
  wf_game s -> run s ms s' -> replay_state s (move_pair <$> ms) = Ok (Some s').
Proof.
  intros Hwf Hrun. induction Hrun as [s|s pm pc np dn sa ms s' H1 H2 H3 Hr IH]; [done|].
  simpl. destruct (find_move_emitted s pm pc np dn (wf_keys s Hwf) H1 H2)
    as (Hmem & name' & Hfind).
  rewrite Hmem. simpl. rewrite H1. simpl.
  unfold move_pair at 1. simpl. rewrite Hfind, H3. simpl. apply IH.
  eapply run_wf; [exact Hwf|]. eapply run_cons; [done..|]. apply run_nil.
Qed.

(** ** Splitting and joining *)

Lemma split_by_nosep P a : Forall (fun c => P c = false) a -> split_by P a = [a].
Proof.
  induction 1 as [|c a Hc _ IH]; simpl; [done|]. by rewrite Hc, IH.
Qed.

Lemma split_by_app_sep P a x rest :
  Forall (fun c => P c = false) a -> P x = true ->
  split_by P (a ++ x :: rest) = a :: split_by P rest.
Proof.
  intros Ha Hx. induction Ha as [|c a Hc _ IH]; simpl.
  - by rewrite Hx.
  - by rewrite Hc, IH.
Qed.

Lemma join_cons2 sep p q ps : join sep (p :: q :: ps) = p ++ sep ++ join sep (q :: ps).
Proof. done. Qed.

(** Splitting a joined list gives the list back when no part holds the
    separator. *)
Lemma split_by_join P x parts :
  P x = true -> parts <> [] -> Forall (Forall (fun c => P c = false)) parts ->
  split_by P (join [x] parts) = parts.
Proof.
  intros Hx Hne Hparts. induction Hparts as [|p parts Hp Hps IH]; [done|].
  destruct parts as [|q parts].
  - simpl. by apply split_by_nosep.
  - rewrite join_cons2. simpl app. rewrite split_by_app_sep by done.
    f_equal. by apply IH.
Qed.

Lemma lstrip_id c s : is_space c = false -> lstrip (c :: s) = c :: s.
Proof. intros H. simpl. by rewrite H. Qed.

(** [strip] leaves a string alone when its first and last characters
    are no whitespace. *)
Lemma strip_id s :
  (forall c, head s = Some c -> is_space c = false) ->
  (forall c, last s = Some c -> is_space c = false) ->
  strip s = s.
Proof.
  intros Hh Hl. unfold strip, rstrip. destruct s as [|c t]; [done|].
  rewrite lstrip_id by by apply Hh.
  destruct (rev (c :: t)) as [|c' t'] eqn:E.
  - apply rev_nil_inv in E. done.
  - rewrite lstrip_id.
    + by rewrite <- E, rev_involutive.
    + apply Hl. apply (f_equal (@rev ascii)) in E. rewrite rev_involutive in E.
      rewrite E. simpl. apply last_snoc.
Qed.

Lemma upper_letter_plain ch :
  is_upper_letter ch = true ->
  is_space ch = false /\ ch <> ";"%char /\ ch <> " "%char /\ ch <> "."%char.
Proof.
  destruct ch as [[] [] [] [] [] [] [] []]; vm_compute; intros; split_and!; congruence.
Qed.

Lemma lower_letter_plain ch :
  is_lower_letter ch = true ->
  is_space ch = false /\ ch <> ";"%char /\ ch <> " "%char /\ ch <> "."%char.
Proof.
  destruct ch as [[] [] [] [] [] [] [] []]; vm_compute; intros; split_and!; congruence.
Qed.

(** *** The text of a run is read back as the run *)

Lemma direction_names_cases d :
  d ∈ direction_names -> d = lit "up" \/ d = lit "down" \/ d = lit "left" \/ d = lit "right".
Proof. unfold direction_names. rewrite !elem_of_cons, elem_of_nil. naive_solver. Qed.

Lemma directions_named dr dc name : (dr, dc, name) ∈ directions -> name ∈ direction_names.
Proof.
  unfold directions, direction_names. rewrite !elem_of_cons, !elem_of_nil.
  intros [H|[H|[H|[H|[]]]]]; simplify_eq; auto.
Qed.

Lemma direction_name_plain d :
  d ∈ direction_names ->
  Forall (fun c => is_space c = false) d /\ Forall (fun c => is_char ";" c = false) d
  /\ (exists c, last d = Some c /\ is_space c = false) /\ lower d = d /\ nonempty d = true.
Proof.
  intros Hd. apply direction_names_cases in Hd as [-> | [-> | [-> | ->]]].
  all: split_and!; [apply (bool_decide_unpack _); by vm_compute
                   |apply (bool_decide_unpack _); by vm_compute
                   |eexists; split; [by vm_compute|by vm_compute]
                   |by vm_compute|done].
Qed.

(** What the verifier's first loop sees in one fragment of the solver. *)
Lemma move_fragment ch d :
  is_upper_letter ch = true -> d ∈ direction_names ->
  strip (move_str [ch] d) = move_str [ch] d
  /\ nonempty (move_str [ch] d) = true
  /\ split_ws (move_str [ch] d) = [[ch]; d]
  /\ lower d = d
  /\ Forall (fun c => is_char ";" c = false) (move_str [ch] d).
Proof.
  intros Hch Hd. destruct (upper_letter_plain ch Hch) as (Hsp & Hsemi & _ & _).
  assert (is_char ";" ch = false) as Hsemi' by by apply bool_decide_eq_false.
  destruct (direction_name_plain d Hd) as (Hdsp & Hdsemi & (cl & Hlast & Hcl) & Hlow & Hne).
  change (move_str [ch] d) with (ch :: " "%char :: d).
  split_and!.
  - apply strip_id; [intros c [= <-]; done|].
    intros c Hc. destruct d as [|x d]; [done|].
    change (ch :: " "%char :: x :: d) with ([ch; " "%char] ++ x :: d) in Hc.
    rewrite last_app in Hc. rewrite Hlast in Hc. by simplify_eq.
  - done.
  - unfold split_ws. change (ch :: " "%char :: d) with ([ch] ++ " "%char :: d).
    rewrite (split_by_app_sep is_space [ch] " "%char); [|by constructor|by vm_compute].
    rewrite split_by_nosep by done.
    rewrite filter_cons_True by done. rewrite filter_cons_True by done. done.
  - done.
  - constructor; [done|]. constructor; [by vm_compute|done].
Qed.

Lemma parse_moves_run n idx ms acc :
  (forall m, m ∈ ms -> (exists ch, m.1.1 = [ch] /\ is_upper_letter ch = true)
                       /\ m.2 ∈ direction_names) ->
  parse_moves n idx (move_text <$> ms) acc = Parsed (acc ++ (move_pair <$> ms)).
Proof.
  revert idx acc. induction ms as [|[[p pos] d] ms IH]; intros idx acc Hms; simpl.
  - by rewrite app_nil_r.
  - destruct (Hms (p, pos, d)) as [(ch & Hp & Hch) Hd]; [apply elem_of_cons; by left|].
    simpl in *. subst p. unfold move_text, move_pair at 1. simpl.
    destruct (move_fragment ch d Hch Hd) as (Hstrip & Hne & Hsplit & Hlow & _).
    rewrite Hstrip, Hne, Hsplit, Hlow. simpl.
    rewrite (bool_decide_eq_true_2 _ Hd). rewrite IH.
    + by rewrite <- app_assoc.
    + intros m Hm. apply Hms, elem_of_cons. by right.
Qed.

Lemma solver_text_parses ms :
  ms <> [] ->
  (forall m, m ∈ ms -> (exists ch, m.1.1 = [ch] /\ is_upper_letter ch = true)
                       /\ m.2 ∈ direction_names) ->
  parse_moves (length (split_on ";" (join (lit ";") (move_text <$> ms)))) 0
              (split_on ";" (join (lit ";") (move_text <$> ms))) []
  = Parsed (move_pair <$> ms).
Proof.
  intros Hne Hms. unfold split_on. change (lit ";") with [";"%char].
  rewrite split_by_join.
  - by rewrite parse_moves_run.
  - by apply bool_decide_eq_true.
  - by destruct ms.
  - apply Forall_forall. intros f Hf. apply list_elem_of_fmap in Hf as ([[p pos] d] & -> & Hm).
    destruct (Hms _ Hm) as [(ch & Hp & Hch) Hd]. simpl in *. subst p.
    unfold move_text. simpl. by apply move_fragment.
Qed.

(** *** Piece names *)

Lemma scan_token_letters tok :
  (forall ch, (scan_token tok).1 = Some ch -> is_upper_letter ch = true)
  /\ (forall ch, (scan_token tok).2 = Some ch -> is_lower_letter ch = true).
Proof.
  unfold scan_token. case_decide; [done|]. case_decide; [done|].
  assert (forall l acc,
    (forall ch, acc.1 = Some ch -> is_upper_letter ch = true) ->
    (forall ch, acc.2 = Some ch -> is_lower_letter ch = true) ->
    let r := fold_left (fun '(piece_in_cell, target_in_cell) sub_char =>
                     if is_lower_letter sub_char then (piece_in_cell, Some sub_char)
                     else if is_upper_letter sub_char then (Some sub_char, target_in_cell)
                     else (piece_in_cell, target_in_cell)) l acc in
    (forall ch, r.1 = Some ch -> is_upper_letter ch = true)
    /\ (forall ch, r.2 = Some ch -> is_lower_letter ch = true)) as Hfold.
  { induction l as [|x l IH]; intros [pc tc] Hp Ht; simpl; [done|].
    apply IH; destruct (is_lower_letter x) eqn:El; simpl in *; try done.
    - destruct (is_upper_letter x) eqn:Eu; simpl; [|done]. by intros ch [= <-].
    - by intros ch [= <-].
    - by destruct (is_upper_letter x). }
  destruct tok as [|c [|c' tok]].
  - by apply (Hfold [] (None, None)).
  - destruct (is_lower_letter c) eqn:El; simpl; [split; [done|by intros ch [= <-]]|].
    destruct (is_upper_letter c) eqn:Eu; simpl; [split; [by intros ch [= <-]|done]|done].
  - by apply (Hfold _ (None, None)).
Qed.

Lemma token_piece_letter tok k :
  token_piece tok = Some k -> exists ch, k = [ch] /\ is_upper_letter ch = true.
Proof.
  unfold token_piece. destruct ((scan_token tok).1) as [ch|] eqn:E; [|done].
  intros [= <-]. exists ch. split; [done|]. by apply (scan_token_letters tok).
Qed.

Lemma token_target_letter tok k :
  token_target tok = Some k -> exists ch, k = [ch] /\ is_lower_letter ch = true.
Proof.
  unfold token_target. destruct ((scan_token tok).2) as [ch|] eqn:E; [|done].
  intros [= <-]. exists ch. split; [done|]. by apply (scan_token_letters tok).
Qed.

Lemma new_game_piece_names level_string : piece_names_ok (new_game level_string).
Proof.
  unfold new_game, _parse_level. intros p.
  case_decide as Hh; [intros Hp; by apply elem_of_nil in Hp|].
  set (prt := row_tokens <$> split_on ";" (strip level_string)).
  destruct (scan_all_entries prt) as [[Hnd Hps] _].
  destruct (scan_rows (max_width prt) 0 prt ([], [])) as [ps ts]. simpl in *.
  intros Hp.
  assert (p ∈ keys ps) as Hp'.
  { destruct (dict_mem (lit "X") ps); [by apply keys_dict_del_sub in Hp|done]. }
  apply dict_get_is_Some in Hp' as [[r c] Hget].
  destruct (Hps _ _ _ Hget) as (_ & _ & tok & _ & Htok).
  by apply token_piece_letter in Htok.
Qed.

Lemma run_moves_plain s ms s' :
  wf_game s -> piece_names_ok s -> run s ms s' ->
  forall m, m ∈ ms -> (exists ch, m.1.1 = [ch] /\ is_upper_letter ch = true)
                      /\ m.2 ∈ direction_names.
Proof.
  intros Hwf Hnames Hrun. induction Hrun as [s|s pm pc np dn sa ms s' H1 H2 H3 Hr IH].
  - intros m Hm. by apply elem_of_nil in Hm.
  - intros m [->|Hm]%elem_of_cons.
    + destruct (emitted_move_is_maximal_slide s pm pc np dn (wf_keys s Hwf) H1 H2)
        as (st & dr & dc & n & Hp & Hd & _). simpl. split.
      * apply Hnames. apply dict_get_is_Some. by rewrite Hp.
      * by eapply directions_named.
    + assert (legal_step s sa) as Hstep by by exists pm, pc, np, dn.
      destruct (legal_step_wf s sa Hwf Hstep) as (Hwf' & _ & _ & _ & Hk & _).
      apply IH; [done| |done]. intros p Hp. apply Hnames. by rewrite <- Hk.
Qed.

(** Whatever the solver returns for a parsed level, the verifier accepts. *)
Lemma solver_path_verifies level_string fuel max_depth solution :
  _is_solvable_bfs fuel (new_game level_string) max_depth = Ok (Some solution) ->
  verify_kuboble_solution level_string solution = Ok true.
Proof.
  unfold _is_solvable_bfs. intros H. inv_bind H.
  destruct a as [path|]; [|done]. injection H as <-.
  apply bfs_path_sound in Ha as (ms & t & Hrun & Hwin & -> & Hnil).
  pose proof (new_game_wf level_string) as Hwf.
  destruct ms as [|m ms].
  - rewrite verify_blank; [by rewrite Hnil|constructor].
  - pose proof (run_moves_plain _ _ _ Hwf (new_game_piece_names level_string) Hrun) as Hpl.
    rewrite (verify_parsed _ _ (move_pair <$> m :: ms)); [|by apply solver_text_parses|done].
    rewrite replay_via_state, (run_replay _ _ _ Hwf Hrun). simpl. by rewrite Hwin.
Qed.

Lemma attempts_result shuffle fuel todo w h np no depth nt level_string solution :
  attempts shuffle fuel todo w h np no depth nt = Ok (Some (level_string, solution)) ->
  exists d, _is_solvable_bfs fuel (new_game level_string) d = Ok (Some solution).
Proof.
  induction todo as [|attempt todo IH]; simpl; [done|].
  intros H. inv_bind H. destruct a as [res|]; [|by apply IH].
  injection H as ->. clear IH. unfold attempt_level in Ha.
  destruct (draw_pieces _ _ _ _ _) as [[all_coords pieces_pos] targets_pos].
  destruct (bool_decide _); [done|].
  destruct (draw_obstacles _ _ _) as [all_coords' obstacles_pos].
  inv_bind Ha. destruct (_ && _); [done|]. inv_bind Ha.
  destruct a0 as [sol|]; [|done]. injection Ha as <- <-. by eauto.
Qed.

(** With at least one piece requested, every pair the generator returns
    passes the verifier. *)
Lemma generated_pair_verifies shuffle fuel w h np no attempts_limit depth nt
    level_string solution :
  np <> 0 ->
  generate_kuboble_level shuffle fuel w h np no attempts_limit depth nt
    = Ok (Some (level_string, solution)) ->
  verify_kuboble_solution level_string solution = Ok true.
Proof.
  intros Hnp. unfold generate_kuboble_level. rewrite decide_False by done.
  case_decide as H26; [done|]. case_decide as Hcap; [done|].
  intros H. apply attempts_result in H as [d H]. by eapply solver_path_verifies.
Qed.

(** C1. The claim fails for [num_pieces = 0]: the generator hands out
    the empty 2 by 2 level with the empty solution, and the verifier
    rejects that pair, because a board without pieces is not won. *)
Theorem generated_pair_without_pieces_is_rejected :
  generate_kuboble_level (fun _ l => l) 0 2 2 0 0 100 25 true
    = Ok (Some (lit ". .;. .", lit ""))
  /\ verify_kuboble_solution (lit ". .;. .") (lit "") = Ok false.
Proof. split; by vm_compute. Qed.

(** ** The visited key determines the board *)

Lemma dict_eq_of_perm {V} (l1 l2 : dict V) :
  NoDup (keys l1) -> keys l1 = keys l2 -> l1 ≡ₚ l2 -> l1 = l2.
Proof.
  revert l2. induction l1 as [|[k v] l1 IH]; intros l2 Hnd Hk Hp.
  - by destruct l2.
  - destruct l2 as [|[k2 v2] l2]; [done|]. simpl in Hk. injection Hk as <- Hk.
    apply NoDup_cons in Hnd as [Hnot Hnd].
    assert ((k, v) ∈ (k, v2) :: l2) as Hin.
    { rewrite <- Hp. apply elem_of_cons. by left. }
    apply elem_of_cons in Hin as [Heq|Hin].
    + injection Heq as <-. f_equal. apply IH; [done..|].
      by apply (Permutation_cons_inv (a := (k, v))).
    + exfalso. apply Hnot. apply (list_elem_of_fmap_2 fst) in Hin. simpl in Hin.
      change (k ∈ keys l1). by rewrite Hk.
Qed.

Lemma cell_determined t1 t2 r c x1 x2 :
  wf_game t1 -> wf_game t2 -> pieces t1 = pieces t2 ->
  (forall r c, is_obstacle t1 (r, c) <-> is_obstacle t2 (r, c)) ->
  cell (grid t1) r c = Some x1 -> cell (grid t2) r c = Some x2 -> x1 = x2.
Proof.
  intros Hwf1 Hwf2 Hp Hob H1 H2.
  destruct (wf_cell t1 Hwf1 r c x1 H1) as [->|[->|Hx1]].
  - assert (is_obstacle t2 (r, c)) as Ho by by apply Hob.
    unfold is_obstacle in Ho. simpl in Ho. congruence.
  - destruct (wf_cell t2 Hwf2 r c x2 H2) as [->|[->|Hx2]]; [|done|].
    + assert (is_obstacle t1 (r, c)) as Ho by by apply Hob.
      unfold is_obstacle in Ho. simpl in Ho. congruence.
    + rewrite <- Hp in Hx2. destruct (wf_piece t1 Hwf1 _ _ _ Hx2) as (_ & Hc & _).
      congruence.
  - rewrite Hp in Hx1. destruct (wf_piece t2 Hwf2 _ _ _ Hx1) as (_ & Hc & _). congruence.
Qed.

Lemma state_key_inj s0 t1 t2 :
  wf_game s0 -> reachable s0 t1 -> reachable s0 t2 ->
  state_key t1 = state_key t2 -> t1 = t2.
Proof.
  intros Hwf0 Hr1 Hr2 Hkey.
  destruct (reachable_wf s0 t1 Hwf0 Hr1) as (Hwf1 & Ht1 & Hw1 & Hh1 & Hk1 & Ho1).
  destruct (reachable_wf s0 t2 Hwf0 Hr2) as (Hwf2 & Ht2 & Hw2 & Hh2 & Hk2 & Ho2).
  assert (pieces t1 = pieces t2) as Hp.
  { apply dict_eq_of_perm; [apply Hwf1|congruence|].
    unfold state_key in Hkey.
    rewrite <- (merge_sort_Permutation item_le (pieces t1)).
    rewrite <- (merge_sort_Permutation item_le (pieces t2)). by rewrite Hkey. }
  assert (grid t1 = grid t2) as Hg.
  { apply (grid_ext _ _ (width s0) (height s0)).
    - rewrite <- Hw1, <- Hh1. apply Hwf1.
    - rewrite <- Hw2, <- Hh2. apply Hwf2.
    - intros r c Hr Hc.
      destruct (cell_is_Some (grid t1) (width t1) (height t1) r c) as [x1 H1];
        [apply Hwf1|lia..|].
      destruct (cell_is_Some (grid t2) (width t2) (height t2) r c) as [x2 H2];
        [apply Hwf2|lia..|].
      rewrite H1, H2. f_equal. apply (cell_determined t1 t2 r c); try done.
      intros r' c'. by rewrite Ho1, Ho2. }
  destruct t1, t2. simpl in *. congruence.
Qed.

(** ** The search is breadth first *)

Lemma run_inv_last s0 ms t :
  run s0 ms t ->
  (ms = [] /\ t = s0)
  \/ exists ms' m s, ms = ms' ++ [m] /\ run s0 ms' s /\ legal_step s t.
Proof.
  induction 1 as [s|s pm pc np dn sa ms s' H1 H2 H3 Hr IH]; [by left|]. right.
  destruct IH as [[-> ->]|(ms' & m & x & -> & Hrun & Hstep)].
  - exists [], (pc, np, dn), s. split_and!; [done|apply run_nil|].
    by exists pm, pc, np, dn.
  - exists ((pc, np, dn) :: ms'), m, x. split_and!; [done| |done].
    by eapply run_cons.
Qed.

Lemma run_reachable_start s0 ms t : run s0 ms t -> reachable s0 t.
Proof. intros H. eapply run_reachable; [done|apply reachable_start]. Qed.

Lemma bfs_loop_exhausted fuel max_depth queue visited path :
  Forall (fun e : entry => e.2 >= max_depth) queue ->
  bfs_loop fuel max_depth queue visited = Ok (Some path) -> False.
Proof.
  revert queue. induction fuel as [|fuel IH]; intros queue Hq.
  - destruct queue as [|[[g p] k] queue]; simpl; done.
  - destruct queue as [|[[g p] k] queue]; simpl; [done|].
    apply Forall_cons in Hq as [Hk Hq]. simpl in Hk.
    rewrite decide_True by done. by apply IH.
Qed.

(** When layer [d] is used up the queue is layer [d + 1]. *)
Lemma bfs_inv_shift s0 d E queue visited :
  0 <= d ->
  bfs_inv s0 d E queue visited ->
  Forall (fun e : entry => e.2 = d + 1) queue ->
  bfs_inv s0 (d + 1) E queue visited.
Proof.
  intros Hd0 [Hent Hlay Hnear Hsucc Hvis Hdone] Hall.
  assert (forall t, near s0 d t -> t ∈ E) as HnearE.
  { intros t Ht. destruct (Hnear t Ht) as [_ [H|[path Hin]]]; [done|].
    rewrite Forall_forall in Hall. specialize (Hall _ Hin). simpl in Hall. lia. }
  constructor; try done.
  - exists queue, []. rewrite app_nil_r. split_and!; [done..|constructor].
  - intros t (ms & Hrun & Hlen).
    destruct (decide (Z.of_nat (length ms) <= d)) as [Hle|Hgt].
    { split; [by apply Hnear; exists ms|]. left. apply HnearE. by exists ms. }
    destruct (run_inv_last _ _ _ Hrun) as [[-> ->]|(ms' & m & s & -> & Hrun' & Hstep)].
    { simpl in Hgt. lia. }
    rewrite length_app in Hlen, Hgt. simpl in Hlen, Hgt.
    assert (s ∈ E) as Hs by (apply HnearE; exists ms'; split; [done|lia]).
    destruct (Hsucc s t Hs Hstep) as [Hw [H|(path & depth & Hin)]]; [by auto|].
    split; [done|]. right. exists path.
    rewrite Forall_forall in Hall. pose proof (Hall _ Hin) as Hd. simpl in Hd.
    by subst depth.
Qed.

Lemma in_queue_app t q1 q2 : in_queue t (q1 ++ q2) <-> in_queue t q1 \/ in_queue t q2.
Proof.
  unfold in_queue. split.
  - intros (p & k & [H|H]%elem_of_app); [left|right]; by eauto.
  - intros [(p & k & H)|(p & k & H)]; exists p, k; apply elem_of_app; auto.
Qed.

Lemma in_queue_cons t e q : in_queue t (e :: q) <-> t = e.1.1 \/ in_queue t q.
Proof.
  unfold in_queue. split.
  - intros (p & k & [<-|H]%elem_of_cons); [by left|right; by eauto].
  - intros [->|(p & k & H)].
    + destruct e as [[g p] k]. exists p, k. apply elem_of_cons. by left.
    + exists p, k. apply elem_of_cons. by right.
Qed.

Lemma entry_ok_reachable s0 g p k : entry_ok s0 (g, p, k) -> reachable s0 g.
Proof. intros (ms & Hrun & _). by eapply run_reachable_start. Qed.

Lemma in_queue_reachable s0 t queue :
  Forall (entry_ok s0) queue -> in_queue t queue -> reachable s0 t.
Proof.
  intros Hq (p & k & Hin). rewrite Forall_forall in Hq.
  by eapply entry_ok_reachable, Hq.
Qed.

(** The loop over the moves of one state keeps the invariant. *)
Lemma expand_keeps_inv s0 d E g path rest visited possible :
  wf_game s0 ->
  bfs_inv s0 d E ((g, path, d) :: rest) visited ->
  get_possible_moves g = Ok possible ->
  forall moves handled qa va r,
    possible = handled ++ moves ->
    expanding s0 d E g rest handled qa va ->
    expand g path d moves qa va = Ok r ->
    match r with
    | inl _ => True
    | inr (queue', visited') => bfs_inv s0 d (g :: E) queue' visited'
    end.
Proof.
  intros Hwf0 [Hent Hlay Hnear Hsucc Hvis Hdone] Hposs.
  apply Forall_cons in Hent as [Hhead Hent].
  pose proof Hhead as (ms0 & Hrun0 & Hpath0 & Hd0 & Hnw0). simpl in *.
  induction moves as [|[[pc np] dn] moves IH]; intros handled qa va r Hsplit Hexp; simpl.
  - intros [= <-]. rewrite app_nil_r in Hsplit. subst handled.
    destruct Hexp as [(added & -> & Hadded) Hqa Hhandled Hva].
    constructor.
    + done.
    + destruct Hlay as (q1 & q2 & Hq & H1 & H2). destruct q1 as [|e q1].
      * simpl in Hq. subst q2. apply Forall_cons in H2 as [H2 _]. simpl in H2. lia.
      * injection Hq as <- ->. apply Forall_cons in H1 as [_ H1].
        exists q1, (q2 ++ added). rewrite <- app_assoc.
        split_and!; [done..|]. by apply Forall_app.
    + intros t Ht. destruct (Hnear t Ht) as [Hw [H|[p H]]].
      * split; [done|]. left. apply elem_of_cons. by right.
      * split; [done|]. apply elem_of_cons in H as [[= -> ->]|H].
        -- left. apply elem_of_cons. by left.
        -- right. exists p. apply elem_of_app. by left.
    + intros s t [->|Hs]%elem_of_cons Hstep.
      * destruct Hstep as (ms' & pc & np & dn & Hms' & Hin & Happ).
        rewrite Hposs in Hms'. injection Hms' as <-.
        destruct (Hhandled _ t Hin Happ) as [Hw [->|[H|H]]].
        -- split; [done|]. left. apply elem_of_cons. by left.
        -- split; [done|]. left. apply elem_of_cons. by right.
        -- by auto.
      * destruct (Hsucc s t Hs Hstep) as [Hw [H|H]].
        -- split; [done|]. left. apply elem_of_cons. by right.
        -- split; [done|]. apply in_queue_cons in H as [->|H].
           ++ left. apply elem_of_cons. by left.
           ++ right. apply in_queue_app. by left.
    + intros k Hk. destruct (Hva k Hk) as (t & [->|[H|H]] & Hkey).
      * exists g. split; [|done]. left. apply elem_of_cons. by left.
      * exists t. split; [|done]. left. apply elem_of_cons. by right.
      * exists t. by auto.
    + intros t [->|Ht]%elem_of_cons; [by exists ms0|by apply Hdone].
  - intros H. inv_bind H.
    assert ((pc, np, dn) ∈ possible) as Hin.
    { rewrite Hsplit. apply elem_of_app. right. apply elem_of_cons. by left. }
    pose proof (run_snoc _ _ _ _ _ _ _ _ Hrun0 Hposs Hin Ha) as Hrun'.
    destruct (is_win a) eqn:Hw; [by injection H as <-|].
    assert (possible = (handled ++ [(pc, np, dn)]) ++ moves) as Hsplit'.
    { by rewrite <- app_assoc. }
    destruct Hexp as [(added & Hqa_eq & Hadded) Hqa Hhandled Hva].
    revert H. case_decide as Hvisited; intros H.
    + apply (IH (handled ++ [(pc, np, dn)]) qa va r Hsplit'); [|done].
      constructor; [by exists added|done| |done].
      intros m t [Hm|Hm%list_elem_of_singleton]%elem_of_app Happ; [by apply (Hhandled m)|].
      subst m. simpl in Happ. rewrite Ha in Happ. injection Happ as <-.
      split; [done|].
      destruct (Hva _ Hvisited) as (t' & Ht' & Hkey).
      assert (t' = a) as <-; [|done].
      apply (state_key_inj s0); [done| |by eapply run_reachable_start|done].
      destruct Ht' as [->|[Ht'|Ht']].
      * by eapply run_reachable_start.
      * destruct (Hdone _ Ht') as [ms' Hms']. by eapply run_reachable_start.
      * by eapply in_queue_reachable.
    + eapply (IH (handled ++ [(pc, np, dn)]) _ _ r Hsplit'); [|exact H].
      assert (in_queue a (qa ++ [(a, path ++ [move_str pc dn], d + 1)])) as Hinq.
      { apply in_queue_app. right. exists (path ++ [move_str pc dn]), (d + 1).
        by apply list_elem_of_singleton. }
      constructor.
      * exists (added ++ [(a, path ++ [move_str pc dn], d + 1)]).
        rewrite Hqa_eq, <- app_assoc. split; [done|]. apply Forall_app.
        split; [done|]. by apply Forall_singleton.
      * apply Forall_app. split; [done|]. apply Forall_singleton.
        exists (ms0 ++ [(pc, np, dn)]). simpl.
        split_and!; [done| |rewrite length_app; simpl; lia|done].
        by rewrite Hpath0, fmap_app.
      * intros m t [Hm|Hm%list_elem_of_singleton]%elem_of_app Happ.
        -- destruct (Hhandled m t Hm Happ) as [Hwt [H1|[H1|H1]]]; split; try done; auto.
           right; right. apply in_queue_app. by left.
        -- subst m. simpl in Happ. rewrite Ha in Happ. injection Happ as <-. by auto.
      * intros k [->|Hk]%elem_of_cons; [exists a; by auto|].
        destruct (Hva k Hk) as (t & [H1|[H1|H1]] & Hkey); exists t; split; auto.
        right; right. apply in_queue_app. by left.
Qed.

(** The path the loop returns is no longer than any winning run. *)
Lemma bfs_loop_shortest s0 max_depth fuel :
  wf_game s0 ->
  forall d E queue visited path,
    0 <= d ->
    bfs_inv s0 d E queue visited ->
    bfs_loop fuel max_depth queue visited = Ok (Some path) ->
    forall ms t, run s0 ms t -> is_win t = true -> (length path <= length ms)%nat.
Proof.
  intros Hwf0. induction fuel as [|fuel IH]; intros d E queue visited path Hd Hinv.
  - destruct queue as [|[[g p] k] queue]; simpl; done.
  - destruct queue as [|[[g p] k] queue]; simpl; [done|].
    (* the head of the queue belongs to the layer of the invariant *)
    assert (exists d', 0 <= d' /\ k = d' /\ bfs_inv s0 d' E ((g, p, k) :: queue) visited)
      as (d' & Hd' & -> & Hinv').
    { destruct (inv_layers _ _ _ _ _ Hinv) as (q1 & q2 & Hq & H1 & H2).
      destruct q1 as [|e q1].
      - simpl in Hq. subst q2. exists (d + 1). split; [lia|].
        apply Forall_cons in H2 as H2'. destruct H2' as [Hk _]. simpl in Hk.
        split; [done|]. by apply bfs_inv_shift.
      - injection Hq as <- Hq. apply Forall_cons in H1 as [Hk _]. simpl in Hk.
        exists d. by subst k. }
    clear d Hd Hinv.
    destruct (decide (d' >= max_depth)) as [Hge|Hlt].
    { intros H. exfalso. apply (bfs_loop_exhausted _ _ _ _ _ ) in H; [done|].
      destruct (inv_layers _ _ _ _ _ Hinv') as (q1 & q2 & Hq & H1 & H2).
      assert (Forall (fun e : entry => e.2 >= max_depth) ((g, p, d') :: queue)) as Hall.
      { rewrite Hq. apply Forall_app. split.
        - eapply Forall_impl; [exact H1|]. simpl. intros; lia.
        - eapply Forall_impl; [exact H2|]. simpl. intros; lia. }
      by apply Forall_cons in Hall as [_ Hall]. }
    intros H. inv_bind H. inv_bind H.
    pose proof (inv_entries _ _ _ _ _ Hinv') as Hent.
    apply Forall_cons in Hent as [Hhead Hent].
    pose proof (expand_sound s0 g p d' a a queue visited a0 Hhead Ha ltac:(done) Hent Ha0)
      as Hsound.
    pose proof (expand_keeps_inv s0 d' E g p queue visited a Hwf0 Hinv' Ha a [] queue
                  visited a0 eq_refl) as Hkeep.
    destruct a0 as [new_path|[queue' visited']].
    + injection H as <-. destruct Hsound as (ms1 & t1 & _ & _ & -> & Hlen).
      intros ms t Hrun Hwin. rewrite length_fmap.
      destruct (decide (Z.of_nat (length ms) <= d')) as [Hle|Hgt]; [|lia].
      exfalso. destruct (inv_near _ _ _ _ _ Hinv' t) as [Hw _]; [by exists ms|].
      congruence.
    + apply (IH d' (g :: E) queue' visited' path Hd'); [|exact H].
      apply Hkeep; [|done].
      constructor.
      * exists []. rewrite app_nil_r. split; [done|constructor].
      * done.
      * intros m t Hm. by apply elem_of_nil in Hm.
      * intros k Hk. destruct (inv_visited _ _ _ _ _ Hinv' k Hk) as (t & [H1|H1] & Hkey).
        -- exists t. by auto.
        -- apply in_queue_cons in H1 as [Ht|H1]; exists t; simpl in *; auto.
Qed.

Lemma bfs_inv_start s0 :
  is_win s0 = false -> bfs_inv s0 0 [] [(s0, [], 0)] [state_key s0].
Proof.
  intros Hw. constructor.
  - apply Forall_singleton. exists []. simpl. split_and!; [apply run_nil|done..].
  - exists [(s0, [], 0)], []. split_and!; [done| |constructor]. by apply Forall_singleton.
  - intros t (ms & Hrun & Hlen). destruct ms; [|simpl in Hlen; lia].
    inversion Hrun; subst. split; [done|]. right. exists []. by apply list_elem_of_singleton.
  - intros s t Hs. by apply elem_of_nil in Hs.
  - intros k ->%list_elem_of_singleton. exists s0. split; [|done]. right.
    exists [], 0. by apply list_elem_of_singleton.
  - intros t Ht. by apply elem_of_nil in Ht.
Qed.

Lemma bfs_path_shortest fuel s0 max_depth path :
  wf_game s0 -> bfs_path fuel s0 max_depth = Ok (Some path) ->
  forall ms t, run s0 ms t -> is_win t = true -> (length path <= length ms)%nat.
Proof.
  intros Hwf. unfold bfs_path. destruct (is_win s0) eqn:Hw.
  - intros [= <-] ms t _ _. simpl. lia.
  - intros H. eapply (bfs_loop_shortest s0 max_depth fuel Hwf 0); [done| |exact H].
    by apply bfs_inv_start.
Qed.

(** C3. When [_is_solvable_bfs] returns a solution for a well-formed
    start board, the solution is the text of a run of legal moves that
    ends on a won board, and no run of legal moves from the start to a
    won board is shorter; when the start board is already won, the
    empty solution is returned at once, whatever the depth bound. *)
Theorem bfs_returns_a_shortest_solution (fuel : nat) (s0 : KubobleGame)
    (max_depth : Z) (solution : str) :
  wf_game s0 ->
  _is_solvable_bfs fuel s0 max_depth = Ok (Some solution) ->
  (exists path,
     bfs_path fuel s0 max_depth = Ok (Some path)
     /\ solution = join (lit ";") path
     /\ (exists ms t, run s0 ms t /\ is_win t = true /\ path = move_text <$> ms)
     /\ (forall ms t, run s0 ms t -> is_win t = true -> (length path <= length ms)%nat))
  /\ (is_win s0 = true ->
      forall fuel' max_depth', _is_solvable_bfs fuel' s0 max_depth' = Ok (Some [])).
Proof.
  intros Hwf H. split.
  - unfold _is_solvable_bfs in H. inv_bind H. destruct a as [path|]; [|done].
    injection H as <-. exists path. split_and!; [done..| |].
    + apply bfs_path_sound in Ha as (ms & t & Hrun & Hw & Hp & _). by exists ms, t.
    + by apply (bfs_path_shortest fuel s0 max_depth).
  - intros Hw fuel' max_depth'. unfold _is_solvable_bfs, bfs_path. by rewrite Hw.
Qed.

Lemma bfs_returns_a_shortest_solution_witness :
  wf_game (new_game (lit "A . ; . a"))
  /\ _is_solvable_bfs 100 (new_game (lit "A . ; . a")) 20 = Ok (Some (lit "A down;A right"))
  /\ exists path,
       bfs_path 100 (new_game (lit "A . ; . a")) 20 = Ok (Some path)
       /\ lit "A down;A right" = join (lit ";") path
       /\ (exists ms t, run (new_game (lit "A . ; . a")) ms t /\ is_win t = true
                        /\ path = move_text <$> ms)
       /\ (forall ms t, run (new_game (lit "A . ; . a")) ms t -> is_win t = true ->
             (length path <= length ms)%nat).
Proof.
  assert (_is_solvable_bfs 100 (new_game (lit "A . ; . a")) 20
          = Ok (Some (lit "A down;A right"))) as H by by vm_compute.
  split_and!; [apply new_game_wf|exact H|].
  exact (proj1 (bfs_returns_a_shortest_solution 100 (new_game (lit "A . ; . a")) 20
                  (lit "A down;A right") (new_game_wf _) H)).
Defined.

(** ** [apply_move] on the heap *)

Lemma read_rows_app_l h h' rows g :
  read_rows h rows = Some g -> read_rows (h ++ h') rows = Some g.
Proof.
  revert g. induction rows as [|r rows IH]; intros g; simpl; [done|].
  destruct (h !! r) as [[cells| |]|] eqn:E; try done.
  destruct (read_rows h rows) as [g'|]; [|done]. intros [= <-].
  rewrite (lookup_app_l_Some _ _ _ _ E). by rewrite (IH g').
Qed.

Lemma read_rows_length h rows g : read_rows h rows = Some g -> length g = length rows.
Proof.
  revert g. induction rows as [|r rows IH]; intros g; simpl; [by intros [= <-]|].
  destruct (h !! r) as [[cells| |]|]; try done.
  destruct (read_rows h rows) as [g'|]; [|done]. intros [= <-]. simpl. f_equal. by apply IH.
Qed.

(** Copying the rows appends one fresh row object per row. *)
Lemma copy_rows_spec rows h g :
  read_rows h rows = Some g ->
  copy_rows rows h = Ok (seq (length h) (length rows), h ++ (ORow <$> g)).
Proof.
  revert h g. induction rows as [|r rows IH]; intros h g; simpl.
  - intros [= <-]. simpl. by rewrite app_nil_r.
  - destruct (h !! r) as [[cells| |]|] eqn:E; try done.
    destruct (read_rows h rows) as [g'|] eqn:Eg; [|done]. intros [= <-].
    unfold mbind, hm_bind, load_row, alloc. rewrite E.
    rewrite (IH (h ++ [ORow cells]) g') by by apply read_rows_app_l.
    unfold mret, hm_ret. rewrite length_app. simpl.
    rewrite Nat.add_1_r. by rewrite <- app_assoc.
Qed.

(** The fresh rows, read back. *)
Lemma read_rows_fresh h g tl :
  read_rows (h ++ (ORow <$> g) ++ tl) (seq (length h) (length g)) = Some g.
Proof.
  revert h. induction g as [|cells g IH]; intros h; [done|].
  rewrite fmap_cons. cbn [length seq read_rows app].
  rewrite lookup_app_r by lia. rewrite Nat.sub_diag. cbn [lookup list_lookup].
  specialize (IH (h ++ [ORow cells])). rewrite length_app in IH. cbn [length] in IH.
  rewrite Nat.add_1_r in IH. rewrite <- app_assoc in IH. cbn [app] in IH. by rewrite IH.
Qed.

(** An assignment to a cell of the fresh grid is the update of the
    value it holds. *)
Lemma set_cell_fresh h g tl r c v :
  set_cell (length h + length g) r c v
           (h ++ (ORow <$> g) ++ ORows (seq (length h) (length g)) :: tl)
  = match grid_set g r c v with
    | Ok g' => Ok (tt, h ++ (ORow <$> g') ++ ORows (seq (length h) (length g)) :: tl)
    | Raise e => Raise e
    | OutOfFuel => OutOfFuel
    end.
Proof.
  unfold set_cell, grid_set, mbind, hm_bind, outcome_bind, load_rows, load_row, lift, store.
  rewrite lookup_app_r by lia. rewrite lookup_app_r by (rewrite length_fmap; lia).
  rewrite length_fmap. replace (length h + length g - length h - length g)%nat with 0%nat by lia.
  simpl. unfold py_get at 1 2. rewrite length_seq.
  destruct (py_index (length g) r) as [j|] eqn:Ej; [|done].
  assert (j < length g)%nat as Hj.
  { unfold py_index in Ej. simpl in Ej. repeat case_decide; simplify_eq; lia. }
  rewrite lookup_seq_lt by done.
  destruct (lookup_lt_is_Some_2 g j Hj) as [row Hrow]. rewrite Hrow.
  rewrite lookup_app_r by lia. rewrite lookup_app_l by (rewrite length_fmap; lia).
  replace (length h + j - length h)%nat with j by lia.
  rewrite list_lookup_fmap, Hrow. simpl.
  unfold py_set. destruct (py_index (length row) c) as [i|] eqn:Ei; [|done].
  rewrite Ej. do 2 f_equal.
  rewrite insert_app_r_alt by lia. f_equal.
  replace (length h + j - length h)%nat with j by lia.
  rewrite insert_app_l by (rewrite length_fmap; lia). f_equal.
  by rewrite list_fmap_insert.
Qed.

(** [apply_move] on the heap does what [apply_move] does on values: it
    appends the rows of the new grid, the new grid and the new piece
    map, and touches nothing else. *)
Lemma apply_move_heap_spec h self s p d :
  read_game h self = Some s ->
  apply_move_heap self p d h =
  match apply_move s p d with
  | Ok s' =>
      Ok (mkRef (length h + length (grid s)) (S (length h + length (grid s)))
                (targets_ref self) (width s) (height s),
          h ++ (ORow <$> grid s')
            ++ [ORows (seq (length h) (length (grid s))); ODict (pieces s')])
  | Raise e => Raise e
  | OutOfFuel => OutOfFuel
  end.
Proof.
  unfold read_game.
  destruct (h !! grid_ref self) as [[|rows|]|] eqn:Eg; try done.
  destruct (h !! pieces_ref self) as [[| |ps]|] eqn:Ep; try done.
  destruct (h !! targets_ref self) as [[| |ts]|] eqn:Et; try done.
  destruct (read_rows h rows) as [g|] eqn:Er; [|done]. intros [= <-]. simpl.
  pose proof (read_rows_length _ _ _ Er) as Hlen.
  unfold apply_move_heap, apply_move. simpl.
  unfold mbind at 1. unfold hm_bind at 1. unfold load_rows at 1. rewrite Eg.
  unfold mbind at 1. unfold hm_bind at 1. rewrite (copy_rows_spec _ _ _ Er).
  unfold mbind at 1. unfold hm_bind at 1. unfold alloc at 1.
  unfold mbind at 1. unfold hm_bind at 1. unfold load_dict at 1.
  rewrite (lookup_app_l_Some _ _ _ _ (lookup_app_l_Some _ _ _ _ Ep)).
  unfold mbind at 1. unfold hm_bind at 1. unfold alloc at 1.
  unfold mbind at 1. unfold hm_bind at 1. unfold load_dict at 1.
  rewrite (lookup_app_l_Some _ _ _ _ (lookup_app_l_Some _ _ _ _
             (lookup_app_l_Some _ _ _ _ Ep))).
  destruct (dict_get p ps) as [[old_r old_c]|]; [|done].
  destruct d as [new_r new_c].
  rewrite !length_app, length_fmap. simpl. rewrite <- !app_assoc. simpl.
  rewrite <- Hlen.
  unfold mbind at 1. unfold hm_bind at 1. rewrite set_cell_fresh.
  destruct (grid_set g old_r old_c (lit ".")) as [g1| |] eqn:E1; simpl; [|done..].
  assert (length g1 = length g) as Hl1.
  { unfold grid_set in E1. inv_bind E1. inv_bind E1. unfold py_set in E1.
    destruct (py_index _ _); [|done]. injection E1 as <-. by rewrite length_insert. }
  unfold mbind at 1. unfold hm_bind at 1. rewrite <- Hl1 at 1 2. rewrite set_cell_fresh.
  destruct (grid_set g1 new_r new_c p) as [g2| |] eqn:E2; simpl; [|done..].
  assert (length g2 = length g) as Hl2.
  { unfold grid_set in E2. inv_bind E2. inv_bind E2. unfold py_set in E2.
    destruct (py_index _ _); [|done]. injection E2 as <-. by rewrite length_insert. }
  unfold mbind at 1. unfold hm_bind at 1. unfold load_dict at 1.
  rewrite lookup_app_r by lia. rewrite lookup_app_r by (rewrite length_fmap; lia).
  rewrite length_fmap.
  replace (length h + length g + 1 - length h - length g2)%nat with 1%nat by lia. simpl.
  unfold mbind at 1. unfold hm_bind at 1. unfold store, mret, hm_ret.
  rewrite Hl1. do 2 f_equal; [f_equal; lia|].
  rewrite insert_app_r_alt by lia. f_equal.
  rewrite insert_app_r_alt by (rewrite length_fmap; lia). f_equal.
  rewrite length_fmap.
  replace (length h + length g + 1 - length h - length g2)%nat with 1%nat by lia. done.
Qed.

Lemma read_game_app_l h h' self s :
  read_game h self = Some s -> read_game (h ++ h') self = Some s.
Proof.
  unfold read_game.
  destruct (h !! grid_ref self) as [[|rows|]|] eqn:Eg; try done.
  destruct (h !! pieces_ref self) as [[| |ps]|] eqn:Ep; try done.
  destruct (h !! targets_ref self) as [[| |ts]|] eqn:Et; try done.
  destruct (read_rows h rows) as [g|] eqn:Er; [|done]. intros [= <-].
  rewrite (lookup_app_l_Some _ _ _ _ Eg), (lookup_app_l_Some _ _ _ _ Ep),
    (lookup_app_l_Some _ _ _ _ Et).
  by rewrite (read_rows_app_l _ _ _ _ Er).
Qed.

Lemma read_game_fields h self s :
  read_game h self = Some s ->
  h !! targets_ref self = Some (ODict (targets s))
  /\ width_ref self = width s /\ height_ref self = height s.
Proof.
  unfold read_game.
  destruct (h !! grid_ref self) as [[|rows|]|] eqn:Eg; try done.
  destruct (h !! pieces_ref self) as [[| |ps]|] eqn:Ep; try done.
  destruct (h !! targets_ref self) as [[| |ts]|] eqn:Et; try done.
  destruct (read_rows h rows) as [g|] eqn:Er; [|done]. by intros [= <-].
Qed.

Lemma lit_dot_not_X : lit "." <> lit "X".
Proof. done. Qed.

(** A move onto a cell of the grid that is no obstacle leaves the
    obstacles where they are. *)
Lemma apply_move_keeps_obstacles s p old d :
  wf_game s -> dict_get p (pieces s) = Some old -> in_grid s d -> ~ is_obstacle s d ->
  exists s', apply_move s p d = Ok s'
    /\ pieces s' = dict_set p d (pieces s) /\ targets s' = targets s
    /\ width s' = width s /\ height s' = height s
    /\ length (grid s') = length (grid s)
    /\ (forall r c, is_obstacle s' (r, c) <-> is_obstacle s (r, c)).
Proof.
  intros Hwf Hp Hd HdX. destruct old as [old_r old_c], d as [new_r new_c].
  destruct (wf_piece s Hwf p _ _ Hp) as (Ho & Hcell_old & HpX).
  pose proof (wf_shape s Hwf) as Hsh.
  eexists. split; [by apply (apply_move_Ok s p (old_r, old_c) (new_r, new_c))|].
  simpl. split_and!; try done.
  - unfold grid_put. by rewrite !length_alter.
  - intros r c. unfold is_obstacle. simpl.
    destruct (decide ((new_r, new_c) = (r, c))) as [[= <- <-]|H1].
    + rewrite cell_grid_put_eq.
      * split; [intros [= ->]; done|]. intros H. by destruct HdX.
      * destruct Hd. apply (cell_is_Some _ (width s) (height s)); [|done..].
        by apply grid_put_shape.
    + rewrite cell_grid_put_ne; [|by destruct Hd; simpl in *; lia..|done].
      destruct (decide ((old_r, old_c) = (r, c))) as [[= <- <-]|H2].
      * rewrite cell_grid_put_eq by by rewrite Hcell_old.
        rewrite Hcell_old. split; intros [= H]; first [done | by destruct HpX].
      * rewrite cell_grid_put_ne; [done|by destruct Ho; simpl in *; lia..|done].
Qed.

(** C9 (as amended).  Let the board [s] be well formed and let the
    destination [d] be a cell of the grid that is no obstacle.  If the
    piece is present, [apply_move] returns a new board on which the
    piece stands on [d] while every other piece, the targets, the
    dimensions and the obstacles are those of [s]; the new grid and the
    new piece map are fresh objects, every object that existed before
    the call is unchanged, and the board the call was made on still
    reads as [s].  If the piece is absent, [apply_move] raises
    [KeyError]. *)
Theorem apply_move_changes_one_piece (h : heap) (self : game_ref) (s : KubobleGame)
    (p : str) (d : pos) :
  read_game h self = Some s -> wf_game s -> in_grid s d -> ~ is_obstacle s d ->
  (dict_get p (pieces s) = None ->
     apply_move s p d = Raise KeyError /\ apply_move_heap self p d h = Raise KeyError)
  /\ (is_Some (dict_get p (pieces s)) ->
      exists self' h' s',
        apply_move_heap self p d h = Ok (self', h')
        /\ apply_move s p d = Ok s'
        /\ read_game h' self' = Some s'
        /\ dict_get p (pieces s') = Some d
        /\ (forall q, q <> p -> dict_get q (pieces s') = dict_get q (pieces s))
        /\ targets s' = targets s /\ width s' = width s /\ height s' = height s
        /\ obstacles s' = obstacles s
        /\ read_game h' self = Some s
        /\ (forall l o, h !! l = Some o -> h' !! l = Some o)
        /\ (length h <= grid_ref self')%nat /\ (length h <= pieces_ref self')%nat
        /\ targets_ref self' = targets_ref self).
Proof.
  intros Hread Hwf Hd HdX. split.
  - intros Hnone. rewrite (apply_move_heap_spec h self s p d Hread).
    by rewrite (apply_move_KeyError s p d Hnone).
  - intros [old Hp].
    destruct (apply_move_keeps_obstacles s p old d Hwf Hp Hd HdX)
      as (s' & Happ & Hps & Hts & Hw & Hh & Hlen & Hob).
    pose proof (apply_move_heap_spec h self s p d Hread) as Hheap. rewrite Happ in Hheap.
    destruct (read_game_fields h self s Hread) as (Ht & Hwr & Hhr).
    eexists _, _, s'. split; [exact Hheap|]. split_and!; try done.
    + unfold read_game. simpl.
      rewrite lookup_app_r by lia. rewrite lookup_app_r by (rewrite length_fmap; lia).
      rewrite length_fmap.
      replace (length h + length (grid s) - length h - length (grid s'))%nat
        with 0%nat by lia. simpl.
      rewrite lookup_app_r by lia. rewrite lookup_app_r by (rewrite length_fmap; lia).
      rewrite length_fmap.
      replace (S (length h + length (grid s)) - length h - length (grid s'))%nat
        with 1%nat by lia. simpl.
      rewrite (lookup_app_l_Some _ _ _ _ Ht).
      rewrite <- Hlen, read_rows_fresh. destruct s'; simpl in *. congruence.
    + rewrite Hps. apply dict_get_set_eq.
    + intros q Hq. rewrite Hps. by apply dict_get_set_ne.
    + by apply obstacles_ext.
    + by apply read_game_app_l.
    + intros l o Hl. by apply lookup_app_l_Some.
    + simpl. lia.
    + simpl. lia.
Qed.

Lemma apply_move_changes_one_piece_witness :
  let h := [ORow [lit "A"; lit "."]; ORow [lit "."; lit "."]; ORows [0; 1]%nat;
            ODict [(lit "A", (0, 0))]; ODict [(lit "a", (1, 1))]] in
  let self := mkRef 2 3 4 2 2 in
  let s := new_game (lit "A . ; . a") in
  read_game h self = Some s /\ in_grid s (1, 0) /\ ~ is_obstacle s (1, 0)
  /\ exists self' h' s',
       apply_move_heap self (lit "A") (1, 0) h = Ok (self', h')
       /\ apply_move s (lit "A") (1, 0) = Ok s'
       /\ read_game h' self = Some s
       /\ obstacles s' = obstacles s.
Proof.
  intros h self s.
  assert (read_game h self = Some s) as Hread by by vm_compute.
  assert (in_grid s (1, 0)) as Hin by by vm_compute.
  assert (~ is_obstacle s (1, 0)) as HX by by vm_compute.
  split_and!; [done..|].
  destruct (proj2 (apply_move_changes_one_piece h self s (lit "A") (1, 0)
                     Hread (new_game_wf _) Hin HX))
    as (self' & h' & s' & H1 & H2 & _ & _ & _ & _ & _ & _ & H3 & H4 & _).
  { exists (0, 0). by vm_compute. }
  by exists self', h', s'.
Defined.

(** A destination on an obstacle: on the new board the obstacle is gone. *)
Lemma apply_move_onto_obstacle_erases_it :
  exists s1, apply_move (new_game (lit "A X")) (lit "A") (0, 1) = Ok s1
             /\ lit "A" ∈ keys (pieces (new_game (lit "A X")))
             /\ obstacles (new_game (lit "A X")) = [(0, 1)]
             /\ obstacles s1 = [].
Proof.
  eexists. split_and!;
    [by vm_compute | apply (bool_decide_unpack _); by vm_compute | by vm_compute..].
Qed.

(** ** Reading back a joined grid of tokens *)

Lemma coords_to_level_string_grid w h P T O :
  _coords_to_level_string w h P T O = join (lit ";") (join (lit " ") <$> level_grid w h P T O).
Proof.
  unfold _coords_to_level_string, level_grid.
  by destruct (place_pieces w h P (place_obstacles w h O (blank_grid w h), T)).
Qed.

Lemma strip_edge_clean s : edge_clean s -> strip s = s.
Proof. intros [H1 H2]. by apply strip_id. Qed.

Lemma edge_clean_nil : edge_clean [].
Proof. split; intros c; done. Qed.

Lemma edge_clean_app_sep a x b :
  edge_clean a -> edge_clean b -> is_space x = false -> edge_clean (a ++ x :: b).
Proof.
  intros [Ha1 Ha2] [Hb1 Hb2] Hx. split; intros c.
  - destruct a as [|c0 a]; simpl; [by intros [= <-]|]. intros [= <-]. by apply Ha1.
  - rewrite last_app. destruct b as [|c0 b].
    + simpl. by intros [= <-].
    + rewrite last_cons. destruct (last (c0 :: b)) as [cl|] eqn:E.
      * intros [= <-]. by apply Hb2.
      * exfalso. by apply last_None in E.
Qed.

Lemma edge_clean_plain s : Forall (fun c => is_space c = false) s -> edge_clean s.
Proof.
  intros H. rewrite Forall_forall in H. split; intros c Hc; apply H.
  - destruct s; simplify_eq/=. apply elem_of_cons. by left.
  - apply last_Some in Hc as [l' ->]. apply elem_of_app. right.
    by apply list_elem_of_singleton.
Qed.

(** A row of tokens joined by spaces. *)
Lemma join_tokens_edge toks :
  Forall (fun t : str => t <> [] /\ Forall (fun c => is_space c = false) t) toks ->
  edge_clean (join (lit " ") toks) /\ (toks <> [] -> join (lit " ") toks <> []).
Proof.
  induction 1 as [|t toks [Ht Hsp] Htoks [IH1 IH2]].
  - split; [apply edge_clean_nil|done].
  - destruct toks as [|t' toks].
    + simpl. split; [by apply edge_clean_plain|done].
    + rewrite join_cons2. split; [|by destruct t].
      specialize (IH2 ltac:(done)).
      destruct IH1 as [_ IHl]. pose proof (edge_clean_plain t Hsp) as [Hh _].
      split; intros c.
      * destruct t as [|c0 t]; [done|]. simpl. intros [= <-]. by apply Hh.
      * rewrite last_app.
        destruct (last (lit " " ++ join (lit " ") (t' :: toks))) as [cl|] eqn:E.
        -- intros [= <-]. change (lit " " ++ ?x) with (" "%char :: x) in E.
           rewrite last_cons in E.
           destruct (last (join (lit " ") (t' :: toks))) as [cl'|] eqn:E'.
           ++ injection E as <-. by apply IHl.
           ++ apply last_None in E'. done.
        -- apply last_None in E. done.
Qed.

Lemma nice_token_plain tok :
  nice_token tok ->
  tok <> [] /\ Forall (fun c => is_space c = false) tok
  /\ Forall (fun c => is_char ";" c = false) tok
  /\ Forall (fun c => is_char " " c = false) tok.
Proof.
  intros (Hne & Hc & _). split_and!; [done|..].
  - eapply Forall_impl; [exact Hc|]. by intros c [? ?].
  - eapply Forall_impl; [exact Hc|]. intros c [? ?]. by apply bool_decide_eq_false.
  - eapply Forall_impl; [exact Hc|]. intros c [Hsp ?]. apply bool_decide_eq_false.
    intros ->. done.
Qed.

Lemma contains_false ch s : Forall (fun c => is_char ch c = false) s -> contains ch s = false.
Proof.
  unfold contains. induction 1 as [|c s Hc _ IH]; simpl; [done|]. by rewrite Hc, IH.
Qed.

Lemma filter_nonempty_id (toks : list str) :
  Forall (fun t => t <> []) toks -> filter (fun t => nonempty t = true) toks = toks.
Proof.
  induction 1 as [|t toks Ht _ IH]; [done|].
  rewrite filter_cons_True by by destruct t. by rewrite IH.
Qed.

(** [row_tokens] undoes [" ".join] on nice tokens. *)
Lemma row_tokens_join toks : Forall nice_token toks -> row_tokens (join (lit " ") toks) = toks.
Proof.
  intros Hnice.
  assert (Forall (fun t : str => t <> [] /\ Forall (fun c => is_space c = false) t) toks)
    as Hplain.
  { eapply Forall_impl; [exact Hnice|]. intros t Ht.
    by destruct (nice_token_plain t Ht) as (? & ? & _). }
  destruct (join_tokens_edge toks Hplain) as [Hedge Hne].
  unfold row_tokens. rewrite (strip_edge_clean _ Hedge).
  destruct toks as [|t toks]; [done|].
  specialize (Hne ltac:(done)).
  destruct (join (lit " ") (t :: toks)) as [|c0 row] eqn:Erow; [done|]. simpl negb. cbn iota.
  rewrite <- Erow. clear c0 row Erow Hne Hedge Hplain.
  destruct toks as [|t' toks].
  - simpl. rewrite Forall_singleton in Hnice.
    destruct (nice_token_plain t Hnice) as (Hne & _ & _ & Hsp).
    rewrite (contains_false " " t Hsp).
    destruct Hnice as (_ & _ & [->|Hdot]); [done|].
    rewrite contains_false; [done|].
    eapply Forall_impl; [exact Hdot|]. intros c Hc. by apply bool_decide_eq_false.
  - assert (contains " " (join (lit " ") (t :: t' :: toks)) = true) as ->.
    { rewrite join_cons2. unfold contains. rewrite existsb_app. apply orb_true_iff. by right. }
    unfold split_on. change (lit " ") with [" "%char]. rewrite split_by_join.
    + apply filter_nonempty_id. eapply Forall_impl; [exact Hnice|]. by intros ? (? & _).
    + done.
    + done.
    + eapply Forall_impl; [exact Hnice|]. intros t0 Ht0.
      by destruct (nice_token_plain t0 Ht0) as (_ & _ & _ & ?).
Qed.

Lemma join_tokens_no_semicolon toks :
  Forall nice_token toks -> Forall (fun c => is_char ";" c = false) (join (lit " ") toks).
Proof.
  induction 1 as [|t toks Ht Htoks IH]; [constructor|].
  destruct (nice_token_plain t Ht) as (_ & _ & Hsemi & _).
  destruct toks as [|t' toks]; [done|]. rewrite join_cons2.
  apply Forall_app. split; [done|]. apply Forall_app. split; [|done].
  by apply Forall_singleton.
Qed.

(** The text of the rows is edge clean. *)
Lemma join_rows_edge rows :
  Forall edge_clean rows -> edge_clean (join (lit ";") rows).
Proof.
  induction 1 as [|r rows Hr Hrows IH]; [apply edge_clean_nil|].
  destruct rows as [|r' rows]; [done|]. rewrite join_cons2.
  change (lit ";" ++ ?x) with (";"%char :: x). by apply edge_clean_app_sep.
Qed.

(** The first loop of the parser gives back a grid of nice tokens. *)
Lemma tokenize_level_text (G : grid_t) :
  G <> [] -> Forall (Forall nice_token) G ->
  row_tokens <$> split_on ";" (strip (join (lit ";") (join (lit " ") <$> G))) = G.
Proof.
  intros Hne HG.
  rewrite strip_edge_clean.
  - unfold split_on. change (lit ";") with [";"%char]. rewrite split_by_join.
    + rewrite <- list_fmap_compose. rewrite <- (list_fmap_id G) at 2.
      apply Forall_fmap_ext. eapply Forall_impl; [exact HG|].
      intros toks Htoks. by apply row_tokens_join.
    + done.
    + by destruct G.
    + apply Forall_fmap. eapply Forall_impl; [exact HG|].
      intros toks Htoks. by apply join_tokens_no_semicolon.
  - apply join_rows_edge. apply Forall_fmap. eapply Forall_impl; [exact HG|].
    intros toks Htoks. apply join_tokens_edge.
    eapply Forall_impl; [exact Htoks|]. intros t Ht.
    by destruct (nice_token_plain t Ht) as (? & ? & _).
Qed.

(** ** What the parser records for a grid of tokens *)

Lemma parse_level_tokens level_string :
  _parse_level level_string
  = board_of_tokens (row_tokens <$> split_on ";" (strip level_string)).
Proof.
  unfold _parse_level, board_of_tokens. rewrite length_fmap.
  case_decide as Hh; [|done]. exfalso.
  assert (split_on ";" (strip level_string) <> []) as Hne.
  { unfold split_on. generalize (strip level_string). intros s.
    destruct s as [|c s]; simpl; [done|]. destruct (is_char _ c); [done|].
    by destruct (split_by _ s). }
  destruct (split_on ";" (strip level_string)); [done|]. simpl in Hh. lia.
Qed.

Lemma scan_row_keys w r c toks pt :
  Z.of_nat (c + length toks) <= w ->
  (forall k, k ∈ keys pt.1 -> k ∈ keys (scan_row w r c toks pt).1)
  /\ (forall k, k ∈ keys pt.2 -> k ∈ keys (scan_row w r c toks pt).2)
  /\ (forall i tok k, toks !! i = Some tok -> token_piece tok = Some k ->
        k ∈ keys (scan_row w r c toks pt).1)
  /\ (forall i tok k, toks !! i = Some tok -> token_target tok = Some k ->
        k ∈ keys (scan_row w r c toks pt).2).
Proof.
  revert c pt. induction toks as [|tok toks IH]; intros c pt Hw; simpl.
  - split_and!; try done.
  - rewrite decide_False by (simpl in Hw; lia).
    destruct (scan_token tok) as [pc tc] eqn:E.
    set (pt' := (match pc with Some p => dict_set [p] (r, Z.of_nat c) pt.1 | None => pt.1 end,
                 match tc with Some t => dict_set [t] (r, Z.of_nat c) pt.2 | None => pt.2 end)).
    destruct (IH (S c) pt') as (H1 & H2 & H3 & H4); [simpl in *; lia|].
    split_and!.
    + intros k Hk. apply H1. unfold pt'. simpl. destruct pc; [|done].
      apply keys_dict_set_elem. by right.
    + intros k Hk. apply H2. unfold pt'. simpl. destruct tc; [|done].
      apply keys_dict_set_elem. by right.
    + intros [|i] tok' k Hi Hk; [|by eapply H3].
      simpl in Hi. injection Hi as <-. apply H1. unfold pt'. simpl.
      unfold token_piece in Hk. rewrite E in Hk. simpl in Hk.
      destruct pc as [p|]; [|done]. injection Hk as <-.
      apply keys_dict_set_elem. by left.
    + intros [|i] tok' k Hi Hk; [|by eapply H4].
      simpl in Hi. injection Hi as <-. apply H2. unfold pt'. simpl.
      unfold token_target in Hk. rewrite E in Hk. simpl in Hk.
      destruct tc as [t|]; [|done]. injection Hk as <-.
      apply keys_dict_set_elem. by left.
Qed.

Lemma scan_rows_keys w r rows pt :
  Forall (fun toks : list str => Z.of_nat (length toks) <= w) rows ->
  (forall k, k ∈ keys pt.1 -> k ∈ keys (scan_rows w r rows pt).1)
  /\ (forall k, k ∈ keys pt.2 -> k ∈ keys (scan_rows w r rows pt).2)
  /\ (forall i j toks tok k, rows !! i = Some toks -> toks !! j = Some tok ->
        token_piece tok = Some k -> k ∈ keys (scan_rows w r rows pt).1)
  /\ (forall i j toks tok k, rows !! i = Some toks -> toks !! j = Some tok ->
        token_target tok = Some k -> k ∈ keys (scan_rows w r rows pt).2).
Proof.
  revert r pt. induction rows as [|toks rows IH]; intros r pt Hw; simpl.
  - split_and!; done.
  - apply Forall_cons in Hw as [Hw0 Hw].
    destruct (scan_row_keys w (Z.of_nat r) 0 toks pt) as (R1 & R2 & R3 & R4);
      [simpl; lia|].
    destruct (IH (S r) (scan_row w (Z.of_nat r) 0 toks pt) Hw) as (H1 & H2 & H3 & H4).
    split_and!.
    + intros k Hk. by apply H1, R1.
    + intros k Hk. by apply H2, R2.
    + intros [|i] j toks' tok k Hi Hj Hk; [|by eapply H3].
      simpl in Hi. injection Hi as <-. apply H1. by eapply R3.
    + intros [|i] j toks' tok k Hi Hj Hk; [|by eapply H4].
      simpl in Hi. injection Hi as <-. apply H2. by eapply R4.
Qed.

Lemma scan_all_covered prt :
  names_covered token_piece prt (scan_rows (max_width prt) 0 prt ([], [])).1
  /\ names_covered token_target prt (scan_rows (max_width prt) 0 prt ([], [])).2.
Proof.
  destruct (scan_rows_keys (max_width prt) 0 prt ([], [])) as (_ & _ & H3 & H4).
  { apply Forall_forall. intros toks Hin. by apply max_width_bound. }
  split; intros r c tok k Hr Hc Htok Hk; unfold tok_at in Htok;
    destruct (prt !! Z.to_nat r) as [toks|] eqn:E; try done.
  - by eapply H3.
  - by eapply H4.
Qed.

(** When a name occurs once, the scanned dictionary maps it to its cell. *)
Lemma scanned_lookup sel prt d k r c :
  entries_from sel prt d -> names_covered sel prt d -> names_once sel prt ->
  0 <= r -> 0 <= c ->
  dict_get k d = Some (r, c) <-> exists tok, tok_at prt r c = Some tok /\ sel tok = Some k.
Proof.
  intros [Hnd Hent] Hcov Honce Hr Hc. split.
  - intros Hk. destruct (Hent _ _ _ Hk) as (_ & _ & tok & Htok & Hsel). by eauto.
  - intros (tok & Htok & Hsel).
    pose proof (Hcov r c tok k Hr Hc Htok Hsel) as Hin.
    apply dict_get_is_Some in Hin as [[r' c'] Hk]. rewrite Hk. f_equal.
    destruct (Hent _ _ _ Hk) as (Hr' & Hc' & tok' & Htok' & Hsel').
    by apply (Honce r' c' r c tok' tok k).
Qed.

(** ** The grid of tokens behind a level text *)

Lemma fold_left_ext_in {A B} (f f' : A -> B -> A) (l : list B) (a : A) :
  (forall b x, b ∈ l -> f x b = f' x b) -> fold_left f l a = fold_left f' l a.
Proof.
  revert a. induction l as [|b l IH]; intros a H; simpl; [done|].
  rewrite (H b a) by (apply elem_of_cons; by left).
  apply IH. intros b' x Hb'. apply H. apply elem_of_cons. by right.
Qed.

Lemma place_obstacles_shape w h O g w' h' :
  grid_shape g w' h' -> grid_shape (place_obstacles w h O g) w' h'.
Proof.
  unfold place_obstacles.
  apply write_loop_shape with (at_ := id) (val := fun _ => lit "X")
    (cond := fun a : pos => in_range a.1 a.2 h w).
  by intros g' [r c].
Qed.

Lemma place_obstacles_cell w h O r c :
  NoDup O -> 0 <= r < h -> 0 <= c < w ->
  cell (place_obstacles w h O (blank_grid w h)) r c
  = Some (if decide ((r, c) ∈ O) then lit "X" else lit ".").
Proof.
  intros Hnd Hr Hc. unfold place_obstacles. case_decide as Hin.
  - apply write_loop_hit with (at_ := id) (val := fun _ => lit "X") (a := (r, c))
      (cond := fun a : pos => in_range a.1 a.2 h w) (dom := fun _ => True); try done.
    + by intros g' [r' c'].
    + intros a _ Ha. apply in_range_true in Ha. unfold id. lia.
    + by apply Forall_forall.
    + by rewrite list_fmap_id.
    + by apply in_range_true.
    + rewrite blank_grid_cell by done. by eauto.
  - rewrite <- (blank_grid_cell w h r c) by done.
    apply write_loop_miss with (at_ := id) (val := fun _ => lit "X")
      (cond := fun a : pos => in_range a.1 a.2 h w) (dom := fun _ => True).
    + by intros g' [r' c'].
    + intros a _ Ha. apply in_range_true in Ha. unfold id. lia.
    + by apply Forall_forall.
    + intros a Ha Hat. simpl in Hat. subst a. done.
Qed.

Lemma lower_single ch : lower [ch] = [lower_char ch].
Proof. done. Qed.

Lemma lower_char_upper ch :
  is_upper_letter ch = true ->
  is_lower_letter (lower_char ch) = true /\ is_upper_letter (lower_char ch) = false
  /\ is_lower_letter ch = false /\ lower_char ch <> ch.
Proof.
  destruct ch as [[] [] [] [] [] [] [] []]; vm_compute; intros; split_and!; congruence.
Qed.

Lemma upper_letter_code ch :
  is_upper_letter ch = true ->
  65 <= code ch <= 90 /\ lower_char ch = ascii_of_N (Z.to_N (code ch + 32)).
Proof.
  unfold is_upper_letter, lower_char. change (code "A") with 65. change (code "Z") with 90.
  intros H. apply andb_true_iff in H as [H1 H2]. apply Z.leb_le in H1, H2.
  split; [lia|]. rewrite (proj2 (Z.leb_le 65 _) H1), (proj2 (Z.leb_le _ 90) H2). done.
Qed.

Lemma lower_char_inj ch1 ch2 :
  is_upper_letter ch1 = true -> is_upper_letter ch2 = true ->
  lower_char ch1 = lower_char ch2 -> ch1 = ch2.
Proof.
  intros H1 H2 Heq.
  destruct (upper_letter_code ch1 H1) as [B1 E1].
  destruct (upper_letter_code ch2 H2) as [B2 E2].
  rewrite E1, E2 in Heq. apply (f_equal N_of_ascii) in Heq.
  rewrite !N_ascii_embedding in Heq by lia.
  assert (N_of_ascii ch1 = N_of_ascii ch2) as HN by (unfold code in *; lia).
  apply (f_equal ascii_of_N) in HN. by rewrite !ascii_N_embedding in HN.
Qed.

Section PlacePieces.
Variables (w h : Z).

(** The loop over the pieces as a loop that only writes cells: the
    deletions from [targets_pos] never change the test for a later
    piece. *)
Lemma place_pieces_spec P g T :
  NoDup (keys T) ->
  NoDup (lower <$> keys P) ->
  (place_pieces w h P (g, T)).1
  = fold_left (fun g (a : str * pos) =>
                 if in_range a.2.1 a.2.2 h w
                 then grid_put a.2.1 a.2.2 (piece_token T a.1 a.2) g else g) P g
  /\ (forall t x, dict_get t (place_pieces w h P (g, T)).2 = Some x <->
        dict_get t T = Some x
        /\ ~ (exists p, (p, x) ∈ P /\ lower p = t /\ in_range x.1 x.2 h w = true))
  /\ NoDup (keys (place_pieces w h P (g, T)).2)
  /\ (place_pieces w h P (g, T)).2 ⊆ T.
Proof.
  unfold place_pieces. revert g T.
  induction P as [|[p [r c]] P IH]; intros g T HT HP; simpl.
  - split_and!; [done| |done|done]. intros t x. split; [|by intros [? _]].
    intros Ht. split; [done|]. intros (p & Hp & _). by apply elem_of_nil in Hp.
  - unfold keys in HP. rewrite !fmap_cons in HP. apply NoDup_cons in HP as [Hp HP].
    simpl in Hp. change (NoDup (lower <$> keys P)) in HP.
    change (lower p ∉ lower <$> keys P) in Hp.
    destruct (in_range r c h w) eqn:Hin.
    + destruct (decide (dict_get (lower p) T = Some (r, c))) as [Hown|Hown].
      * destruct (IH (grid_put r c (p ++ lower p) g) (dict_del (lower p) T))
          as (IH1 & IH2 & IH3 & IH4); [by apply NoDup_keys_del|done|].
        split_and!.
        -- rewrite IH1.
           replace (piece_token T p (r, c)) with (p ++ lower p)
             by (unfold piece_token; by rewrite decide_True).
           apply fold_left_ext_in. intros [q y] g' Hq. simpl.
           unfold piece_token. rewrite dict_get_del_ne; [done|].
           intros Heq. apply Hp. rewrite Heq.
           apply list_elem_of_fmap_2. by apply (list_elem_of_fmap_2 fst) in Hq.
        -- intros t x. rewrite IH2. destruct (decide (t = lower p)) as [->|Hne].
           ++ rewrite dict_get_del_eq by done. split; [by intros [? _]|].
              intros [Ht Hno]. exfalso. apply Hno. exists p. rewrite Hown in Ht.
              injection Ht as <-. split_and!; [apply elem_of_cons; by left|done..].
           ++ rewrite dict_get_del_ne by done. split; intros [Ht Hno]; (split; [done|]).
              ** intros (q & [Hq|Hq]%elem_of_cons & Hl & Hi); [by simplify_eq|].
                 apply Hno. by exists q.
              ** intros (q & Hq & Hl & Hi). apply Hno. exists q.
                 split_and!; [apply elem_of_cons; by right|done..].
        -- done.
        -- intros e He. apply IH4 in He. destruct e as [k v].
           apply dict_get_Some_elem. apply (elem_dict_get k v) in He;
             [|by apply NoDup_keys_del].
           destruct (decide (k = lower p)) as [->|Hne].
           ++ by rewrite dict_get_del_eq in He.
           ++ by rewrite dict_get_del_ne in He.
      * destruct (IH (grid_put r c p g) T) as (IH1 & IH2 & IH3 & IH4); [done..|].
        split_and!; [|  |done|done].
        -- rewrite IH1.
           replace (piece_token T p (r, c)) with p
             by (unfold piece_token; by rewrite decide_False).
           done.
        -- intros t x. rewrite IH2. split; intros [Ht Hno]; (split; [done|]).
           ++ intros (q & [Hq|Hq]%elem_of_cons & Hl & Hi).
              ** by simplify_eq.
              ** apply Hno. by exists q.
           ++ intros (q & Hq & Hl & Hi). apply Hno. exists q.
              split_and!; [apply elem_of_cons; by right|done..].
    + destruct (IH g T) as (IH1 & IH2 & IH3 & IH4); [done..|].
      split_and!; [done| |done|done].
      intros t x. rewrite IH2. split; intros [Ht Hno]; (split; [done|]).
      * intros (q & [Hq|Hq]%elem_of_cons & Hl & Hi).
        -- simplify_eq. simpl in Hi. congruence.
        -- apply Hno. by exists q.
      * intros (q & Hq & Hl & Hi). apply Hno. exists q.
        split_and!; [apply elem_of_cons; by right|done..].
Qed.

(** The loop over the targets tests cells that no earlier turn wrote,
    when the targets lie on different cells. *)
Lemma place_targets_spec T g0 g :
  NoDup (T.*2) ->
  (forall a, a ∈ T -> cell g a.2.1 a.2.2 = cell g0 a.2.1 a.2.2) ->
  place_targets w h T g
  = fold_left (fun g (a : str * pos) =>
                 if in_range a.2.1 a.2.2 h w
                    && bool_decide (cell g0 a.2.1 a.2.2 = Some (lit "."))
                 then grid_put a.2.1 a.2.2 a.1 g else g) T g.
Proof.
  unfold place_targets. revert g. induction T as [|[t [r c]] T IH]; intros g HT Hg;
    simpl; [done|].
  rewrite fmap_cons in HT. apply NoDup_cons in HT as [Ht HT]. simpl in Ht.
  pose proof (Hg (t, (r, c)) ltac:(apply elem_of_cons; by left)) as Hc. simpl in Hc.
  assert (forall g', (forall r' c', (r', c') <> (r, c) -> cell g' r' c' = cell g r' c') ->
            forall a, a ∈ T -> cell g' a.2.1 a.2.2 = cell g0 a.2.1 a.2.2) as Hrest.
  { intros g' Hg' [t' [r' c']] Ha. simpl.
    rewrite Hg'; [by apply (Hg (t', (r', c'))), elem_of_cons; right|].
    intros [= -> ->]. apply Ht. by apply (list_elem_of_fmap_2 snd) in Ha. }
  destruct (in_range r c h w) eqn:Hin; simpl.
  - apply in_range_true in Hin. rewrite <- Hc.
    destruct (decide (cell g r c = Some (lit "."))) as [Hdot|Hdot].
    + rewrite bool_decide_eq_true_2 by done. apply IH; [done|]. apply Hrest.
      intros r' c' Hne. apply cell_grid_put_ne; [lia..|done].
    + rewrite bool_decide_eq_false_2 by done. apply IH; [done|]. by apply Hrest.
  - apply IH; [done|]. by apply Hrest.
Qed.
End PlacePieces.

Lemma NoDup_snd_inj {K V} (l : list (K * V)) k1 k2 v :
  NoDup (l.*2) -> (k1, v) ∈ l -> (k2, v) ∈ l -> k1 = k2.
Proof.
  induction l as [|[k v'] l IH]; intros Hnd H1 H2; [by apply elem_of_nil in H1|].
  rewrite fmap_cons in Hnd. apply NoDup_cons in Hnd as [Hv Hnd]. simpl in Hv.
  apply elem_of_cons in H1 as [H1|H1]; apply elem_of_cons in H2 as [H2|H2].
  - congruence.
  - simplify_eq. exfalso. apply Hv. by apply (list_elem_of_fmap_2 snd) in H2.
  - simplify_eq. exfalso. apply Hv. by apply (list_elem_of_fmap_2 snd) in H1.
  - by apply IH.
Qed.

Section WriteLoopCell.
Context {A : Type} (f : grid_t -> A -> grid_t).
Context (at_ : A -> pos) (cond : A -> bool) (val : A -> str).
Hypothesis Hf : forall g a,
  f g a = if cond a then grid_put (at_ a).1 (at_ a).2 (val a) g else g.
Hypothesis Hnonneg : forall a, cond a = true -> 0 <= (at_ a).1 /\ 0 <= (at_ a).2.

(** The cell a loop of writes leaves, when no two turns aim at one cell. *)
Lemma write_loop_cell l g r c :
  NoDup (at_ <$> l) -> is_Some (cell g r c) ->
  cell (fold_left f l g) r c
  = match list_find (fun a => at_ a = (r, c)) l with
    | Some (_, a) => if cond a then Some (val a) else cell g r c
    | None => cell g r c
    end.
Proof.
  intros Hnd Hsome.
  assert (Forall (fun _ : A => True) l) as Hdom by by apply Forall_forall.
  destruct (list_find _ l) as [[i a]|] eqn:E.
  - apply list_find_Some in E as (Hi & Hat & _).
    pose proof (list_elem_of_lookup_2 _ _ _ Hi) as Hin.
    destruct (cond a) eqn:Hc.
    + by apply (write_loop_hit f at_ cond val (fun _ => True) Hf
                  (fun a _ => Hnonneg a) l g a r c).
    + apply (write_loop_miss f at_ cond val (fun _ => True) Hf (fun a _ => Hnonneg a));
        [done|].
      intros a' Ha' Hat'. enough (a' = a) by by subst.
      apply list_elem_of_lookup in Ha' as [j Hj].
      assert (i = j) as ->; [|congruence].
      eapply NoDup_lookup; [exact Hnd| |].
      * rewrite list_lookup_fmap, Hi. simpl. by rewrite Hat.
      * rewrite list_lookup_fmap, Hj. simpl. by rewrite Hat'.
  - apply list_find_None in E. rewrite Forall_forall in E.
    apply (write_loop_miss f at_ cond val (fun _ => True) Hf (fun a _ => Hnonneg a));
      [done|].
    intros a' Ha' Hat'. by destruct (E a' Ha').
Qed.
End WriteLoopCell.

Lemma list_find_snd_Some {K} (l : list (K * pos)) x i k y :
  list_find (fun a : K * pos => a.2 = x) l = Some (i, (k, y)) -> y = x /\ (k, x) ∈ l.
Proof.
  intros H. apply list_find_Some in H as (Hi & Hy & _). simpl in Hy. subst y.
  split; [done|]. by eapply list_elem_of_lookup_2.
Qed.

Lemma list_find_snd_None {K} (l : list (K * pos)) x k :
  list_find (fun a : K * pos => a.2 = x) l = None -> (k, x) ∉ l.
Proof.
  intros H Hin. apply list_find_None in H. rewrite Forall_forall in H.
  by apply (H (k, x)).
Qed.

Lemma list_find_snd_elem {K} (l : list (K * pos)) x k :
  NoDup (l.*2) -> (k, x) ∈ l ->
  exists i, list_find (fun a : K * pos => a.2 = x) l = Some (i, (k, x)).
Proof.
  intros Hnd Hin.
  destruct (list_find (fun a : K * pos => a.2 = x) l) as [[i [k' y]]|] eqn:E.
  - apply list_find_snd_Some in E as E'. destruct E' as [-> Hin'].
    exists i. do 3 f_equal. by eapply NoDup_snd_inj.
  - by destruct (list_find_snd_None _ _ k E).
Qed.

Section LevelGrid.
Variables (w h : Z) (P T : dict pos) (O : list pos).
Hypothesis HPk : NoDup (keys P).
Hypothesis HPp : NoDup (P.*2).
Hypothesis HPin : forall p x, (p, x) ∈ P -> 0 <= x.1 < h /\ 0 <= x.2 < w.
Hypothesis HPn : forall p, p ∈ keys P -> exists ch, p = [ch] /\ is_upper_letter ch = true.
Hypothesis HTk : NoDup (keys T).
Hypothesis HTp : NoDup (T.*2).
Hypothesis HO : NoDup O.
Hypothesis HTO : forall t x, (t, x) ∈ T -> x ∉ O.

Lemma lower_keys_NoDup : NoDup (lower <$> keys P).
Proof.
  apply NoDup_fmap_2_strong; [|done].
  intros p1 p2 H1 H2 Heq.
  destruct (HPn p1 H1) as (c1 & -> & Hc1). destruct (HPn p2 H2) as (c2 & -> & Hc2).
  rewrite !lower_single in Heq. injection Heq as Heq.
  f_equal. by apply lower_char_inj.
Qed.

Lemma piece_token_not_dot p x : p ∈ keys P -> piece_token T p x <> lit ".".
Proof.
  intros Hp. destruct (HPn p Hp) as (ch & -> & Hch).
  destruct (upper_letter_plain ch Hch) as (_ & _ & _ & Hdot).
  unfold piece_token. case_decide as Hd; intros HH; [rewrite lower_single in HH|];
    unfold lit in HH; simpl in HH; by simplify_eq.
Qed.

Lemma level_grid_shape : grid_shape (level_grid w h P T O) w h.
Proof.
  unfold level_grid, place_targets. apply fold_put_shape.
  - intros g [t [r c]]. destruct (in_range r c h w); [|by left].
    case_decide; [right; by eauto|by left].
  - destruct (place_pieces_spec w h P (place_obstacles w h O (blank_grid w h)) T HTk
                lower_keys_NoDup) as (-> & _).
    apply write_loop_shape with (at_ := snd) (val := fun a => piece_token T a.1 a.2)
      (cond := fun a : str * pos => in_range a.2.1 a.2.2 h w); [done|].
    apply place_obstacles_shape, blank_grid_shape.
Qed.

(** The cells of the token grid. *)
Lemma level_grid_cell r c :
  0 <= r < h -> 0 <= c < w ->
  cell (level_grid w h P T O) r c = Some (level_token P T O (r, c)).
Proof.
  intros Hr Hc. unfold level_grid.
  set (g1 := place_obstacles w h O (blank_grid w h)).
  destruct (place_pieces_spec w h P g1 T HTk lower_keys_NoDup) as (Hg2 & HT2 & HT2k & HT2s).
  set (gt := place_pieces w h P (g1, T)) in *.
  assert (cell g1 r c = Some (if decide ((r, c) ∈ O) then lit "X" else lit ".")) as Hc1
    by by apply place_obstacles_cell.
  assert (forall r c, 0 <= r < h -> 0 <= c < w ->
    cell gt.1 r c = match list_find (fun a : str * pos => a.2 = (r, c)) P with
                    | Some (_, a) => Some (piece_token T a.1 a.2)
                    | None => cell g1 r c
                    end) as Hc2.
  { intros r' c' Hr' Hc'. rewrite Hg2.
    rewrite (write_loop_cell _ snd (fun a : str * pos => in_range a.2.1 a.2.2 h w)
               (fun a => piece_token T a.1 a.2)); try done.
    - destruct (list_find _ P) as [[i [p y]]|] eqn:E; [|done].
      apply list_find_snd_Some in E as [-> Hin]. simpl.
      destruct (HPin _ _ Hin) as [H1 H2]. simpl in *.
      by rewrite (proj2 (in_range_true r' c' h w)).
    - intros a Ha. apply in_range_true in Ha. lia.
    - unfold g1. rewrite place_obstacles_cell by done. by eauto. }
  assert (NoDup (gt.2.*2)) as HT2p.
  { apply NoDup_snd_of_inj; [done|]. intros k1 k2 v H1 H2.
    eapply NoDup_snd_inj; [exact HTp|by apply HT2s..]. }
  rewrite (place_targets_spec w h gt.2 gt.1 gt.1 HT2p) by done.
  rewrite (write_loop_cell _ snd
             (fun a : str * pos => in_range a.2.1 a.2.2 h w
                                   && bool_decide (cell gt.1 a.2.1 a.2.2 = Some (lit ".")))
             fst); try done.
  - unfold level_token. rewrite (Hc2 r c Hr Hc).
    destruct (list_find (fun a : str * pos => a.2 = (r, c)) P) as [[i [p y]]|] eqn:EP.
    + apply list_find_snd_Some in EP as [-> HinP]. simpl.
      destruct (list_find _ gt.2) as [[j [t y]]|] eqn:ET; [|done].
      apply list_find_snd_Some in ET as [-> HinT]. simpl.
      rewrite (Hc2 r c Hr Hc).
      destruct (list_find_snd_elem P (r, c) p HPp HinP) as [i' ->]. simpl.
      rewrite bool_decide_eq_false_2; [by rewrite andb_false_r|].
      intros [= Heq]. eapply piece_token_not_dot; [|exact Heq].
      by apply (list_elem_of_fmap_2 fst) in HinP.
    + destruct (list_find (fun a : str * pos => a.2 = (r, c)) T) as [[j [t y]]|] eqn:ET.
      * apply list_find_snd_Some in ET as [-> HinT].
        assert ((t, (r, c)) ∈ gt.2) as HinT2.
        { apply dict_get_Some_elem. apply HT2. split; [by apply elem_dict_get|].
          intros (p & Hp & _). by apply (list_find_snd_None P (r, c) p EP). }
        destruct (list_find_snd_elem gt.2 (r, c) t HT2p HinT2) as [j' ->]. simpl.
        rewrite (Hc2 r c Hr Hc), EP, Hc1.
        rewrite (proj2 (in_range_true r c h w)) by done.
        rewrite decide_False by by eapply HTO.
        by rewrite bool_decide_eq_true_2.
      * destruct (list_find _ gt.2) as [[j [t y]]|] eqn:ET2.
        -- apply list_find_snd_Some in ET2 as [-> HinT2]. apply HT2s in HinT2.
           by destruct (list_find_snd_None T (r, c) t ET).
        -- done.
  - intros a Ha. apply andb_true_iff in Ha as [Ha _]. apply in_range_true in Ha. lia.
  - rewrite (Hc2 r c Hr Hc). destruct (list_find _ P) as [[i a]|]; [by eauto|].
    rewrite Hc1. by eauto.
Qed.
End LevelGrid.

(** ** The tokens of a level text, read by the parser *)

Lemma scan_token_upper ch :
  is_upper_letter ch = true -> [ch] <> lit "X" ->
  scan_token [ch] = (Some ch, None).
Proof.
  intros Hch HX. destruct (lower_char_upper ch Hch) as (_ & _ & Hl & _).
  destruct (upper_letter_plain ch Hch) as (_ & _ & _ & Hdot).
  unfold scan_token. rewrite decide_False by done.
  rewrite decide_False by (intros [= ->]; done). by rewrite Hl, Hch.
Qed.

Lemma scan_token_lower ch :
  is_lower_letter ch = true -> scan_token [ch] = (None, Some ch).
Proof.
  intros Hch. destruct (lower_letter_plain ch Hch) as (_ & _ & _ & Hdot).
  unfold scan_token.
  rewrite decide_False by (intros [= ->]; done).
  rewrite decide_False by (intros [= ->]; done). by rewrite Hch.
Qed.

Lemma scan_token_pair ch :
  is_upper_letter ch = true ->
  scan_token [ch; lower_char ch] = (Some ch, Some (lower_char ch)).
Proof.
  intros Hch. destruct (lower_char_upper ch Hch) as (Hll & Hlu & Hl & _).
  unfold scan_token. rewrite !decide_False by done. simpl. by rewrite Hl, Hch, Hll.
Qed.

Lemma scan_token_X : scan_token (lit "X") = (None, None).
Proof. done. Qed.

Lemma scan_token_dot : scan_token (lit ".") = (None, None).
Proof. done. Qed.

Section LevelTokens.
Variables (P T : dict pos) (O : list pos).
Hypothesis HPk : NoDup (keys P).
Hypothesis HPp : NoDup (P.*2).
Hypothesis HPn : forall p, p ∈ keys P -> exists ch, p = [ch] /\ is_upper_letter ch = true.
Hypothesis HPX : lit "X" ∉ keys P.
Hypothesis HPO : forall p x, (p, x) ∈ P -> x ∉ O.
Hypothesis HTk : NoDup (keys T).
Hypothesis HTp : NoDup (T.*2).
Hypothesis HTn : forall t, t ∈ keys T -> exists ch, t = [ch] /\ is_lower_letter ch = true.
Hypothesis HTO : forall t x, (t, x) ∈ T -> x ∉ O.

(** The three shapes of a token. *)
Lemma level_token_cases x :
  (exists p ch, (p, x) ∈ P /\ p = [ch] /\ is_upper_letter ch = true /\ p <> lit "X"
     /\ ((dict_get (lower p) T = Some x /\ level_token P T O x = [ch; lower_char ch])
         \/ (dict_get (lower p) T <> Some x /\ level_token P T O x = [ch])))
  \/ ((forall p, (p, x) ∉ P)
      /\ exists t ch, (t, x) ∈ T /\ t = [ch] /\ is_lower_letter ch = true
                      /\ level_token P T O x = [ch])
  \/ ((forall p, (p, x) ∉ P) /\ (forall t, (t, x) ∉ T)
      /\ level_token P T O x = if decide (x ∈ O) then lit "X" else lit ".").
Proof.
  unfold level_token.
  destruct (list_find (fun a : str * pos => a.2 = x) P) as [[i [p y]]|] eqn:EP.
  - left. apply list_find_snd_Some in EP as [-> Hin].
    assert (p ∈ keys P) as Hk by by apply (list_elem_of_fmap_2 fst) in Hin.
    destruct (HPn p Hk) as (ch & -> & Hch). exists [ch], ch.
    split_and!; [done..|intros HX; apply HPX; by rewrite <- HX|]. unfold piece_token.
    case_decide; [left|right]; done.
  - right.
    assert (forall p, (p, x) ∉ P) as HnoP by (intros p; by apply list_find_snd_None).
    destruct (list_find (fun a : str * pos => a.2 = x) T) as [[i [t y]]|] eqn:ET.
    + left. split; [done|]. apply list_find_snd_Some in ET as [-> Hin].
      assert (t ∈ keys T) as Hk by by apply (list_elem_of_fmap_2 fst) in Hin.
      destruct (HTn t Hk) as (ch & -> & Hch). by exists [ch], ch.
    + right. split_and!; [done| |done]. intros t. by apply list_find_snd_None.
Qed.

Lemma level_token_piece x p :
  token_piece (level_token P T O x) = Some p <-> (p, x) ∈ P.
Proof.
  unfold token_piece.
  destruct (level_token_cases x)
    as [(q & ch & Hq & -> & Hch & HX & [[Hown ->]|[Hown ->]])
       |[(HnoP & t & ch & Ht & -> & Hch & ->)|(HnoP & HnoT & ->)]].
  - rewrite scan_token_pair by done. simpl. split.
    + by intros [= <-].
    + intros Hp. by rewrite (NoDup_snd_inj P _ _ x HPp Hq Hp).
  - rewrite scan_token_upper by done. simpl. split.
    + by intros [= <-].
    + intros Hp. by rewrite (NoDup_snd_inj P _ _ x HPp Hq Hp).
  - rewrite scan_token_lower by done. simpl. split; [done|]. intros Hp. by destruct (HnoP p).
  - split; [|intros Hp; by destruct (HnoP p)]. by case_decide.
Qed.

Lemma level_token_target x t :
  token_target (level_token P T O x) = Some t <->
  (t, x) ∈ T /\ forall p, (p, x) ∈ P -> lower p = t.
Proof.
  unfold token_target.
  destruct (level_token_cases x)
    as [(q & ch & Hq & -> & Hch & HX & [[Hown ->]|[Hown ->]])
       |[(HnoP & t' & ch & Ht & -> & Hch & ->)|(HnoP & HnoT & ->)]].
  - rewrite scan_token_pair by done. simpl. split.
    + intros [= <-]. split; [by apply dict_get_Some_elem in Hown|].
      intros p Hp. by rewrite (NoDup_snd_inj P _ _ x HPp Hp Hq).
    + intros [_ Hall]. f_equal. by apply (Hall [ch]).
  - rewrite scan_token_upper by done. simpl. split; [done|].
    intros [Ht Hall]. exfalso. apply Hown. rewrite (Hall _ Hq). by apply elem_dict_get.
  - rewrite scan_token_lower by done. simpl. split.
    + intros [= <-]. split; [done|]. intros p Hp. by destruct (HnoP p).
    + intros [Ht' _]. f_equal. by eapply NoDup_snd_inj.
  - split; [by case_decide|]. intros [Ht _]. by destruct (HnoT t).
Qed.

Lemma level_token_X x : level_token P T O x = lit "X" <-> x ∈ O.
Proof.
  destruct (level_token_cases x)
    as [(q & ch & Hq & -> & Hch & HX & [[Hown ->]|[Hown ->]])
       |[(HnoP & t' & ch & Ht & -> & Hch & ->)|(HnoP & HnoT & ->)]].
  - split; [done|]. intros Hx. by destruct (HPO _ _ Hq).
  - split; [done|]. intros Hx. by destruct (HPO _ _ Hq).
  - split; [|intros Hx; by destruct (HTO _ _ Ht)].
    intros [= ->]. done.
  - case_decide; [done|]. split; [done|]. done.
Qed.

Lemma level_token_nice x : nice_token (level_token P T O x).
Proof.
  destruct (level_token_cases x)
    as [(q & ch & Hq & -> & Hch & HX & [[Hown ->]|[Hown ->]])
       |[(HnoP & t' & ch & Ht & -> & Hch & ->)|(HnoP & HnoT & ->)]].
  - destruct (upper_letter_plain ch Hch) as (H1 & H2 & _ & H4).
    destruct (lower_char_upper ch Hch) as (Hl & _).
    destruct (lower_letter_plain _ Hl) as (L1 & L2 & _ & L4).
    split_and!; [done|repeat constructor; done|right; repeat constructor; done].
  - destruct (upper_letter_plain ch Hch) as (H1 & H2 & _ & H4).
    split_and!; [done|repeat constructor; done|right; repeat constructor; done].
  - destruct (lower_letter_plain ch Hch) as (H1 & H2 & _ & H4).
    split_and!; [done|repeat constructor; done|right; repeat constructor; done].
  - case_decide.
    + split_and!; [done|repeat constructor; done|right; repeat constructor; done].
    + split_and!; [done|repeat constructor; done|by left].
Qed.
End LevelTokens.

(** ** A written level is read back *)

Lemma tok_at_cell (G : grid_t) r c : 0 <= r -> 0 <= c -> tok_at G r c = cell G r c.
Proof. intros Hr Hc. unfold tok_at, cell. by rewrite decide_True. Qed.

Lemma max_width_fold_le (rows : list (list str)) m b :
  m <= b -> Forall (fun toks : list str => Z.of_nat (length toks) <= b) rows ->
  fold_left (fun current_max_width (toks : list str) =>
               if decide (Z.of_nat (length toks) > current_max_width)
               then Z.of_nat (length toks) else current_max_width) rows m <= b.
Proof.
  revert m. induction rows as [|toks rows IH]; intros m Hm Hall; simpl; [done|].
  apply Forall_cons in Hall as [Ht Hall]. apply IH; [|done]. case_decide; lia.
Qed.

Lemma max_width_shape (G : grid_t) w h :
  grid_shape G w h -> 0 < h -> 0 <= w -> max_width G = w.
Proof.
  intros [Hlen Hrows] Hh Hw.
  assert (max_width G <= w) as Hle.
  { apply max_width_fold_le; [done|]. eapply Forall_impl; [exact Hrows|].
    intros row Hrow. simpl in Hrow. lia. }
  destruct G as [|row G]; [simpl in Hlen; lia|].
  apply Forall_cons in Hrows as [Hrow _].
  pose proof (max_width_bound (row :: G) row ltac:(apply elem_of_cons; by left)). lia.
Qed.

Section RoundTrip.
Variables (w h : Z) (P T : dict pos) (O : list pos).
Hypothesis Hpl : placement w h P T O.

Lemma level_grid_tokens r c :
  0 <= r < h -> 0 <= c < w ->
  tok_at (level_grid w h P T O) r c = Some (level_token P T O (r, c)).
Proof.
  intros Hr Hc. destruct Hpl as [Hh Hw HPk HPp HPin HPn HPX HPO HTk HTp HTn HTO HO]. rewrite tok_at_cell by lia. by apply level_grid_cell.
Qed.

Lemma level_grid_tokens_inv r c tok :
  0 <= r -> 0 <= c -> tok_at (level_grid w h P T O) r c = Some tok ->
  (0 <= r < h /\ 0 <= c < w) /\ tok = level_token P T O (r, c).
Proof.
  intros Hr Hc Htok.
  assert (grid_shape (level_grid w h P T O) w h) as Hsh
    by (destruct Hpl as [Hh Hw HPk HPp HPin HPn HPX HPO HTk HTp HTn HTO HO]; by apply level_grid_shape).
  assert (0 <= r < h /\ 0 <= c < w) as Hin.
  { rewrite tok_at_cell in Htok by done. by eapply cell_Some_in_range. }
  split; [done|]. rewrite level_grid_tokens in Htok by apply Hin. congruence.
Qed.

Lemma level_grid_nice : Forall (Forall nice_token) (level_grid w h P T O).
Proof.
  apply Forall_lookup. intros i row Hi. apply Forall_lookup. intros j tok Hj.
  assert (tok_at (level_grid w h P T O) (Z.of_nat i) (Z.of_nat j) = Some tok) as Htok.
  { unfold tok_at. by rewrite !Nat2Z.id, Hi. }
  apply level_grid_tokens_inv in Htok as [_ ->]; [|lia..].
  destruct Hpl as [Hh Hw HPk HPp HPin HPn HPX HPO HTk HTp HTn HTO HO]. by apply level_token_nice.
Qed.

Lemma level_text_tokens :
  row_tokens <$> split_on ";" (strip (_coords_to_level_string w h P T O))
  = level_grid w h P T O.
Proof.
  rewrite coords_to_level_string_grid. apply tokenize_level_text; [|apply level_grid_nice].
  assert (grid_shape (level_grid w h P T O) w h) as [Hlen _]
    by (destruct Hpl as [Hh Hw HPk HPp HPin HPn HPX HPO HTk HTp HTn HTO HO]; by apply level_grid_shape).
  destruct Hpl as [Hh Hw HPk HPp HPin HPn HPX HPO HTk HTp HTn HTO HO]. intros HG. rewrite HG in Hlen. simpl in Hlen. lia.
Qed.

Lemma level_names_once_pieces : names_once token_piece (level_grid w h P T O).
Proof.
  intros r c r' c' tok tok' k Hr Hc Hr' Hc' Htok Htok' Hk Hk'.
  apply level_grid_tokens_inv in Htok as [_ ->]; [|done..].
  apply level_grid_tokens_inv in Htok' as [_ ->]; [|done..].
  destruct Hpl as [Hh Hw HPk HPp HPin HPn HPX HPO HTk HTp HTn HTO HO].
  apply level_token_piece in Hk; [|done..]. apply level_token_piece in Hk'; [|done..].
  apply elem_dict_get in Hk; [|done]. apply elem_dict_get in Hk'; [|done]. congruence.
Qed.

Lemma level_names_once_targets : names_once token_target (level_grid w h P T O).
Proof.
  intros r c r' c' tok tok' k Hr Hc Hr' Hc' Htok Htok' Hk Hk'.
  apply level_grid_tokens_inv in Htok as [_ ->]; [|done..].
  apply level_grid_tokens_inv in Htok' as [_ ->]; [|done..].
  destruct Hpl as [Hh Hw HPk HPp HPin HPn HPX HPO HTk HTp HTn HTO HO].
  apply level_token_target in Hk as [Hk _]; [|done..].
  apply level_token_target in Hk' as [Hk' _]; [|done..].
  apply elem_dict_get in Hk; [|done]. apply elem_dict_get in Hk'; [|done]. congruence.
Qed.

(** The board read from the text that [_coords_to_level_string] writes. *)
Lemma parse_level_text :
  let g := new_game (_coords_to_level_string w h P T O) in
  width g = w /\ height g = h
  /\ (forall p x, dict_get p (pieces g) = Some x <-> dict_get p P = Some x)
  /\ (forall t x, dict_get t (targets g) = Some x <->
        dict_get t T = Some x /\ (0 <= x.1 < h /\ 0 <= x.2 < w)
        /\ forall p, dict_get p P = Some x -> lower p = t)
  /\ (forall x, is_obstacle g x <-> x ∈ O /\ 0 <= x.1 < h /\ 0 <= x.2 < w).
Proof.
  unfold new_game. rewrite parse_level_tokens, level_text_tokens.
  set (G := level_grid w h P T O).
  assert (grid_shape G w h) as Hsh by (destruct Hpl as [Hh Hw HPk HPp HPin HPn HPX HPO HTk HTp HTn HTO HO]; by apply level_grid_shape).
  assert (Z.of_nat (length G) = h) as Hlen.
  { destruct Hsh as [-> _]. destruct Hpl as [Hh Hw HPk HPp HPin HPn HPX HPO HTk HTp HTn HTO HO]. lia. }
  assert (max_width G = w) as Hmw by (destruct Hpl as [Hh Hw HPk HPp HPin HPn HPX HPO HTk HTp HTn HTO HO]; by eapply max_width_shape).
  unfold board_of_tokens. rewrite Hlen, Hmw.
  destruct (scan_all_entries G) as [Hps Hts].
  destruct (scan_all_covered G) as [Hpc Htc].
  rewrite Hmw in Hps, Hts, Hpc, Htc.
  destruct (scan_rows w 0 G ([], [])) as [ps ts]. simpl in Hps, Hts, Hpc, Htc.
  assert (forall p r c, dict_get p ps = Some (r, c) <-> dict_get p P = Some (r, c)) as Hpieces.
  { intros p r c. split; intros Hp.
    - destruct Hps as [Hnd Hps']. destruct (Hps' _ _ _ Hp) as (Hr & Hc & _).
      apply (scanned_lookup token_piece G ps p r c) in Hp;
        [|done|done|apply level_names_once_pieces|done..].
      destruct Hp as (tok & Htok & Hsel).
      apply level_grid_tokens_inv in Htok as [_ ->]; [|done..].
      destruct Hpl as [Hh Hw HPk HPp HPin HPn HPX HPO HTk HTp HTn HTO HO]. apply elem_dict_get; [done|]. by eapply level_token_piece.
    - destruct Hpl as [Hh Hw HPk HPp HPin HPn HPX HPO HTk HTp HTn HTO HO]. apply dict_get_Some_elem in Hp as Hin.
      destruct (HPin _ _ Hin) as [Hr Hc]. simpl in Hr, Hc.
      apply (scanned_lookup token_piece G ps p r c);
        [done|done|apply level_names_once_pieces|lia..|].
      exists (level_token P T O (r, c)). split; [by apply level_grid_tokens|].
      by apply level_token_piece. }
  assert (dict_mem (lit "X") ps = false) as HX.
  { unfold dict_mem. destruct (dict_get (lit "X") ps) as [[r c]|] eqn:E; [|done].
    apply Hpieces in E. apply dict_get_Some_elem in E.
    destruct Hpl as [Hh Hw HPk HPp HPin HPn HPX HPO HTk HTp HTn HTO HO]. destruct HPX. by apply (list_elem_of_fmap_2 fst) in E. }
  rewrite HX. simpl. split_and!; [done|done|by intros p [r c]| |].
  - intros t [r c]. simpl. split.
    + intros Ht. destruct Hts as [Hnd Hts']. destruct (Hts' _ _ _ Ht) as (Hr & Hc & _).
      apply (scanned_lookup token_target G ts t r c) in Ht;
        [|done|done|apply level_names_once_targets|done..].
      destruct Ht as (tok & Htok & Hsel).
      apply level_grid_tokens_inv in Htok as [Hin ->]; [|done..].
      destruct Hpl as [Hh Hw HPk HPp HPin HPn HPX HPO HTk HTp HTn HTO HO]. apply level_token_target in Hsel as [HtT Hall]; [|done..].
      split_and!; [by apply elem_dict_get|apply Hin..|].
      intros p Hp. apply Hall. by apply dict_get_Some_elem.
    + intros (Ht & [Hr Hc] & Hall).
      apply (scanned_lookup token_target G ts t r c);
        [done|done|apply level_names_once_targets|lia..|].
      exists (level_token P T O (r, c)). split; [by apply level_grid_tokens|].
      destruct Hpl as [Hh Hw HPk HPp HPin HPn HPX HPO HTk HTp HTn HTO HO]. apply level_token_target; [done..|].
      split; [by apply dict_get_Some_elem|]. intros p Hp. apply Hall.
      by apply elem_dict_get.
  - intros [r c]. unfold is_obstacle. simpl.
    assert (NoDup (ps.*1)) as Hnd1 by apply Hps.
    pose proof (entries_from_positions _ _ _ Hps) as Hnd2.
    assert (forall k r c, (k, (r, c)) ∈ ps -> 0 <= r < h /\ 0 <= c < w) as Hin.
    { intros k r' c' Hel. apply elem_dict_get in Hel; [|done]. apply Hpieces in Hel.
      apply dict_get_Some_elem in Hel. destruct Hpl as [Hh Hw HPk HPp HPin HPn HPX HPO HTk HTp HTn HTO HO].
      by destruct (HPin _ _ Hel). }
    split.
    + intros Hx.
      assert (0 <= r < h /\ 0 <= c < w) as [Hr Hc].
      { eapply cell_Some_in_range; [|exact Hx].
        apply mark_pieces_shape, mark_obstacles_shape, blank_grid_shape. }
      split; [|done].
      rewrite (parsed_grid_cell G ps w h r c) in Hx by done.
      destruct (list_find _ ps) as [[i [k y]]|] eqn:E.
      * apply list_find_snd_Some in E as [-> Hel]. simpl in Hx. injection Hx as ->.
        apply elem_dict_get in Hel; [|done]. apply Hpieces in Hel.
        apply dict_get_Some_elem in Hel. destruct Hpl as [Hh Hw HPk HPp HPin HPn HPX HPO HTk HTp HTn HTO HO]. destruct HPX.
        by apply (list_elem_of_fmap_2 fst) in Hel.
      * revert Hx. case_bool_decide as Htok; [|by intros [= ?]]. intros _.
        apply level_grid_tokens_inv in Htok as [_ Htok]; [|lia..].
        destruct Hpl as [Hh Hw HPk HPp HPin HPn HPX HPO HTk HTp HTn HTO HO]. by eapply level_token_X.
    + intros (HxO & Hr & Hc). simpl in Hr, Hc.
      rewrite (parsed_grid_cell G ps w h r c) by done.
      destruct (list_find _ ps) as [[i [k y]]|] eqn:E.
      * apply list_find_snd_Some in E as [-> Hel].
        apply elem_dict_get in Hel; [|done]. apply Hpieces in Hel.
        apply dict_get_Some_elem in Hel. destruct Hpl as [Hh Hw HPk HPp HPin HPn HPX HPO HTk HTp HTn HTO HO].
        by destruct (HPO _ _ Hel).
      * rewrite bool_decide_eq_true_2; [done|].
        rewrite level_grid_tokens by done. f_equal. destruct Hpl as [Hh Hw HPk HPp HPin HPn HPX HPO HTk HTp HTn HTO HO]. by apply level_token_X.
Qed.
End RoundTrip.

(** ** The winning test *)

Lemma pairs_fold (l : list str) (acc : dict str) :
  NoDup (keys acc) -> (forall p t, (p, t) ∈ acc -> t = lower p) ->
  let r := fold_left (fun pairs piece_char => dict_set piece_char (lower piece_char) pairs)
                     l acc in
  NoDup (keys r)
  /\ forall p t, (p, t) ∈ r <-> (p, t) ∈ acc \/ (p ∈ l /\ t = lower p).
Proof.
  revert acc. induction l as [|q l IH]; intros acc Hnd Hacc; simpl.
  - split; [done|]. intros p t. split; [by left|].
    intros [H|[H _]]; [done|by apply elem_of_nil in H].
  - destruct (IH (dict_set q (lower q) acc)) as [IH1 IH2].
    + by apply NoDup_keys_set.
    + intros p t Hin. apply elem_dict_get in Hin; [|by apply NoDup_keys_set].
      destruct (decide (q = p)) as [->|Hne].
      * rewrite dict_get_set_eq in Hin. congruence.
      * rewrite dict_get_set_ne in Hin by done. by apply Hacc, dict_get_Some_elem.
    + split; [done|]. intros p t. rewrite IH2. clear IH IH1 IH2.
      assert ((p, t) ∈ dict_set q (lower q) acc <->
              (q = p /\ t = lower p) \/ (q <> p /\ (p, t) ∈ acc)) as ->.
      { split.
        - intros Hin. apply elem_dict_get in Hin; [|by apply NoDup_keys_set].
          destruct (decide (q = p)) as [->|Hne].
          + rewrite dict_get_set_eq in Hin. left. split; congruence.
          + rewrite dict_get_set_ne in Hin by done. right.
            split; [done|]. by apply dict_get_Some_elem.
        - intros [[-> ->]|[Hne Hin]]; apply dict_get_Some_elem.
          + apply dict_get_set_eq.
          + rewrite dict_get_set_ne by done. by apply elem_dict_get. }
      rewrite elem_of_cons. split.
      * intros [[[-> ->]|[Hne Hin]]|[Hin ->]]; [right|left|right]; by eauto.
      * intros [Hin|[[->|Hin] ->]].
        -- destruct (decide (q = p)) as [->|Hne]; [|left; right; done].
           left; left. split; [done|]. by apply Hacc.
        -- left; left. done.
        -- right. done.
Qed.

(** The pairs of [get_piece_target_pairs]: every piece with the small
    letter of its name. *)
Lemma pairs_spec s p t :
  (p, t) ∈ get_piece_target_pairs s <-> p ∈ keys (pieces s) /\ t = lower p.
Proof.
  unfold get_piece_target_pairs.
  destruct (pairs_fold (keys (pieces s)) []) as [_ H].
  - constructor.
  - intros p' t' Hin. by apply elem_of_nil in Hin.
  - rewrite H. split; [|by right]. intros [Hin|Hin]; [by apply elem_of_nil in Hin|done].
Qed.

(** [self.pieces[piece_char]] in [is_win] cannot raise [KeyError]. *)
Lemma pairs_keys_in_pieces s p t :
  (p, t) ∈ get_piece_target_pairs s -> is_Some (dict_get p (pieces s)).
Proof. intros [Hp _]%pairs_spec. by apply dict_get_is_Some. Qed.

Lemma is_win_spec s :
  is_win s = true <->
  pieces s <> []
  /\ forall p x, dict_get p (pieces s) = Some x -> dict_get (lower p) (targets s) = Some x.
Proof.
  unfold is_win. destruct (pieces s) as [|e ps] eqn:Eps.
  { split; [done|]. by intros [? _]. }
  rewrite <- Eps. rewrite forallb_forall. split.
  - intros Hall. split; [by rewrite Eps|]. intros p x Hp.
    assert ((p, lower p) ∈ get_piece_target_pairs s) as Hin.
    { apply pairs_spec. split; [|done]. apply dict_get_is_Some. by eauto. }
    apply list_elem_of_In in Hin. apply Hall in Hin. simpl in Hin.
    destruct (dict_get (lower p) (targets s)) as [tpos|]; [|done].
    rewrite Hp in Hin. apply bool_decide_eq_true in Hin. by subst.
  - intros [_ Hall] [p t] Hin. apply list_elem_of_In in Hin.
    apply pairs_spec in Hin as [Hp ->].
    apply dict_get_is_Some in Hp as [x Hp]. rewrite (Hall p x Hp), Hp.
    by apply bool_decide_eq_true.
Qed.

(** ** What every parsed board satisfies *)

Lemma split_by_nonempty P s : split_by P s <> [].
Proof.
  destruct s as [|c s]; simpl; [done|]. destruct (P c); [done|].
  by destruct (split_by P s).
Qed.

Lemma parsed_dimensions level_string :
  1 <= height (new_game level_string) /\ 0 <= width (new_game level_string)
  /\ height (new_game level_string)
     = Z.of_nat (length (split_on ";" (strip level_string))).
Proof.
  unfold new_game. rewrite parse_level_tokens. unfold board_of_tokens.
  set (prt := row_tokens <$> split_on ";" (strip level_string)).
  destruct (scan_rows (max_width prt) 0 prt ([], [])) as [ps ts]. simpl.
  split_and!; [|apply max_width_nonneg|unfold prt; by rewrite length_fmap].
  unfold prt. rewrite length_fmap.
  pose proof (split_by_nonempty (is_char ";") (strip level_string)) as Hne.
  unfold split_on. destruct (split_by _ _); [done|]. simpl. lia.
Qed.

Lemma parsed_targets level_string :
  NoDup (keys (targets (new_game level_string)))
  /\ NoDup ((targets (new_game level_string)).*2)
  /\ forall t x, dict_get t (targets (new_game level_string)) = Some x ->
       in_grid (new_game level_string) x
       /\ exists ch, t = [ch] /\ is_lower_letter ch = true.
Proof.
  unfold new_game. rewrite parse_level_tokens. unfold board_of_tokens, in_grid.
  set (prt := row_tokens <$> split_on ";" (strip level_string)).
  destruct (scan_all_entries prt) as [_ Hts].
  destruct (scan_rows (max_width prt) 0 prt ([], [])) as [ps ts]. simpl in *.
  split_and!; [apply Hts|by eapply entries_from_positions|].
  intros t [r c] Ht. destruct Hts as [_ Hts].
  destruct (Hts _ _ _ Ht) as (Hr & Hc & tok & Htok & Hsel). simpl.
  destruct (tok_at_in_range prt r c tok Hr Hc Htok). split; [lia|].
  by eapply token_target_letter.
Qed.

(** ** The move list is complete *)

(** The fuel of the [while True] loop is enough: on a rectangular grid a
    slide that starts next to an in-grid cell ends. *)
Lemma slide_fuel_enough s piece_char dr dc name r c :
  grid_shape (grid s) (width s) (height s) ->
  (dr, dc, name) ∈ directions ->
  in_range (r + dr) (c + dc) (height s) (width s) = true ->
  exists land, slide (slide_fuel s) s piece_char dr dc r c = Ok land.
Proof.
  intros Hsh Hd Hin. apply in_range_true in Hin.
  assert (exists f, slide_fuel s = S f /\
            room dr dc r c (height s) (width s) <= Z.of_nat f) as (f & -> & Hf).
  { exists (Z.to_nat (height s + width s - 1)). unfold slide_fuel, room.
    apply directions_cases in Hd. split; [lia|]. repeat case_decide; lia. }
  by eapply slide_total.
Qed.

Lemma collect_sub {A B} (f : A -> outcome (list B)) l ys a xs :
  collect f l = Ok ys -> a ∈ l -> f a = Ok xs -> xs ⊆ ys.
Proof.
  revert ys. induction l as [|x l IH]; intros ys; simpl.
  - intros _ Ha. by apply elem_of_nil in Ha.
  - intros H Ha Hf. inv_bind H. inv_bind H. injection H as <-.
    apply elem_of_cons in Ha as [->|Ha].
    + intros y Hy. apply elem_of_app. left. congruence.
    + intros y Hy. apply elem_of_app. right. by apply (IH _ Ha1 Ha Hf).
Qed.

Lemma collect_length {A B} (f : A -> outcome (list B)) l ys (n : nat) :
  (forall a xs, a ∈ l -> f a = Ok xs -> (length xs <= n)%nat) ->
  collect f l = Ok ys -> (length ys <= n * length l)%nat.
Proof.
  revert ys. induction l as [|x l IH]; intros ys Hall; simpl.
  - intros [= <-]. simpl. lia.
  - intros H. inv_bind H. inv_bind H. injection H as <-.
    rewrite length_app.
    assert (length a <= n)%nat by (apply (Hall x); [apply elem_of_cons; by left|done]).
    assert (length a0 <= n * length l)%nat.
    { apply IH; [|done]. intros a' xs Ha'. apply Hall. apply elem_of_cons. by right. }
    lia.
Qed.

Lemma moves_in_direction_length s piece_char r c d ms :
  moves_in_direction s piece_char r c d = Ok ms -> (length ms <= 1)%nat.
Proof.
  destruct d as [[dr dc] name]. unfold moves_in_direction.
  destruct (negb _); [intros [= <-]; simpl; lia|].
  intros H. inv_bind H. case_decide; [injection H as <-; simpl; lia|].
  destruct (blocked_by_other _ _ _); [injection H as <-; simpl; lia|].
  inv_bind H. case_decide; injection H as <-; simpl; lia.
Qed.

Lemma possible_moves_length s ms :
  get_possible_moves s = Ok ms -> (length ms <= 4 * length (pieces s))%nat.
Proof.
  unfold get_possible_moves. apply collect_length.
  intros [piece_char [r c]] xs _ Hxs.
  apply (collect_length _ _ _ 1) in Hxs; [simpl in Hxs; lia|].
  intros d ys _. apply moves_in_direction_length.
Qed.

(** A piece next to a free cell gets a move in that direction. *)
Lemma moves_in_direction_free s piece_char r c dr dc name :
  grid_shape (grid s) (width s) (height s) -> NoDup (keys (pieces s)) ->
  (dr, dc, name) ∈ directions ->
  free_cell s piece_char (r + dr, c + dc) ->
  exists land, moves_in_direction s piece_char r c (dr, dc, name)
               = Ok [(piece_char, land, name)].
Proof.
  intros Hsh Hnd Hd Hfree.
  pose proof Hfree as ([Hr Hc] & Hobs & Hocc). simpl in Hr, Hc.
  unfold moves_in_direction.
  assert (in_range (r + dr) (c + dc) (height s) (width s) = true) as Hin
    by by apply in_range_true.
  rewrite Hin. simpl.
  destruct (grid_get_Ok s _ _ Hsh Hin) as [x Hx]. rewrite Hx. simpl.
  rewrite decide_False.
  2:{ intros ->. apply Hobs. unfold is_obstacle. simpl.
      apply grid_get_cell in Hx; [done|lia..]. }
  destruct (blocked_by_other _ _ _) eqn:Hb.
  { apply blocked_occupied in Hb; done. }
  destruct (slide_fuel_enough s piece_char dr dc name r c Hsh Hd Hin) as [land Hland].
  rewrite Hland. simpl. exists land. rewrite decide_True; [done|].
  destruct (slide_spec _ _ _ _ _ _ _ _ Hnd Hland) as (n & Heq & _ & Hob).
  destruct n as [|n].
  - exfalso. apply (free_not_obstructed s piece_char (r + dr, c + dc)); [done|].
    rewrite Heq in Hob. simpl in Hob.
    replace (r + Z.of_nat 0 * dr + dr) with (r + dr) in Hob by lia.
    by replace (c + Z.of_nat 0 * dc + dc) with (c + dc) in Hob by lia.
  - rewrite Heq. apply directions_cases in Hd. intros [= H1 H2]. lia.
Qed.

(** A piece has a move in a direction exactly when the cell next to it in
    that direction is free. *)
Lemma possible_moves_complete s ms p r c dr dc name :
  grid_shape (grid s) (width s) (height s) -> NoDup (keys (pieces s)) ->
  get_possible_moves s = Ok ms ->
  dict_get p (pieces s) = Some (r, c) ->
  (dr, dc, name) ∈ directions ->
  (exists land, (p, land, name) ∈ ms) <-> free_cell s p (r + dr, c + dc).
Proof.
  intros Hsh Hnd Hms Hp Hd. split.
  - intros [land Hin].
    destruct (emitted_move_is_maximal_slide s ms p land name Hnd Hms Hin)
      as (start & dr' & dc' & n & Hp' & Hd' & Hn & _ & _ & Hfree & _).
    destruct (direction_of_name _ _ _ _ _ Hd Hd') as [<- <-].
    rewrite Hp in Hp'. injection Hp' as <-. simpl in Hfree.
    specialize (Hfree 1%nat ltac:(lia)).
    replace (r + Z.of_nat 1 * dr) with (r + dr) in Hfree by lia.
    by replace (c + Z.of_nat 1 * dc) with (c + dc) in Hfree by lia.
  - intros Hfree.
    destruct (moves_in_direction_free s p r c dr dc name Hsh Hnd Hd Hfree) as [land Hland].
    exists land. unfold get_possible_moves in Hms.
    destruct (collect_Ok (moves_in_direction s p r c) directions) as [xs Hxs].
    { intros [[dr' dc'] name'] Hd'. by apply moves_in_direction_Ok. }
    apply (collect_sub _ _ _ (p, (r, c)) xs Hms); [by apply dict_get_Some_elem|done|].
    apply (collect_sub _ _ _ (dr, dc, name) _ Hxs Hd Hland). apply elem_of_cons. by left.
Qed.

(** ** [apply_move] at the edges of the grid *)

(** Python's index rule: [-n <= i < n], negative indices count from the end. *)
Lemma py_index_spec n i :
  py_index n i = if decide (- Z.of_nat n <= i < Z.of_nat n)
                 then Some (Z.to_nat (i `mod` Z.of_nat n)) else None.
Proof.
  unfold py_index. destruct (decide (i < 0)) as [Hneg|Hpos].
  - destruct (decide (- Z.of_nat n <= i < Z.of_nat n)) as [Hin|Hout].
    + rewrite decide_True by lia. do 2 f_equal.
      rewrite <- (Z.mod_small (i + Z.of_nat n) (Z.of_nat n)) by lia.
      rewrite <- (Z_mod_plus_full i 1 (Z.of_nat n)). f_equal. lia.
    + rewrite decide_False by lia. done.
  - destruct (decide (- Z.of_nat n <= i < Z.of_nat n)) as [Hin|Hout].
    + rewrite decide_True by lia. by rewrite Z.mod_small by lia.
    + rewrite decide_False by lia. done.
Qed.

Lemma grid_set_spec g w h r c v :
  grid_shape g w h ->
  grid_set g r c v
  = if decide ((- h <= r < h) /\ (- w <= c < w))
    then Ok (grid_put (r `mod` h) (c `mod` w) v g) else Raise IndexError.
Proof.
  intros [Hlen Hrows]. unfold grid_set, py_get. rewrite (py_index_spec (length g) r).
  destruct (decide (- Z.of_nat (length g) <= r < Z.of_nat (length g))) as [Hr|Hr].
  2:{ simpl. rewrite decide_False; [done|]. lia. }
  assert (Z.of_nat (length g) = h) as Hh by lia. rewrite Hh.
  assert (0 <= r `mod` h < h) as Hrm by (apply Z.mod_pos_bound; lia).
  destruct (lookup_lt_is_Some_2 g (Z.to_nat (r `mod` h))) as [row Hrow]; [lia|].
  assert (length row = Z.to_nat w) as Hrl.
  { rewrite Forall_forall in Hrows. apply Hrows. eapply list_elem_of_lookup_2. exact Hrow. }
  rewrite Hrow. simpl. unfold py_set. rewrite (py_index_spec (length row) c).
  destruct (decide (- Z.of_nat (length row) <= c < Z.of_nat (length row))) as [Hc|Hc].
  2:{ simpl. rewrite decide_False; [done|]. lia. }
  assert (Z.of_nat (length row) = w) as Hw by lia. rewrite Hw.
  assert (0 <= c `mod` w < w) as Hcm by (apply Z.mod_pos_bound; lia).
  simpl. rewrite (py_index_spec (length g) r), Hh. rewrite !decide_True by lia.
  unfold grid_put. f_equal. apply list_eq. intros i.
  destruct (decide (i = Z.to_nat (r `mod` h))) as [->|Hne].
  - rewrite list_lookup_insert_eq by lia. rewrite list_lookup_alter_eq. by rewrite Hrow.
  - rewrite list_lookup_insert_ne by done. by rewrite list_lookup_alter_ne.
Qed.

(** The bounds [apply_move] inherits from list indexing. *)
Lemma apply_move_bounds s p old d :
  grid_shape (grid s) (width s) (height s) ->
  dict_get p (pieces s) = Some old -> in_grid s old ->
  apply_move s p d
  = if decide ((- height s <= d.1 < height s) /\ (- width s <= d.2 < width s))
    then Ok (mkGame (grid_put (d.1 `mod` height s) (d.2 `mod` width s) p
                       (grid_put old.1 old.2 (lit ".") (grid s)))
                    (dict_set p d (pieces s)) (targets s) (width s) (height s))
    else Raise IndexError.
Proof.
  intros Hsh Hp [Ho1 Ho2]. unfold apply_move. rewrite Hp.
  destruct old as [old_r old_c], d as [new_r new_c]. simpl in *.
  rewrite (grid_set_put _ (width s) (height s)) by done. simpl.
  rewrite (grid_set_spec _ (width s) (height s)) by by apply grid_put_shape.
  by case_decide.
Qed.

Lemma dict_set_same {V} k (v : V) d : dict_get k d = Some v -> dict_set k v d = d.
Proof.
  induction d as [|[k' v'] d IH]; simpl; [done|].
  case_decide as Hk; [intros [= ->]; by subst|]. intros H. by rewrite IH.
Qed.

(** Moving a piece to the cell it stands on changes nothing. *)
Lemma apply_move_same_cell s p old :
  wf_game s -> dict_get p (pieces s) = Some old -> apply_move s p old = Ok s.
Proof.
  intros Hwf Hp. destruct old as [r c].
  destruct (wf_piece s Hwf p r c Hp) as (Hin & Hcell & _).
  rewrite (apply_move_Ok s p (r, c) (r, c)); [|apply Hwf|done..].
  rewrite dict_set_same by done. simpl. destruct Hin as [Hr Hc]. simpl in Hr, Hc.
  assert (grid_put r c p (grid_put r c (lit ".") (grid s)) = grid s) as ->.
  { apply (grid_ext _ _ (width s) (height s)).
    - by apply grid_put_shape, grid_put_shape, Hwf.
    - apply Hwf.
    - intros r' c' Hr' Hc'. destruct (decide ((r, c) = (r', c'))) as [[= <- <-]|Hne].
      + rewrite cell_grid_put_eq; [done|].
        rewrite cell_grid_put_eq; [by eauto|]. rewrite Hcell. by eauto.
      + rewrite !cell_grid_put_ne by (done || lia). done. }
  by destruct s.
Qed.

(** ** What the verifier accepts *)

(** A replay that goes through is a run of legal moves. *)
Lemma replay_state_run s pm s' :
  wf_game s -> replay_state s pm = Ok (Some s') ->
  exists ms, run s ms s' /\ move_pair <$> ms = pm.
Proof.
  revert s. induction pm as [|[p d] rest IH]; intros s Hwf; simpl.
  - intros [= <-]. exists []. split; [constructor|done].
  - destruct (negb _); [done|]. intros H. inv_bind H. rename a into possible.
    destruct (find_move s possible p d) as [[[pm_piece pm_new_pos] pm_direction]|] eqn:E;
      [|done].
    inv_bind H. rename a into next.
    destruct (matched_move_applies s possible p d _ Hwf Ha E) as (s1 & Happ & Hwf1 & _).
    simpl in Happ. rewrite Ha0 in Happ. injection Happ as ->.
    apply find_move_Some in E as (Hin & Hp & Hd & _). simpl in Hp, Hd. subst.
    destruct (IH s1 Hwf1 H) as (ms & Hrun & Hms).
    exists ((p, pm_new_pos, d) :: ms). split; [by econstructor|].
    by rewrite fmap_cons, Hms.
Qed.

Lemma run_nil_inv s s' : run s [] s' -> s' = s.
Proof. by inversion 1. Qed.

Lemma blank_solution_parse solution :
  negb (nonempty solution) || negb (nonempty (strip solution)) = true ->
  parse_moves (length (split_on ";" solution)) 0 (split_on ";" solution) [] = ReturnIsWin
  \/ parse_moves (length (split_on ";" solution)) 0 (split_on ";" solution) [] = Parsed [].
Proof.
  intros Hblank.
  assert (Forall (fun c => is_space c = true) solution) as Hsp.
  { apply orb_true_iff in Hblank as [H|H]; apply negb_true_iff, nonempty_false in H.
    - subst. constructor.
    - by apply strip_nil_inv. }
  apply parse_moves_blank. unfold split_on.
  eapply Forall_impl; [apply (split_by_Forall _ (fun c => is_space c = true))|].
  - eapply Forall_impl; [exact Hsp|]. intros c Hc. by right.
  - intros f Hf. by apply strip_all_space.
Qed.

(** The verifier accepts exactly the texts whose moves are a run of legal
    moves that ends on a won board. *)
Lemma verify_accepts level_string solution :
  verify_kuboble_solution level_string solution = Ok true <->
  match parse_moves (length (split_on ";" solution)) 0 (split_on ";" solution) [] with
  | ReturnIsWin => is_win (new_game level_string) = true
  | ReturnFalse => False
  | Parsed pm => exists ms s', run (new_game level_string) ms s'
                               /\ move_pair <$> ms = pm /\ is_win s' = true
  end.
Proof.
  pose proof (new_game_wf level_string) as Hwf.
  unfold verify_kuboble_solution.
  destruct (negb (nonempty solution) || negb (nonempty (strip solution))) eqn:Hblank.
  - destruct (blank_solution_parse solution Hblank) as [-> | ->].
    + split; congruence.
    + split.
      * intros [= Hwin]. exists [], (new_game level_string). split_and!; [constructor|done..].
      * intros (ms & s' & Hrun & Hms & Hwin). apply fmap_nil_inv in Hms. subst.
        apply run_nil_inv in Hrun. subst. by rewrite Hwin.
  - destruct (parse_moves _ _ _ _) as [| |pm] eqn:Hpm.
    + split; congruence.
    + done.
    + destruct pm as [|e pm].
      * rewrite bool_decide_eq_false_2 by (intros H; by apply H). cbn [negb andb].
        assert ((if nonempty (strip solution) then Ok (is_win (new_game level_string))
                 else replay (new_game level_string) [])
                = Ok (is_win (new_game level_string))) as ->
          by (destruct (nonempty (strip solution)); [reflexivity|apply replay_nil]).
        split.
        -- intros [= Hwin]. exists [], (new_game level_string).
           split_and!; [constructor|done..].
        -- intros (ms & s' & Hrun & Hms & Hwin). apply fmap_nil_inv in Hms. subst.
           apply run_nil_inv in Hrun. subst. by rewrite Hwin.
      * rewrite bool_decide_eq_true_2 by done. simpl negb. cbn [andb].
        rewrite replay_via_state. split.
        -- intros H. inv_bind H. destruct a as [s'|]; [|done]. injection H as Hwin.
           destruct (replay_state_run _ _ _ Hwf Ha) as (ms & Hrun & Hms).
           by exists ms, s'.
        -- intros (ms & s' & Hrun & Hms & Hwin). rewrite <- Hms.
           rewrite (run_replay _ _ _ Hwf Hrun). simpl. by rewrite Hwin.
Qed.

(** ** The depth bound of the search *)

Lemma expand_depth g path depth moves queue visited r :
  Z.of_nat (length path) = depth ->
  Forall (fun e : entry => Z.of_nat (length e.1.2) = e.2) queue ->
  expand g path depth moves queue visited = Ok r ->
  match r with
  | inl new_path => Z.of_nat (length new_path) = depth + 1
  | inr (queue', _) => Forall (fun e : entry => Z.of_nat (length e.1.2) = e.2) queue'
  end.
Proof.
  intros Hlen. revert queue visited.
  induction moves as [|[[p new_pos] name] moves IH]; intros queue visited Hq; simpl.
  - intros [= <-]. done.
  - intros H. inv_bind H. destruct (is_win a).
    + injection H as <-. rewrite length_app. simpl. lia.
    + case_decide.
      * by apply (IH queue visited).
      * apply (IH _ _) in H; [done|]. apply Forall_app. split; [done|].
        apply Forall_singleton. simpl. rewrite length_app. simpl. lia.
Qed.

Lemma bfs_loop_depth fuel max_depth queue visited path :
  Forall (fun e : entry => Z.of_nat (length e.1.2) = e.2) queue ->
  bfs_loop fuel max_depth queue visited = Ok (Some path) ->
  Z.of_nat (length path) <= max_depth.
Proof.
  revert queue visited. induction fuel as [|fuel IH]; intros queue visited Hq.
  - destruct queue as [|[[g p] k] queue]; simpl; done.
  - destruct queue as [|[[g p] k] queue]; simpl; [done|].
    apply Forall_cons in Hq as [Hk Hq]. simpl in Hk.
    case_decide as Hd; [by apply IH|].
    intros H. inv_bind H. inv_bind H.
    pose proof (expand_depth _ _ _ _ _ _ _ Hk Hq Ha0) as Hexp.
    destruct a0 as [new_path|[queue' visited']].
    + injection H as <-. lia.
    + by apply (IH queue' visited').
Qed.

(** The search never returns more than [max_depth] moves. *)
Lemma bfs_path_depth fuel s0 max_depth path :
  bfs_path fuel s0 max_depth = Ok (Some path) ->
  Z.of_nat (length path) <= Z.max 0 max_depth.
Proof.
  unfold bfs_path. destruct (is_win s0).
  - intros [= <-]. simpl. lia.
  - intros H. apply bfs_loop_depth in H; [lia|]. by apply Forall_singleton.
Qed.

(** With [max_depth <= 0] the search only tests the start board. *)
Lemma bfs_depth_zero fuel s0 max_depth :
  max_depth <= 0 ->
  _is_solvable_bfs (S fuel) s0 max_depth = Ok (if is_win s0 then Some [] else None).
Proof.
  intros Hd. unfold _is_solvable_bfs, bfs_path. destruct (is_win s0); [done|].
  simpl. rewrite decide_True by lia. by destruct fuel.
Qed.

(** ** An exhausted search is conclusive *)

Lemma bfs_empty_queue_closed s0 d E visited :
  0 <= d -> bfs_inv s0 d E [] visited ->
  forall ms t, run s0 ms t -> t ∈ E /\ is_win t = false.
Proof.
  intros Hd Hinv.
  assert (forall t, ~ in_queue t []) as Hnoq.
  { intros t (path & depth & Hin). by apply elem_of_nil in Hin. }
  assert (forall n ms t, length ms = n -> run s0 ms t -> t ∈ E /\ is_win t = false) as H.
  { induction n as [|n IH]; intros ms t Hlen Hrun.
    - destruct ms; [|done].
      destruct (inv_near _ _ _ _ _ Hinv t) as [Hw [HE|[path Hin]]].
      + exists []. split; [done|simpl; lia].
      + done.
      + by apply elem_of_nil in Hin.
    - destruct (run_inv_last _ _ _ Hrun) as [[-> ->]|(ms' & m & s & -> & Hrun' & Hstep)];
        [done|].
      rewrite length_app in Hlen. simpl in Hlen.
      destruct (IH ms' s ltac:(lia) Hrun') as [Hs _].
      destruct (inv_succ _ _ _ _ _ Hinv s t Hs Hstep) as [Hw [HE|Hq]]; [done|].
      by destruct (Hnoq t). }
  intros ms t. by apply (H (length ms)).
Qed.

Lemma bfs_loop_none s0 max_depth fuel :
  wf_game s0 ->
  forall d E queue visited,
    0 <= d ->
    bfs_inv s0 d E queue visited ->
    bfs_loop fuel max_depth queue visited = Ok None ->
    forall ms t, run s0 ms t -> is_win t = true -> max_depth < Z.of_nat (length ms).
Proof.
  intros Hwf0. induction fuel as [|fuel IH]; intros d E queue visited Hd Hinv.
  - destruct queue as [|[[g p] k] queue]; simpl; [|done].
    intros _ ms t Hrun Hwin.
    destruct (bfs_empty_queue_closed s0 d E visited Hd Hinv ms t Hrun). congruence.
  - destruct queue as [|[[g p] k] queue]; simpl.
    { intros _ ms t Hrun Hwin.
      destruct (bfs_empty_queue_closed s0 d E visited Hd Hinv ms t Hrun). congruence. }
    assert (exists d', 0 <= d' /\ k = d' /\ bfs_inv s0 d' E ((g, p, k) :: queue) visited)
      as (d' & Hd' & -> & Hinv').
    { destruct (inv_layers _ _ _ _ _ Hinv) as (q1 & q2 & Hq & H1 & H2).
      destruct q1 as [|e q1].
      - simpl in Hq. subst q2. exists (d + 1). split; [lia|].
        apply Forall_cons in H2 as H2'. destruct H2' as [Hk _]. simpl in Hk.
        split; [done|]. by apply bfs_inv_shift.
      - injection Hq as <- Hq. apply Forall_cons in H1 as [Hk _]. simpl in Hk.
        exists d. by subst k. }
    clear d Hd Hinv.
    destruct (decide (d' >= max_depth)) as [Hge|Hlt].
    { intros _ ms t Hrun Hwin.
      destruct (decide (Z.of_nat (length ms) <= d')) as [Hle|Hgt]; [|lia].
      destruct (inv_near _ _ _ _ _ Hinv' t) as [Hw _]; [by exists ms|]. congruence. }
    intros H. inv_bind H. inv_bind H.
    pose proof (expand_keeps_inv s0 d' E g p queue visited a Hwf0 Hinv' Ha a [] queue
                  visited a0 eq_refl) as Hkeep.
    destruct a0 as [new_path|[queue' visited']]; [done|].
    apply (IH d' (g :: E) queue' visited' Hd'); [|exact H].
    apply Hkeep; [|done].
    constructor.
    * exists []. rewrite app_nil_r. split; [done|constructor].
    * pose proof (inv_entries _ _ _ _ _ Hinv') as Hent.
      by apply Forall_cons in Hent as [_ Hent].
    * intros m t Hm. by apply elem_of_nil in Hm.
    * intros k Hk. destruct (inv_visited _ _ _ _ _ Hinv' k Hk) as (t & [H1|H1] & Hkey).
      -- exists t. by auto.
      -- apply in_queue_cons in H1 as [Ht|H1]; exists t; simpl in *; auto.
Qed.

(** When the search gives up, no run of at most [max_depth] legal moves
    wins. *)
Lemma bfs_path_none fuel s0 max_depth :
  wf_game s0 -> bfs_path fuel s0 max_depth = Ok None ->
  forall ms t, run s0 ms t -> is_win t = true -> max_depth < Z.of_nat (length ms).
Proof.
  intros Hwf. unfold bfs_path. destruct (is_win s0) eqn:Hw; [done|].
  intros H. eapply (bfs_loop_none s0 max_depth fuel Hwf 0); [done| |exact H].
  by apply bfs_inv_start.
Qed.

(** ** What the generator returns *)

Lemma attempts_found shuffle fuel todo w h np no depth nt level_string solution :
  attempts shuffle fuel todo w h np no depth nt = Ok (Some (level_string, solution)) ->
  _is_solvable_bfs fuel (new_game level_string) depth = Ok (Some solution)
  /\ (nt = true ->
      exists cs, _is_solvable_bfs fuel (new_game level_string) 0 = Ok cs /\ cs <> Some []).
Proof.
  induction todo as [|attempt todo IH]; simpl; [done|].
  intros H. inv_bind H. destruct a as [res|]; [|by apply IH].
  injection H as ->. clear IH. unfold attempt_level in Ha.
  destruct (draw_pieces _ _ _ _ _) as [[all_coords pieces_pos] targets_pos].
  destruct (bool_decide _); [done|].
  destruct (draw_obstacles _ _ _) as [all_coords' obstacles_pos].
  inv_bind Ha. rename a into cs.
  destruct (nt && bool_decide (cs = Some [])) eqn:Hnt; [done|]. inv_bind Ha.
  destruct a as [sol|]; [|done]. injection Ha as <- <-. split; [done|].
  intros ->. exists cs. split; [done|]. simpl in Hnt.
  by apply bool_decide_eq_false in Hnt.
Qed.

Lemma join_move_texts_nonempty ms : ms <> [] -> join (lit ";") (move_text <$> ms) <> [].
Proof.
  destruct ms as [|[[p pos] d] ms]; [done|]. intros _.
  rewrite fmap_cons. unfold move_text at 1, move_str. simpl.
  destruct (move_text <$> ms); simpl; intros H; apply app_eq_nil in H as [_ H];
    unfold lit in H; simpl in H; done.
Qed.

(** With [require_non_trivial_solution] the level returned is not won at
    the start and the solution has at least one move; the solution never
    has more than [max_solver_depth] moves. *)
Lemma generated_pair_bounds shuffle fuel w h np no attempts_limit depth nt
    level_string solution :
  np <> 0 ->
  generate_kuboble_level shuffle fuel w h np no attempts_limit depth nt
    = Ok (Some (level_string, solution)) ->
  exists ms t,
    run (new_game level_string) ms t /\ is_win t = true
    /\ solution = join (lit ";") (move_text <$> ms)
    /\ Z.of_nat (length ms) <= Z.max 0 depth
    /\ (nt = true -> is_win (new_game level_string) = false /\ ms <> [] /\ solution <> []).
Proof.
  intros Hnp. unfold generate_kuboble_level. rewrite decide_False by done.
  case_decide as H26; [done|]. case_decide as Hcap; [done|].
  intros H. apply attempts_found in H as [Hsol Hnt].
  unfold _is_solvable_bfs in Hsol. inv_bind Hsol. destruct a as [path|]; [|done].
  injection Hsol as <-. pose proof (bfs_path_depth _ _ _ _ Ha) as Hdepth.
  apply bfs_path_sound in Ha as (ms & t & Hrun & Hwin & -> & Hnil).
  rewrite length_fmap in Hdepth.
  exists ms, t. split_and!; [done..|]. intros ->. destruct (Hnt eq_refl) as (cs & Hcs & Hne).
  assert (is_win (new_game level_string) = false) as Hw.
  { destruct (is_win (new_game level_string)) eqn:Hw; [|done]. exfalso. apply Hne.
    unfold _is_solvable_bfs, bfs_path in Hcs. rewrite Hw in Hcs. simpl in Hcs. congruence. }
  assert (ms <> []) as Hms by (intros ->; rewrite Hnil in Hw; done).
  split_and!; [done..|]. by apply join_move_texts_nonempty.
Qed.

(** Without attempts, or with a negative number of pieces, the generator
    gives up. *)
Lemma generate_gives_up shuffle fuel w h np no attempts_limit depth nt :
  np <> 0 -> np <= 26 -> np * 2 + no <= w * h ->
  attempts_limit <= 0 \/ np < 0 ->
  generate_kuboble_level shuffle fuel w h np no attempts_limit depth nt = Ok None.
Proof.
  intros Hnp H26 Hcap Hcase. unfold generate_kuboble_level.
  rewrite !decide_False by lia. destruct Hcase as [Hlim|Hneg].
  - by replace (Z.to_nat attempts_limit) with 0%nat by lia.
  - generalize (seq 0 (Z.to_nat attempts_limit)). intros todo.
    induction todo as [|attempt todo IH]; simpl; [done|].
    unfold attempt_level at 1. replace (Z.to_nat np) with 0%nat by lia. simpl.
    rewrite bool_decide_eq_true_2 by lia. simpl. exact IH.
Qed.

(** ** The generator's own check of a solution *)

Lemma actual_move_Some possible p d m :
  actual_move possible p d = Some m -> m ∈ possible /\ m.1.1 = p /\ m.2 = d.
Proof.
  unfold actual_move. intros H. apply find_some in H as [Hin H].
  destruct m as [[mp mpos] md]. apply andb_true_iff in H as [H1 H2].
  apply bool_decide_eq_true in H1, H2. simpl. split_and!; [|done..].
  by apply list_elem_of_In.
Qed.

Lemma actual_move_None possible p d pos :
  actual_move possible p d = None -> (p, pos, d) ∉ possible.
Proof.
  unfold actual_move. intros H Hin. apply list_elem_of_In in Hin.
  apply (find_none _ _ H) in Hin. simpl in Hin.
  by rewrite !bool_decide_eq_true_2 in Hin.
Qed.

(** The move the scan picks is the move of that piece in that direction. *)
Lemma actual_move_emitted s ms p pos name :
  NoDup (keys (pieces s)) -> get_possible_moves s = Ok ms -> (p, pos, name) ∈ ms ->
  actual_move ms p name = Some (p, pos, name).
Proof.
  intros Hnd Hms Hin. destruct (actual_move ms p name) as [[[mp mpos] md]|] eqn:E.
  - apply actual_move_Some in E as (Hin' & H1 & H2). simpl in *. subst.
    do 3 f_equal. by eapply emitted_move_unique.
  - by destruct (actual_move_None _ _ _ pos E).
Qed.

(** A move taken from the list leads to a well-formed board. *)
Lemma listed_move_applies s possible p pos name :
  wf_game s -> get_possible_moves s = Ok possible -> (p, pos, name) ∈ possible ->
  exists s', apply_move s p pos = Ok s' /\ wf_game s'.
Proof.
  intros Hwf Hms Hin.
  destruct (legal_move_free s possible _ _ _ Hwf Hms Hin) as (old & Hp & Hfree & Hne).
  destruct (move_to_free_cell s _ old _ Hwf Hp Hfree Hne) as (s' & Happ & Hwf' & _).
  by exists s'.
Qed.


Lemma apply_all_run s frags s' :
  wf_game s -> apply_all s frags = Ok (Some s') ->
  exists ms, run s ms s' /\ Forall2 fragment_of frags ms
             /\ Forall (fun m : move => m.2 ∈ direction_names) ms.
Proof.
  revert s. induction frags as [|frag frags IH]; intros s Hwf; simpl.
  - intros [= <-]. exists []. split_and!; constructor.
  - destruct (split_ws (strip frag)) as [|p0 [|p1 [|p2 l]]] eqn:Hparts; try done.
    intros H. inv_bind H. rename a into possible.
    destruct (actual_move possible p0 (lower p1)) as [[[mp mpos] md]|] eqn:E; [|done].
    inv_bind H. rename a into next.
    apply actual_move_Some in E as (Hin & Hp & Hd). simpl in Hp, Hd. subst.
    destruct (listed_move_applies s possible _ _ _ Hwf Ha Hin) as (s1 & Happ & Hwf1).
    rewrite Ha0 in Happ. injection Happ as ->.
    destruct (IH s1 Hwf1 H) as (ms & Hrun & Hfr & Hdir).
    exists ((p0, mpos, lower p1) :: ms). split_and!.
    + by econstructor.
    + constructor; [|done]. by exists p1.
    + constructor; [|done]. simpl.
      destruct (emitted_move_is_maximal_slide s possible _ _ _ (wf_keys s Hwf) Ha Hin)
        as (_ & dr & dc & _ & _ & Hd & _).
      by eapply directions_named.
Qed.

Lemma split_ws_nil : split_ws [] = [].
Proof. done. Qed.

Lemma parse_moves_fragments n idx frags ms acc :
  Forall2 fragment_of frags ms ->
  Forall (fun m : move => m.2 ∈ direction_names) ms ->
  parse_moves n idx frags acc = Parsed (acc ++ (move_pair <$> ms)).
Proof.
  intros Hfr. revert idx acc.
  induction Hfr as [|frag m frags ms (p1 & Hparts & Hlow) Hfr IH]; intros idx acc Hdir; simpl.
  - by rewrite app_nil_r.
  - apply Forall_cons in Hdir as [Hd Hdir].
    destruct (strip frag) as [|c rest] eqn:Hstrip; [done|]. simpl.
    rewrite Hparts, Hlow. rewrite (bool_decide_eq_true_2 _ Hd).
    rewrite IH by done. by rewrite <- app_assoc.
Qed.

(** A solution the generator's check accepts is accepted by the verifier. *)
Lemma accepted_by_both level_str solution_str :
  _verify_generated_solution level_str (Some solution_str) new_game = Ok true ->
  verify_kuboble_solution level_str solution_str = Ok true.
Proof.
  pose proof (new_game_wf level_str) as Hwf.
  unfold _verify_generated_solution.
  destruct (nonempty solution_str) eqn:Hne; simpl.
  2:{ intros [= Hwin]. apply nonempty_false in Hne. subst.
      rewrite verify_blank; [by rewrite Hwin|constructor]. }
  intros H. inv_bind H. destruct a as [s'|]; [|done]. injection H as Hwin.
  destruct (apply_all_run _ _ _ Hwf Ha) as (ms & Hrun & Hfr & Hdir).
  assert (ms <> []) as Hms.
  { intros ->. apply Forall2_nil_inv_r in Hfr.
    by destruct (split_by_nonempty (is_char ";") solution_str). }
  rewrite (verify_parsed _ _ (move_pair <$> ms)).
  - rewrite replay_via_state, (run_replay _ _ _ Hwf Hrun). simpl. by rewrite Hwin.
  - by rewrite (parse_moves_fragments _ _ _ ms []).
  - by destruct ms.
Qed.

Lemma apply_all_moves s ms s' :
  wf_game s -> run s ms s' ->
  (forall m, m ∈ ms -> (exists ch, m.1.1 = [ch] /\ is_upper_letter ch = true)
                       /\ m.2 ∈ direction_names) ->
  apply_all s (move_text <$> ms) = Ok (Some s').
Proof.
  intros Hwf Hrun. induction Hrun as [s|s pm pc np dn sa ms s' H1 H2 H3 Hr IH];
    intros Hpl; simpl; [done|].
  destruct (Hpl (pc, np, dn)) as [(ch & Hp & Hch) Hd]; [apply elem_of_cons; by left|].
  simpl in Hp, Hd. subst pc. unfold move_text at 1. simpl.
  destruct (move_fragment ch dn Hch Hd) as (Hstrip & _ & Hsplit & Hlow & _).
  rewrite Hstrip, Hsplit, Hlow, H1. simpl.
  rewrite (actual_move_emitted s pm [ch] np dn (wf_keys s Hwf) H1 H2).
  rewrite H3. simpl. apply IH.
  - destruct (listed_move_applies s pm _ _ _ Hwf H1 H2) as (s1 & Happ & Hwf1).
    rewrite H3 in Happ. by injection Happ as ->.
  - intros m Hm. apply Hpl, elem_of_cons. by right.
Qed.

(** A solution the search returns passes the generator's own check. *)
Lemma solver_path_checks level_str fuel max_depth solution :
  _is_solvable_bfs fuel (new_game level_str) max_depth = Ok (Some solution) ->
  _verify_generated_solution level_str (Some solution) new_game = Ok true.
Proof.
  unfold _is_solvable_bfs. intros H. inv_bind H.
  destruct a as [path|]; [|done]. injection H as <-.
  apply bfs_path_sound in Ha as (ms & t & Hrun & Hwin & -> & Hnil).
  pose proof (new_game_wf level_str) as Hwf.
  unfold _verify_generated_solution.
  destruct (decide (ms = [])) as [->|Hms].
  - simpl. by rewrite Hnil.
  - pose proof (run_moves_plain _ _ _ Hwf (new_game_piece_names level_str) Hrun) as Hpl.
    assert (nonempty (join (lit ";") (move_text <$> ms)) = true) as Hne.
    { destruct (nonempty _) eqn:E; [done|]. apply nonempty_false in E.
      by apply join_move_texts_nonempty in E. }
    rewrite Hne. simpl negb. cbn iota.
    assert (split_on ";" (join (lit ";") (move_text <$> ms)) = move_text <$> ms) as ->.
    { unfold split_on. change (lit ";") with [";"%char]. apply split_by_join.
      - by apply bool_decide_eq_true.
      - by destruct ms.
      - apply Forall_forall. intros f Hf.
        apply list_elem_of_fmap in Hf as ([[p pos] d] & -> & Hm).
        destruct (Hpl _ Hm) as [(ch & Hp & Hch) Hd]. simpl in *. subst p.
        unfold move_text. simpl. by apply move_fragment. }
    rewrite (apply_all_moves _ _ _ Hwf Hrun Hpl). simpl. by rewrite Hwin.
Qed.


(** ** Writing a board and reading it back *)

Lemma elem_of_obstacles s x :
  x ∈ obstacles s <-> is_obstacle s x /\ 0 <= x.1 < height s /\ 0 <= x.2 < width s.
Proof.
  unfold obstacles, is_obstacle. rewrite list_elem_of_filter. destruct x as [r c].
  rewrite elem_of_coords_of. simpl. tauto.
Qed.

Lemma NoDup_obstacles s : NoDup (obstacles s).
Proof. apply NoDup_filter, NoDup_coords_of. Qed.

(** The board read from the serialization of a board. *)
Lemma reparse_board s :
  wf_game s ->
  placement (width s) (height s) (pieces s) (targets s) (obstacles s) ->
  (forall t x, dict_get t (targets s) = Some x -> in_grid s x) ->
  width (new_game (serialize s)) = width s
  /\ height (new_game (serialize s)) = height s
  /\ (forall p x, dict_get p (pieces (new_game (serialize s))) = Some x
                  <-> dict_get p (pieces s) = Some x)
  /\ (forall t x, dict_get t (targets (new_game (serialize s))) = Some x <->
        dict_get t (targets s) = Some x
        /\ forall p, dict_get p (pieces s) = Some x -> lower p = t)
  /\ obstacles (new_game (serialize s)) = obstacles s.
Proof.
  intros Hwf Hpl Htin. unfold serialize.
  destruct (parse_level_text _ _ _ _ _ Hpl) as (Hw & Hh & Hp & Ht & Ho).
  split_and!; [done|done|done| |].
  - intros t x. rewrite Ht. split; [by intros (? & _ & ?)|].
    intros [H1 H2]. split; [done|]. split; [by apply (Htin t x)|done].
  - apply obstacles_ext; [done..|]. intros r c. rewrite Ho, elem_of_obstacles.
    split; [by intros [[? _] _]|]. intros Hx.
    destruct (cell_Some_in_range _ _ _ _ _ _ (wf_shape s Hwf) Hx) as [Hr Hc].
    simpl. tauto.
Qed.

Section Reparse.
Variables (w h : Z) (P T : dict pos) (O : list pos).
Hypothesis Hpl : placement w h P T O.

(** The boards reached from a generated level can be written faithfully. *)
Lemma placement_reachable s :
  reachable (new_game (_coords_to_level_string w h P T O)) s ->
  placement (width s) (height s) (pieces s) (targets s) (obstacles s)
  /\ forall t x, dict_get t (targets s) = Some x -> in_grid s x.
Proof.
  set (s0 := new_game (_coords_to_level_string w h P T O)). intros Hreach.
  destruct (parse_level_text _ _ _ _ _ Hpl) as (Hw0 & Hh0 & Hp0 & Ht0 & Ho0).
  fold s0 in Hw0, Hh0, Hp0, Ht0, Ho0.
  pose proof (new_game_wf (_coords_to_level_string w h P T O)) as Hwf0.
  pose proof (new_game_piece_names (_coords_to_level_string w h P T O)) as Hn0.
  destruct (parsed_targets (_coords_to_level_string w h P T O)) as (HT1 & HT2 & HT3).
  fold s0 in Hwf0, Hn0, HT1, HT2, HT3.
  destruct (reachable_wf s0 s Hwf0 Hreach) as (Hwf & Ht & Hw & Hh & Hk & Hobs).
  destruct Hpl as [Hh' Hw' HPk HPp HPin HPn HPX HPO HTk HTp HTn HTO HO].
  split.
  - constructor.
    + lia.
    + lia.
    + apply Hwf.
    + apply NoDup_snd_of_inj; [apply Hwf|]. intros k1 k2 v H1 H2.
      apply (wf_distinct s k1 k2 v Hwf); apply elem_dict_get; done || apply Hwf.
    + intros p [r c] Hin. apply elem_dict_get in Hin; [|apply Hwf].
      by destruct (wf_piece s Hwf p r c Hin) as ([? ?] & _).
    + intros p Hp. apply Hn0. by rewrite <- Hk.
    + intros HX. apply dict_get_is_Some in HX as [[r c] HX].
      by destruct (wf_piece s Hwf _ r c HX) as (_ & _ & ?).
    + intros p [r c] Hin Hx. apply elem_dict_get in Hin; [|apply Hwf].
      destruct (wf_piece s Hwf p r c Hin) as (_ & Hc & HpX).
      apply elem_of_obstacles in Hx as [Hx _]. unfold is_obstacle in Hx. simpl in Hx.
      congruence.
    + by rewrite Ht.
    + by rewrite Ht.
    + intros t Hin. rewrite Ht in Hin. apply dict_get_is_Some in Hin as [x Hin].
      by destruct (HT3 t x Hin).
    + intros t [r c] Hin Hx. rewrite Ht in Hin. apply elem_dict_get in Hin; [|done].
      apply Ht0 in Hin as (Hin & _). apply dict_get_Some_elem in Hin.
      apply (HTO _ _ Hin). apply elem_of_obstacles in Hx as [Hx _].
      apply Hobs in Hx. by apply Ho0 in Hx as [? _].
    + apply NoDup_obstacles.
  - intros t x Hin. rewrite Ht in Hin. destruct (HT3 t x Hin) as [[H1 H2] _].
    unfold in_grid. by rewrite Hw, Hh.
Qed.

(** The board read from the serialization of a board reached from a
    generated level: all is kept, except the targets under a piece of
    another letter. *)
Lemma reparse_reachable s :
  reachable (new_game (_coords_to_level_string w h P T O)) s ->
  width (new_game (serialize s)) = width s
  /\ height (new_game (serialize s)) = height s
  /\ (forall p x, dict_get p (pieces (new_game (serialize s))) = Some x
                  <-> dict_get p (pieces s) = Some x)
  /\ (forall t x, dict_get t (targets (new_game (serialize s))) = Some x <->
        dict_get t (targets s) = Some x
        /\ forall p, dict_get p (pieces s) = Some x -> lower p = t)
  /\ obstacles (new_game (serialize s)) = obstacles s.
Proof.
  intros Hreach. destruct (placement_reachable s Hreach) as [Hpl' Htin].
  apply reparse_board; [|done..].
  eapply reachable_wf; [apply new_game_wf|exact Hreach].
Qed.
End Reparse.

(** ** The search ends *)

Lemma tuples_exist {A} (C : list A) (n : nat) :
  exists L : list (list A), forall l, length l = n -> Forall (fun x => x ∈ C) l -> l ∈ L.
Proof.
  induction n as [|n [L HL]].
  - exists [[]]. intros l Hl _. apply nil_length_inv in Hl. subst.
    by apply list_elem_of_singleton.
  - exists (c ← C; (fun l => c :: l) <$> L). intros [|x l] Hl Hall; [done|].
    apply Forall_cons in Hall as [Hx Hall]. apply list_elem_of_bind. exists x.
    split; [|done]. apply list_elem_of_fmap. exists l. split; [done|].
    apply HL; [|done]. simpl in Hl. lia.
Qed.

(** The boards reached from a well-formed board have finitely many keys. *)
Lemma reachable_keys_finite s0 :
  wf_game s0 ->
  exists U : list (list (str * pos)), forall t, reachable s0 t -> state_key t ∈ U.
Proof.
  intros Hwf0.
  destruct (tuples_exist (coords_of (width s0) (height s0)) (length (pieces s0)))
    as [L HL].
  exists ((fun ps => merge_sort item_le (zip (keys (pieces s0)) ps)) <$> L).
  intros t Hreach.
  destruct (reachable_wf s0 t Hwf0 Hreach) as (Hwf & _ & Hw & Hh & Hk & _).
  apply list_elem_of_fmap. exists ((pieces t).*2). split.
  - unfold state_key. f_equal. rewrite <- Hk. unfold keys. by rewrite zip_fst_snd.
  - apply HL.
    + rewrite length_fmap. rewrite <- (length_fmap fst (pieces t)).
      rewrite <- (length_fmap fst (pieces s0)). unfold keys in Hk. by rewrite Hk.
    + apply Forall_forall. intros [r c] Hx.
      apply list_elem_of_fmap in Hx as ([p x] & Heq & Hin). simpl in Heq. subst x.
      apply elem_dict_get in Hin; [|apply Hwf].
      destruct (wf_piece t Hwf p r c Hin) as ([Hr Hc] & _). simpl in Hr, Hc.
      apply elem_of_coords_of. lia.
Qed.

Section Termination.
Variable s0 : KubobleGame.
Hypothesis Hwf0 : wf_game s0.
Variable U : list (list (str * pos)).
Hypothesis HU : forall t, reachable s0 t -> state_key t ∈ U.

Lemma visited_bound (visited : list (list (str * pos))) :
  NoDup visited -> visited ⊆ U -> (length visited <= length U)%nat.
Proof.
  intros Hnd Hsub. apply submseteq_length. by apply NoDup_submseteq.
Qed.

Lemma expand_ends g path depth possible moves queue visited :
  reachable s0 g -> get_possible_moves g = Ok possible -> moves ⊆ possible ->
  Forall (fun e : entry => reachable s0 e.1.1) queue ->
  NoDup visited -> visited ⊆ U ->
  exists r, expand g path depth moves queue visited = Ok r
    /\ match r with
       | inl _ => True
       | inr (queue', visited') =>
           Forall (fun e : entry => reachable s0 e.1.1) queue'
           /\ NoDup visited' /\ visited' ⊆ U
           /\ exists j : nat, length queue' = (length queue + j)%nat
                              /\ length visited' = (length visited + j)%nat
       end.
Proof.
  intros Hg Hms. destruct (reachable_wf s0 g Hwf0 Hg) as (Hwf & _).
  revert queue visited.
  induction moves as [|[[p new_pos] name] moves IH]; intros queue visited Hsub Hq Hnd Hv;
    simpl.
  - eexists. split; [done|]. split_and!; [done..|]. exists 0%nat. lia.
  - assert ((p, new_pos, name) ∈ possible) as Hin by (apply Hsub, elem_of_cons; by left).
    assert (moves ⊆ possible) as Hsub'.
    { intros m Hm. apply Hsub, elem_of_cons. by right. }
    destruct (listed_move_applies g possible _ _ _ Hwf Hms Hin) as (next & Happ & Hwfn).
    rewrite Happ. simpl. destruct (is_win next); [by eexists|].
    assert (reachable s0 next) as Hnext.
    { eapply reachable_move; [exact Hg|]. by exists possible, p, new_pos, name. }
    case_decide as Hseen.
    + by apply IH.
    + destruct (IH (queue ++ [(next, path ++ [move_str p name], depth + 1)])
                  (state_key next :: visited)) as (r & Hr & Hpost); try done.
      * apply Forall_app. split; [done|]. by apply Forall_singleton.
      * by apply NoDup_cons.
      * intros k [->|Hk]%elem_of_cons; [by apply HU|by apply Hv].
      * exists r. split; [done|]. destruct r as [new_path|[queue' visited']]; [done|].
        destruct Hpost as (H1 & H2 & H3 & j & Hj1 & Hj2).
        split_and!; [done..|]. exists (S j). rewrite length_app in Hj1. simpl in *. lia.
Qed.

Lemma bfs_loop_ends fuel max_depth queue visited :
  Forall (fun e : entry => reachable s0 e.1.1) queue ->
  NoDup visited -> visited ⊆ U ->
  (2 * (length U - length visited) + length queue < fuel)%nat ->
  exists r, bfs_loop fuel max_depth queue visited = Ok r.
Proof.
  revert queue visited. induction fuel as [|fuel IH]; intros queue visited Hq Hnd Hv Hm;
    [lia|].
  destruct queue as [|[[g p] k] queue]; simpl; [by eauto|].
  apply Forall_cons in Hq as [Hg Hq]. simpl in Hg, Hm.
  case_decide as Hd.
  - apply IH; [done..|lia].
  - destruct (reachable_wf s0 g Hwf0 Hg) as (Hwf & _).
    destruct (get_possible_moves_Ok g (wf_shape g Hwf)) as [possible Hms].
    rewrite Hms. simpl.
    destruct (expand_ends g p k possible possible queue visited Hg Hms ltac:(done) Hq Hnd Hv)
      as (r & Hr & Hpost).
    rewrite Hr. simpl. destruct r as [new_path|[queue' visited']]; [by eauto|].
    destruct Hpost as (H1 & H2 & H3 & j & Hj1 & Hj2).
    apply IH; [done..|]. pose proof (visited_bound visited Hnd Hv).
    pose proof (visited_bound visited' H2 H3). lia.
Qed.

Lemma bfs_path_ends fuel max_depth :
  (2 * length U + 2 <= fuel)%nat -> exists r, bfs_path fuel s0 max_depth = Ok r.
Proof.
  intros Hfuel. unfold bfs_path. destruct (is_win s0); [by eauto|].
  apply bfs_loop_ends.
  - apply Forall_singleton. apply reachable_start.
  - apply NoDup_singleton.
  - intros k ->%list_elem_of_singleton. apply HU, reachable_start.
  - simpl. lia.
Qed.
End Termination.

(** With enough fuel the search on a well-formed board ends. *)
Lemma bfs_ends s0 :
  wf_game s0 ->
  exists N : nat, forall fuel max_depth, (N <= fuel)%nat ->
    exists r, _is_solvable_bfs fuel s0 max_depth = Ok r.
Proof.
  intros Hwf. destruct (reachable_keys_finite s0 Hwf) as [U HU].
  exists (2 * length U + 2)%nat. intros fuel max_depth Hfuel.
  destruct (bfs_path_ends s0 Hwf U HU fuel max_depth Hfuel) as [r Hr].
  unfold _is_solvable_bfs. rewrite Hr. simpl. destruct r; by eauto.
Qed.

(** With enough fuel for its searches the generator ends: it returns a
    pair or [None], or raises [ValueError]. *)
Lemma attempts_end shuffle todo w h np no depth nt :
  exists N : nat, forall fuel, (N <= fuel)%nat ->
    exists r, attempts shuffle fuel todo w h np no depth nt = Ok r.
Proof.
  induction todo as [|attempt todo [N IH]].
  - exists 0%nat. intros fuel _. by eexists.
  - assert (exists Na : nat, forall fuel, (Na <= fuel)%nat ->
              exists r, attempt_level shuffle fuel attempt w h np no depth nt = Ok r)
      as [Na Ha].
    { unfold attempt_level.
      destruct (draw_pieces _ _ _ _ _) as [[all_coords pieces_pos] targets_pos].
      destruct (bool_decide _); [exists 0%nat; by eauto|].
      destruct (draw_obstacles _ _ _) as [all_coords' obstacles_pos].
      destruct (bfs_ends (new_game (_coords_to_level_string w h pieces_pos targets_pos
                                      obstacles_pos)) (new_game_wf _)) as [Ng Hg].
      exists Ng. intros fuel Hfuel.
      destruct (Hg fuel 0 Hfuel) as [cs ->]. simpl.
      destruct (_ && _); [by eauto|].
      destruct (Hg fuel depth Hfuel) as [sol ->]. simpl. destruct sol; by eauto. }
    exists (Na `max` N)%nat. intros fuel Hfuel. simpl.
    destruct (Ha fuel ltac:(lia)) as [r ->]. simpl.
    destruct r; [by eauto|]. apply IH. lia.
Qed.

Lemma generate_ends shuffle w h np no attempts_limit depth nt :
  exists N : nat, forall fuel, (N <= fuel)%nat ->
    (exists r, generate_kuboble_level shuffle fuel w h np no attempts_limit depth nt = Ok r)
    \/ generate_kuboble_level shuffle fuel w h np no attempts_limit depth nt
       = Raise ValueError.
Proof.
  unfold generate_kuboble_level.
  case_decide; [exists 0%nat; intros; left; by eauto|].
  case_decide; [exists 0%nat; intros; by right|].
  case_decide; [exists 0%nat; intros; by right|].
  destruct (attempts_end shuffle (seq 0 (Z.to_nat attempts_limit)) w h np no depth nt)
    as [N HN].
  exists N. intros fuel Hfuel. left. by apply HN.
Qed.

(** ** The coordinates the generator draws *)

Lemma py_pop_Some {A} (l : list A) x l' : py_pop l = Some (x, l') -> l = l' ++ [x].
Proof.
  unfold py_pop. destruct (reverse l) as [|y r] eqn:E; [done|]. intros [= <- <-].
  apply (f_equal reverse) in E. rewrite reverse_involutive in E.
  by rewrite E, reverse_cons.
Qed.

Lemma py_pop_None {A} (l : list A) : py_pop l = None -> l = [].
Proof.
  unfold py_pop. destruct (reverse l) as [|y r] eqn:E; [|done]. intros _.
  apply (f_equal reverse) in E. by rewrite reverse_involutive in E.
Qed.

Lemma dict_set_fresh {V} k (v : V) d : k ∉ keys d -> dict_set k v d = d ++ [(k, v)].
Proof.
  induction d as [|[k' v'] d IH]; simpl; [done|]. intros Hk.
  apply not_elem_of_cons in Hk as [Hne Hk]. rewrite decide_False by done.
  by rewrite IH.
Qed.

Lemma piece_letter_upper (i : nat) :
  (i < 26)%nat -> exists ch, piece_letter i = [ch] /\ is_upper_letter ch = true.
Proof.
  intros Hi. do 26 (destruct i as [|i]; [eexists; split; reflexivity|]). lia.
Qed.

Lemma piece_letter_inj (i j : nat) :
  (i < 26)%nat -> (j < 26)%nat -> piece_letter i = piece_letter j -> i = j.
Proof.
  intros Hi Hj [= H]. apply (f_equal nat_of_ascii) in H.
  rewrite !nat_ascii_embedding in H by lia. lia.
Qed.

Lemma piece_letter_not_X (i : nat) : (i < 23)%nat -> piece_letter i <> lit "X".
Proof.
  intros Hi H. change (lit "X") with (piece_letter 23) in H.
  apply piece_letter_inj in H; lia.
Qed.

Lemma target_letter_lower (i : nat) :
  (i < 26)%nat ->
  exists ch, lower (piece_letter i) = [ch] /\ is_lower_letter ch = true.
Proof.
  intros Hi. destruct (piece_letter_upper i Hi) as (ch & -> & Hch).
  exists (lower_char ch). split; [done|]. by apply lower_char_upper.
Qed.

Lemma target_letter_inj (i j : nat) :
  (i < 26)%nat -> (j < 26)%nat ->
  lower (piece_letter i) = lower (piece_letter j) -> i = j.
Proof.
  intros Hi Hj H. apply piece_letter_inj; [done..|].
  destruct (piece_letter_upper i Hi) as (ci & Ei & Hci).
  destruct (piece_letter_upper j Hj) as (cj & Ej & Hcj).
  rewrite Ei, Ej in *. rewrite !lower_single in H. injection H as H.
  f_equal. by apply lower_char_inj.
Qed.

Lemma fresh_letter {B} (f : nat -> B) (i : nat) :
  (forall a b, (a < 26)%nat -> (b < 26)%nat -> f a = f b -> a = b) ->
  (i < 26)%nat -> f i ∉ f <$> seq 0 i.
Proof.
  intros Hinj Hi Hin. apply list_elem_of_fmap in Hin as (k & Heq & Hk).
  apply elem_of_seq in Hk. apply Hinj in Heq; lia.
Qed.

Lemma draw_pieces_spec todo : forall i l P T l' P' T',
  (i + todo <= 26)%nat ->
  keys P = piece_letter <$> seq 0 i ->
  keys T = (fun k => lower (piece_letter k)) <$> seq 0 i ->
  draw_pieces i todo l P T = (l', P', T') ->
  exists j : nat, (j <= todo)%nat
    /\ keys P' = piece_letter <$> seq 0 (i + j)
    /\ keys T' = (fun k => lower (piece_letter k)) <$> seq 0 (i + j)
    /\ P'.*2 ++ T'.*2 ++ l' ≡ₚ P.*2 ++ T.*2 ++ l.
Proof.
  induction todo as [|todo IH]; intros i l P T l' P' T' Hi HP HT; simpl.
  - intros [= <- <- <-]. exists 0%nat. rewrite Nat.add_0_r. by split_and!.
  - assert (exists j : nat, (j <= S todo)%nat
              /\ keys P = piece_letter <$> seq 0 (i + j)
              /\ keys T = (fun k => lower (piece_letter k)) <$> seq 0 (i + j)
              /\ P.*2 ++ T.*2 ++ l ≡ₚ P.*2 ++ T.*2 ++ l) as Hstop.
    { exists 0%nat. rewrite Nat.add_0_r. split_and!; [lia|done..]. }
    case_decide as Hlen; [by intros [= <- <- <-]|].
    destruct (py_pop l) as [[piece_coord l1]|] eqn:E1; [|by intros [= <- <- <-]].
    destruct (py_pop l1) as [[target_coord l2]|] eqn:E2; [|by intros [= <- <- <-]].
    apply py_pop_Some in E1, E2. subst l l1. intros Hdraw.
    rewrite dict_set_fresh in Hdraw
      by (rewrite HP; apply fresh_letter; [apply piece_letter_inj|lia]).
    rewrite dict_set_fresh in Hdraw
      by (rewrite HT; apply (fresh_letter (fun k => lower (piece_letter k)));
          [apply target_letter_inj|lia]).
    apply IH in Hdraw as (j & Hj & HP' & HT' & Hperm).
    + exists (S j). replace (i + S j)%nat with (S i + j)%nat by lia.
      split_and!; [lia|done..|]. rewrite Hperm. rewrite !fmap_app. simpl.
      solve_Permutation.
    + lia.
    + unfold keys in *. rewrite fmap_app, HP, seq_S, fmap_app. done.
    + unfold keys in *. rewrite fmap_app, HT, seq_S, fmap_app. done.
Qed.

Lemma draw_obstacles_spec todo : forall l O l' O',
  draw_obstacles todo l O = (l', O') ->
  exists os, O' = O ++ os /\ l ≡ₚ l' ++ os /\ length os = (todo `min` length l)%nat.
Proof.
  induction todo as [|todo IH]; intros l O l' O'; simpl.
  - intros [= <- <-]. exists []. by rewrite !app_nil_r.
  - destruct (py_pop l) as [[x l1]|] eqn:E.
    + apply py_pop_Some in E. subst l. intros H.
      apply IH in H as (os & -> & Hperm & Hlen). exists (x :: os).
      rewrite <- app_assoc. split_and!; [done| |].
      * rewrite Hperm. rewrite <- app_assoc.
        by rewrite (Permutation_app_comm os [x]).
      * rewrite length_app. cbn [length]. rewrite Nat.add_1_r. by rewrite Hlen.
    + apply py_pop_None in E. subst l. intros [= <- <-]. exists [].
      rewrite !app_nil_r. split_and!; [done..|]. simpl. lia.
Qed.

Lemma length_coords_of w h :
  length (coords_of w h) = (Z.to_nat h * Z.to_nat w)%nat.
Proof.
  unfold coords_of. rewrite <- (length_seqZ 0 h), <- (length_seqZ 0 w).
  generalize (seqZ 0 h), (seqZ 0 w). intros rs cs.
  induction rs as [|r rs IH]; [done|].
  rewrite bind_cons, length_app, length_fmap, IH. simpl. lia.
Qed.

(** What one successful attempt has drawn. *)
Lemma attempt_level_found shuffle fuel attempt w h np no depth nt level_string solution :
  shuffle attempt (coords_of w h) ≡ₚ coords_of w h ->
  1 <= np <= 23 ->
  attempt_level shuffle fuel attempt w h np no depth nt
    = Ok (Some (level_string, solution)) ->
  exists P T O,
    level_string = _coords_to_level_string w h P T O
    /\ placement w h P T O
    /\ keys P = piece_letter <$> seq 0 (Z.to_nat np)
    /\ keys T = (fun k => lower (piece_letter k)) <$> seq 0 (Z.to_nat np)
    /\ (forall t p x, (t, x) ∈ T -> (p, x) ∉ P)
    /\ (forall x, x ∈ O -> 0 <= x.1 < h /\ 0 <= x.2 < w)
    /\ (forall t x, (t, x) ∈ T -> 0 <= x.1 < h /\ 0 <= x.2 < w)
    /\ length O = (Z.to_nat no `min` (length (coords_of w h) - 2 * Z.to_nat np))%nat.
Proof.
  intros Hshuf Hnp. unfold attempt_level.
  destruct (draw_pieces _ _ _ _ _) as [[l1 P] T] eqn:Edraw.
  case_bool_decide as Hcount; [done|].
  destruct (draw_obstacles _ _ _) as [l2 O] eqn:Eobs.
  intros H. inv_bind H. destruct (_ && _); [done|]. inv_bind H.
  destruct a0 as [sol|]; [|done]. injection H as <- <-. clear Ha Ha0 a.
  apply draw_pieces_spec in Edraw as (j & Hj & HP & HT & Hperm); [|lia|done..].
  simpl in HP, HT, Hperm.
  assert (j = Z.to_nat np) as ->.
  { apply (f_equal length) in HP. unfold keys in HP.
    rewrite !length_fmap, length_seq in HP. lia. }
  apply draw_obstacles_spec in Eobs as (os & -> & Hperm2 & Hlen). simpl in *.
  assert (P.*2 ++ T.*2 ++ l2 ++ os ≡ₚ coords_of w h) as Hall.
  { rewrite <- Hshuf, <- Hperm. by rewrite Hperm2. }
  assert (NoDup (P.*2 ++ T.*2 ++ l2 ++ os)) as Hnd
    by (rewrite Hall; apply NoDup_coords_of).
  apply NoDup_app in Hnd as (HndP & HPrest & Hnd).
  apply NoDup_app in Hnd as (HndT & HTrest & Hnd).
  apply NoDup_app in Hnd as (_ & _ & HndO).
  assert (forall x, x ∈ P.*2 ++ T.*2 ++ l2 ++ os -> 0 <= x.1 < h /\ 0 <= x.2 < w) as Hrange.
  { intros [r c] Hx. rewrite Hall in Hx. apply elem_of_coords_of in Hx. simpl. lia. }
  assert (forall p x, (p, x) ∈ P -> x ∈ P.*2) as HinP
    by (intros p x Hin; by apply (list_elem_of_fmap_2 snd) in Hin).
  assert (forall t x, (t, x) ∈ T -> x ∈ T.*2) as HinT
    by (intros t x Hin; by apply (list_elem_of_fmap_2 snd) in Hin).
  assert (length P = Z.to_nat np) as HlenP.
  { apply (f_equal length) in HP. unfold keys in HP.
    by rewrite !length_fmap, length_seq in HP. }
  assert (length T = Z.to_nat np) as HlenT.
  { apply (f_equal length) in HT. unfold keys in HT.
    by rewrite !length_fmap, length_seq in HT. }
  assert (0 < h /\ 0 < w) as [Hh Hw].
  { destruct P as [|[p [r c]] P]; [simpl in HlenP; lia|].
    destruct (Hrange (r, c)) as [H1 H2]; [apply elem_of_app; left; simpl; by left|].
    simpl in H1, H2. lia. }
  exists P, T, os. split_and!; try done.
  - constructor; try done.
    + lia.
    + rewrite HP. apply NoDup_fmap_2_strong; [|apply NoDup_seq].
      intros a b Ha%elem_of_seq Hb%elem_of_seq. apply piece_letter_inj; lia.
    + intros p x Hin. apply Hrange, elem_of_app. left. by eapply HinP.
    + intros p Hp. rewrite HP in Hp. apply list_elem_of_fmap in Hp as (k & -> & Hk).
      apply elem_of_seq in Hk. apply piece_letter_upper. lia.
    + rewrite HP. intros Hin. apply list_elem_of_fmap in Hin as (k & Heq & Hk).
      apply elem_of_seq in Hk. symmetry in Heq. apply piece_letter_not_X in Heq; [done|lia].
    + intros p x Hin Hx. apply (HPrest x); [by eapply HinP|].
      apply elem_of_app. right. apply elem_of_app. by right.
    + rewrite HT. apply NoDup_fmap_2_strong; [|apply NoDup_seq].
      intros a b Ha%elem_of_seq Hb%elem_of_seq. apply target_letter_inj; lia.
    + intros t Ht. rewrite HT in Ht. apply list_elem_of_fmap in Ht as (k & -> & Hk).
      apply elem_of_seq in Hk. apply target_letter_lower. lia.
    + intros t x Hin Hx. apply (HTrest x); [by eapply HinT|].
      apply elem_of_app. by right.
  - intros t p x Ht Hp. apply (HPrest x); [by eapply HinP|].
    apply elem_of_app. left. by eapply HinT.
  - intros x Hx. apply Hrange. apply elem_of_app. right. apply elem_of_app. right.
    apply elem_of_app. by right.
  - intros t x Hin. apply Hrange. apply elem_of_app. right. apply elem_of_app. left.
    by eapply HinT.
  - rewrite Hlen. f_equal. apply Permutation_length in Hperm.
    rewrite !length_app, !length_fmap in Hperm.
    apply Permutation_length in Hshuf. lia.
Qed.

Lemma attempts_from_attempt shuffle fuel todo w h np no depth nt res :
  attempts shuffle fuel todo w h np no depth nt = Ok (Some res) ->
  exists attempt, attempt_level shuffle fuel attempt w h np no depth nt = Ok (Some res).
Proof.
  induction todo as [|attempt todo IH]; simpl; [done|].
  intros H. inv_bind H. destruct a as [res'|]; [|by apply IH].
  injection H as ->. by exists attempt.
Qed.

(** The level of a returned pair holds what was asked for. *)
Lemma generated_level_shape shuffle fuel w h np no attempts_limit depth nt
    level_string solution :
  (forall n l, shuffle n l ≡ₚ l) ->
  1 <= np <= 23 -> 0 <= no ->
  generate_kuboble_level shuffle fuel w h np no attempts_limit depth nt
    = Ok (Some (level_string, solution)) ->
  width (new_game level_string) = w /\ height (new_game level_string) = h
  /\ keys (pieces (new_game level_string)) ≡ₚ piece_letter <$> seq 0 (Z.to_nat np)
  /\ keys (targets (new_game level_string))
     ≡ₚ (fun k => lower (piece_letter k)) <$> seq 0 (Z.to_nat np)
  /\ length (obstacles (new_game level_string)) = Z.to_nat no
  /\ (forall t x, dict_get t (targets (new_game level_string)) = Some x ->
        ~ is_obstacle (new_game level_string) x
        /\ forall p, dict_get p (pieces (new_game level_string)) <> Some x).
Proof.
  intros Hshuf Hnp Hno. unfold generate_kuboble_level.
  rewrite decide_False by lia. rewrite decide_False by lia.
  case_decide as Hcap; [done|]. intros H.
  apply attempts_from_attempt in H as [attempt H].
  apply attempt_level_found in H
    as (P & T & O & -> & Hpl & HP & HT & Hdisj & HOin & HTin & HlenO); [|done..].
  destruct (parse_level_text w h P T O Hpl) as (Hw & Hh & Hp & Ht & Ho).
  pose proof Hpl as [Hh' Hw' HPk HPp HPin HPn HPX HPO HTk HTp HTn HTO HO].
  set (g := new_game (_coords_to_level_string w h P T O)) in *.
  assert (forall t x, dict_get t (targets g) = Some x <-> dict_get t T = Some x) as Ht'.
  { intros t x. rewrite Ht. split; [by intros [? _]|]. intros HtT.
    apply dict_get_Some_elem in HtT as Hin. split; [done|]. split; [by eapply HTin|].
    intros p Hp'. apply dict_get_Some_elem in Hp'. by destruct (Hdisj t p x Hin). }
  split; [done|]. split; [done|]. split; [|split; [|split]].
  - rewrite <- HP. apply NoDup_Permutation; [apply (new_game_wf _)|done|].
    intros p. rewrite <- !dict_get_is_Some. unfold is_Some.
    split; intros [x Hx]; exists x; by apply Hp.
  - rewrite <- HT. apply NoDup_Permutation; [apply parsed_targets|done|].
    intros t. rewrite <- !dict_get_is_Some. unfold is_Some.
    split; intros [x Hx]; exists x; by apply Ht'.
  - assert (obstacles g ≡ₚ O) as ->.
    { apply NoDup_Permutation; [apply NoDup_obstacles|done|].
      intros x. rewrite elem_of_obstacles, Ho, Hw, Hh. split; [by intros [[? _] _]|].
      intros Hx. pose proof (HOin x Hx). tauto. }
    rewrite HlenO, length_coords_of. nia.
  - intros t x Hx. apply Ht' in Hx. apply dict_get_Some_elem in Hx. split.
    + intros Hob. apply Ho in Hob as [Hob _]. by destruct (HTO t x Hx).
    + intros p Hp'. apply Hp in Hp'. apply dict_get_Some_elem in Hp'.
      by destruct (Hdisj t p x Hx).
Qed.

(** ** Whitespace around a level and separators after a solution *)

Lemma lstrip_spaces pre s :
  Forall (fun c => is_space c = true) pre -> lstrip (pre ++ s) = lstrip s.
Proof.
  induction pre as [|c pre IH]; intros H; simpl; [done|].
  apply Forall_cons in H as [-> H]. by apply IH.
Qed.

Lemma lstrip_app_keep s t : lstrip s <> [] -> lstrip (s ++ t) = lstrip s ++ t.
Proof.
  induction s as [|c s IH]; simpl; [done|]. destruct (is_space c); [done|]. done.
Qed.

Lemma rstrip_spaces s post :
  Forall (fun c => is_space c = true) post -> rstrip (s ++ post) = rstrip s.
Proof.
  intros H. unfold rstrip. rewrite rev_app_distr. rewrite lstrip_spaces; [done|].
  apply Forall_forall. intros c Hc. apply list_elem_of_In, in_rev, list_elem_of_In in Hc.
  rewrite Forall_forall in H. by apply H.
Qed.

Lemma strip_spaces pre s post :
  Forall (fun c => is_space c = true) pre -> Forall (fun c => is_space c = true) post ->
  strip (pre ++ s ++ post) = strip s.
Proof.
  intros Hpre Hpost. unfold strip. rewrite lstrip_spaces by done.
  destruct (lstrip s) as [|c t] eqn:E.
  - apply lstrip_nil_inv in E.
    rewrite lstrip_all_space; [done|]. apply Forall_app. by split.
  - rewrite lstrip_app_keep by by rewrite E. rewrite E. by apply rstrip_spaces.
Qed.

(** Whitespace before and after the level text is ignored. *)
Lemma new_game_spaces pre level_string post :
  Forall (fun c => is_space c = true) pre -> Forall (fun c => is_space c = true) post ->
  new_game (pre ++ level_string ++ post) = new_game level_string.
Proof.
  intros Hpre Hpost. unfold new_game, _parse_level. by rewrite strip_spaces.
Qed.

Lemma split_by_snoc_sep P s x :
  P x = true -> split_by P (s ++ [x]) = split_by P s ++ [[]].
Proof.
  intros Hx. induction s as [|c s IH]; simpl.
  - by rewrite Hx.
  - rewrite IH. destruct (P c); [done|].
    pose proof (split_by_nonempty P s) as Hne. by destruct (split_by P s).
Qed.

Lemma parse_moves_trailing frs : forall idx acc n,
  (idx + length frs = n)%nat ->
  parse_moves (S n) idx (frs ++ [[]]) acc
  = match parse_moves n idx frs acc with
    | Parsed [] => ReturnIsWin
    | r => r
    end.
Proof.
  induction frs as [|f frs IH]; intros idx acc n Hn; simpl in *.
  - rewrite bool_decide_eq_true_2 by lia. simpl.
    destruct acc as [|a acc].
    + by rewrite bool_decide_eq_false_2 by (intros H; by apply H).
    + by rewrite bool_decide_eq_true_2.
  - destruct (nonempty (strip f)) eqn:Hf; simpl.
    + destruct (split_ws (strip f)) as [|p0 [|p1 [|p2 l]]]; try done.
      destruct (bool_decide _); [|done]. apply IH. lia.
    + rewrite (bool_decide_eq_false_2 (Z.of_nat idx = Z.of_nat (S n) - 1)) by lia.
      simpl. rewrite (IH (S idx) acc n) by lia.
      case_bool_decide as Hlast; simpl; [|done].
      destruct frs as [|f' frs]; [|simpl in Hn; lia]. simpl.
      destruct acc as [|a acc].
      * by rewrite bool_decide_eq_false_2 by (intros H; by apply H).
      * by rewrite bool_decide_eq_true_2.
Qed.

Lemma strip_nonspace s c : c ∈ s -> is_space c = false -> strip s <> [].
Proof.
  intros Hin Hc Hs. apply strip_nil_inv in Hs. rewrite Forall_forall in Hs.
  apply Hs in Hin. congruence.
Qed.

(** A [;] after the solution text does not change the verdict. *)
Lemma verify_trailing_separator level_string solution :
  verify_kuboble_solution level_string (solution ++ lit ";")
  = verify_kuboble_solution level_string solution.
Proof.
  unfold verify_kuboble_solution.
  assert (strip (solution ++ lit ";") <> []) as Hs.
  { apply (strip_nonspace _ ";"%char); [|done]. apply elem_of_app. right.
    by apply list_elem_of_singleton. }
  assert (nonempty (solution ++ lit ";") = true) as -> by by destruct solution.
  assert (nonempty (strip (solution ++ lit ";")) = true) as ->
    by by destruct (strip (solution ++ lit ";")).
  simpl negb. cbn [orb andb]. unfold split_on. change (lit ";") with [";"%char].
  rewrite split_by_snoc_sep by done. rewrite length_app. simpl length.
  rewrite Nat.add_1_r, parse_moves_trailing by done.
  fold (split_on ";" solution).
  destruct (negb (nonempty solution) || negb (nonempty (strip solution))) eqn:Hblank.
  - destruct (blank_solution_parse solution Hblank) as [-> | ->]; done.
  - destruct (parse_moves _ _ _ _) as [| |pm]; [done..|].
    destruct pm as [|e pm].
    + rewrite bool_decide_eq_false_2 by (intros H; by apply H). simpl.
      apply orb_false_iff in Hblank as [_ H]. apply negb_false_iff in H. by rewrite H.
    + by rewrite bool_decide_eq_true_2.
Qed.

(** * Further properties of the code *)

(** ** The parser *)

(** X1. Whatever the level text, [KubobleGame(level_string)] builds a
    well-formed board: the grid is a [height] by [width] rectangle, piece
    names are unique, every piece stands inside the grid on a cell that
    shows its name, no piece is called ["X"], and every cell shows an
    obstacle, nothing, or the piece standing on it.  The height is the
    number of [;]-separated rows of the stripped text, so it is at least
    one, also for the empty text. *)
Theorem parser_builds_a_well_formed_board (level_string : str) :
  wf_game (new_game level_string)
  /\ 1 <= height (new_game level_string)
  /\ 0 <= width (new_game level_string)
  /\ height (new_game level_string)
     = Z.of_nat (length (split_on ";" (strip level_string))).
Proof.
  split; [apply new_game_wf|apply parsed_dimensions].
Qed.

(** X2. The names the parser records: every piece is named by one capital
    letter, every target by one small letter; target names are unique, no
    two targets share a cell, and every target lies inside the grid. *)
Theorem parser_records_letters (level_string : str) :
  (forall p, p ∈ keys (pieces (new_game level_string)) ->
     exists ch, p = [ch] /\ is_upper_letter ch = true)
  /\ NoDup (keys (targets (new_game level_string)))
  /\ NoDup ((targets (new_game level_string)).*2)
  /\ (forall t x, dict_get t (targets (new_game level_string)) = Some x ->
        in_grid (new_game level_string) x
        /\ exists ch, t = [ch] /\ is_lower_letter ch = true).
Proof.
  split; [apply new_game_piece_names|apply parsed_targets].
Qed.

(** A sample of coordinates: two pieces, two targets and one obstacle on
    a grid of two rows and three columns. *)
Ltac sample_placement :=
  constructor;
  [ lia | lia
  | apply (bool_decide_unpack _); by vm_compute
  | apply (bool_decide_unpack _); by vm_compute
  | let Hin := fresh "Hin" in
    intros ? ? Hin;
    repeat (apply elem_of_cons in Hin as [Hin|Hin];
            [injection Hin as -> ->; simpl; lia|]);
    by apply elem_of_nil in Hin
  | let Hin := fresh "Hin" in
    intros ? Hin; unfold keys in Hin; simpl in Hin;
    repeat (apply elem_of_cons in Hin as [->|Hin]; [eexists; split; reflexivity|]);
    by apply elem_of_nil in Hin
  | apply (bool_decide_unpack _); by vm_compute
  | let Hin := fresh "Hin" in
    let Hx := fresh "Hx" in
    intros ? ? Hin Hx; apply list_elem_of_singleton in Hx; subst;
    repeat (apply elem_of_cons in Hin as [Hin|Hin]; [discriminate Hin|]);
    by apply elem_of_nil in Hin
  | apply (bool_decide_unpack _); by vm_compute
  | apply (bool_decide_unpack _); by vm_compute
  | let Hin := fresh "Hin" in
    intros ? Hin; unfold keys in Hin; simpl in Hin;
    repeat (apply elem_of_cons in Hin as [->|Hin]; [eexists; split; reflexivity|]);
    by apply elem_of_nil in Hin
  | let Hin := fresh "Hin" in
    let Hx := fresh "Hx" in
    intros ? ? Hin Hx; apply list_elem_of_singleton in Hx; subst;
    repeat (apply elem_of_cons in Hin as [Hin|Hin]; [discriminate Hin|]);
    by apply elem_of_nil in Hin
  | apply (bool_decide_unpack _); by vm_compute ].

(** X3. The text [_coords_to_level_string] writes is read back by the
    parser.  For coordinates with unique capital-letter piece names other
    than [X], pieces on different cells of the grid, unique small-letter
    target names on different cells, and different obstacle cells that hold
    no piece and no target: the parsed board has the given width and
    height, the given pieces, the obstacles that lie inside the grid, and
    the targets that lie inside the grid and are not covered by a piece of
    another letter (a target under a foreign piece is not written). *)
Theorem written_level_parses_back (w h : Z) (P T : dict pos) (O : list pos) :
  placement w h P T O ->
  width (new_game (_coords_to_level_string w h P T O)) = w
  /\ height (new_game (_coords_to_level_string w h P T O)) = h
  /\ (forall p x, dict_get p (pieces (new_game (_coords_to_level_string w h P T O))) = Some x
                  <-> dict_get p P = Some x)
  /\ (forall t x, dict_get t (targets (new_game (_coords_to_level_string w h P T O))) = Some x
        <-> dict_get t T = Some x /\ (0 <= x.1 < h /\ 0 <= x.2 < w)
            /\ forall p, dict_get p P = Some x -> lower p = t)
  /\ (forall x, is_obstacle (new_game (_coords_to_level_string w h P T O)) x
        <-> x ∈ O /\ 0 <= x.1 < h /\ 0 <= x.2 < w).
Proof.
  intros Hpl. by apply parse_level_text.
Qed.

Lemma written_level_parses_back_witness :
  placement 3 2 [(lit "A", (0, 0)); (lit "B", (1, 1))]
                [(lit "a", (0, 1)); (lit "b", (0, 2))] [(1, 2)]
  /\ _coords_to_level_string 3 2 [(lit "A", (0, 0)); (lit "B", (1, 1))]
       [(lit "a", (0, 1)); (lit "b", (0, 2))] [(1, 2)] = lit "A a b;. B X"
  /\ width (new_game (lit "A a b;. B X")) = 3
  /\ height (new_game (lit "A a b;. B X")) = 2
  /\ forall x, is_obstacle (new_game (lit "A a b;. B X")) x
        <-> x ∈ [(1, 2)] /\ 0 <= x.1 < 2 /\ 0 <= x.2 < 3.
Proof.
  assert (placement 3 2 [(lit "A", (0, 0)); (lit "B", (1, 1))]
                    [(lit "a", (0, 1)); (lit "b", (0, 2))] [(1, 2)]) as Hpl
    by sample_placement.
  destruct (written_level_parses_back 3 2 _ _ _ Hpl) as (Hw & Hh & _ & _ & Ho).
  split_and!; [exact Hpl|reflexivity|exact Hw|exact Hh|exact Ho].
Defined.

(** X4. Writing a board reached from a generated level and reading it
    back: for coordinates as in X3 and every board [s] reached by legal
    moves from the parsed level, the board parsed from [serialize s] has
    the width, the height, the pieces and the obstacles of [s]; of its
    targets it keeps exactly those that are not covered by a piece of
    another letter. *)
Theorem reachable_board_is_read_back (w h : Z) (P T : dict pos) (O : list pos)
    (s : KubobleGame) :
  placement w h P T O ->
  reachable (new_game (_coords_to_level_string w h P T O)) s ->
  width (new_game (serialize s)) = width s
  /\ height (new_game (serialize s)) = height s
  /\ (forall p x, dict_get p (pieces (new_game (serialize s))) = Some x
                  <-> dict_get p (pieces s) = Some x)
  /\ (forall t x, dict_get t (targets (new_game (serialize s))) = Some x <->
        dict_get t (targets s) = Some x
        /\ forall p, dict_get p (pieces s) = Some x -> lower p = t)
  /\ obstacles (new_game (serialize s)) = obstacles s.
Proof.
  intros Hpl Hreach. by eapply reparse_reachable.
Qed.

Lemma reachable_board_is_read_back_witness :
  let s1 := mkGame [[lit "A"; lit "B"; lit "."]; [lit "."; lit "."; lit "X"]]
                   [(lit "A", (0, 0)); (lit "B", (0, 1))]
                   [(lit "a", (0, 1)); (lit "b", (0, 2))] 3 2 in
  placement 3 2 [(lit "A", (0, 0)); (lit "B", (1, 1))]
                [(lit "a", (0, 1)); (lit "b", (0, 2))] [(1, 2)]
  /\ reachable (new_game (_coords_to_level_string 3 2 [(lit "A", (0, 0)); (lit "B", (1, 1))]
                            [(lit "a", (0, 1)); (lit "b", (0, 2))] [(1, 2)])) s1
  /\ serialize s1 = lit "A B b;. . X"
  /\ dict_get (lit "a") (targets s1) = Some (0, 1)
  /\ dict_get (lit "a") (targets (new_game (serialize s1))) = None
  /\ obstacles (new_game (serialize s1)) = obstacles s1.
Proof.
  intros s1.
  assert (placement 3 2 [(lit "A", (0, 0)); (lit "B", (1, 1))]
                    [(lit "a", (0, 1)); (lit "b", (0, 2))] [(1, 2)]) as Hpl
    by sample_placement.
  assert (reachable (new_game (_coords_to_level_string 3 2
                                 [(lit "A", (0, 0)); (lit "B", (1, 1))]
                                 [(lit "a", (0, 1)); (lit "b", (0, 2))] [(1, 2)])) s1)
    as Hreach.
  { eapply reachable_move; [apply reachable_start|].
    eexists _, (lit "B"), (0, 1), (lit "up").
    split_and!; [vm_compute; reflexivity| |vm_compute; reflexivity].
    apply (bool_decide_unpack _). by vm_compute. }
  destruct (reachable_board_is_read_back 3 2 _ _ _ s1 Hpl Hreach)
    as (_ & _ & _ & Ht & Ho).
  split_and!; [exact Hpl|exact Hreach|reflexivity|reflexivity| |exact Ho].
  destruct (dict_get (lit "a") (targets (new_game (serialize s1)))) as [x|] eqn:E;
    [|reflexivity].
  apply Ht in E as [E Hall]. injection E as <-.
  discriminate (Hall (lit "B") eq_refl).
Defined.

(** ** The winning test *)

(** X5. [is_win] holds exactly when the board has a piece and every piece
    stands on the cell of the target named by the small letter of its name
    (so every piece needs such a target); [get_piece_target_pairs] pairs
    every piece name with its small letter and nothing else. *)
Theorem win_iff_every_piece_on_its_target (s : KubobleGame) :
  (is_win s = true <->
   pieces s <> []
   /\ forall p x, dict_get p (pieces s) = Some x ->
                  dict_get (lower p) (targets s) = Some x)
  /\ (forall p t, (p, t) ∈ get_piece_target_pairs s <->
                  p ∈ keys (pieces s) /\ t = lower p).
Proof.
  split; [apply is_win_spec|]. intros p t. apply pairs_spec.
Qed.

(** ** The move list *)

(** X6. On a rectangular grid [get_possible_moves] returns: no grid access
    is out of range and every slide loop ends within [height + width]
    turns.  The list holds at most four moves for each piece. *)
Theorem possible_moves_are_computed (s : KubobleGame) :
  grid_shape (grid s) (width s) (height s) ->
  exists ms, get_possible_moves s = Ok ms
             /\ (length ms <= 4 * length (pieces s))%nat.
Proof.
  intros Hsh. destruct (get_possible_moves_Ok s Hsh) as [ms Hms].
  exists ms. split; [done|]. by apply possible_moves_length.
Qed.

Lemma possible_moves_are_computed_witness :
  grid_shape (grid (new_game (lit "A . .;. X b"))) 3 2
  /\ exists ms, get_possible_moves (new_game (lit "A . .;. X b")) = Ok ms
                /\ (length ms <= 4 * 1)%nat.
Proof.
  assert (grid_shape (grid (new_game (lit "A . .;. X b")))
            (width (new_game (lit "A . .;. X b"))) (height (new_game (lit "A . .;. X b"))))
    as Hsh.
  { split; [reflexivity|]. repeat constructor. }
  split; [exact Hsh|]. exact (possible_moves_are_computed _ Hsh).
Defined.

(** X7. The move list is complete and has no duplicates: a piece gets a
    move in a direction exactly when the cell next to it in that direction
    is inside the grid, not an obstacle, and not held by another piece;
    and the list never holds two landing cells for one piece and one
    direction. *)
Theorem move_listed_iff_next_cell_free (s : KubobleGame) (ms : list move)
    (p : str) (r c dr dc : Z) (name : str) :
  grid_shape (grid s) (width s) (height s) ->
  NoDup (keys (pieces s)) ->
  get_possible_moves s = Ok ms ->
  dict_get p (pieces s) = Some (r, c) ->
  (dr, dc, name) ∈ directions ->
  ((exists land, (p, land, name) ∈ ms) <-> free_cell s p (r + dr, c + dc))
  /\ (forall land1 land2, (p, land1, name) ∈ ms -> (p, land2, name) ∈ ms ->
        land1 = land2).
Proof.
  intros Hsh Hnd Hms Hp Hd. split; [by apply possible_moves_complete|].
  intros land1 land2. by apply (emitted_move_unique s ms p land1 land2 name).
Qed.

Lemma move_listed_iff_next_cell_free_witness :
  get_possible_moves (new_game (lit "A . .;. X b"))
  = Ok [(lit "A", (1, 0), lit "down"); (lit "A", (0, 2), lit "right")]
  /\ ((exists land, (lit "A", land, lit "right")
                      ∈ [(lit "A", (1, 0), lit "down"); (lit "A", (0, 2), lit "right")])
      <-> free_cell (new_game (lit "A . .;. X b")) (lit "A") (0 + 0, 0 + 1)).
Proof.
  split; [reflexivity|].
  apply (move_listed_iff_next_cell_free (new_game (lit "A . .;. X b")) _ (lit "A") 0 0 0 1
           (lit "right")).
  - split; [reflexivity|]. repeat constructor.
  - apply (bool_decide_unpack _). by vm_compute.
  - reflexivity.
  - reflexivity.
  - apply (bool_decide_unpack _). by vm_compute.
Defined.

(** ** [apply_move] *)

(** X8. The only bounds [apply_move] has are those of list indexing.  On a
    rectangular grid with the piece inside it, the call raises
    [IndexError] exactly when the destination row is outside
    [-height, height) or the column outside [-width, width); a negative
    index inside these bounds is accepted: the piece is drawn on the cell
    counted from the far edge, and the negative position is recorded for
    it. *)
Theorem apply_move_index_bounds (s : KubobleGame) (p : str) (old d : pos) :
  grid_shape (grid s) (width s) (height s) ->
  dict_get p (pieces s) = Some old -> in_grid s old ->
  apply_move s p d
  = if decide ((- height s <= d.1 < height s) /\ (- width s <= d.2 < width s))
    then Ok (mkGame (grid_put (d.1 `mod` height s) (d.2 `mod` width s) p
                       (grid_put old.1 old.2 (lit ".") (grid s)))
                    (dict_set p d (pieces s)) (targets s) (width s) (height s))
    else Raise IndexError.
Proof.
  apply apply_move_bounds.
Qed.

Lemma apply_move_index_bounds_witness :
  apply_move (new_game (lit "A . ; . a")) (lit "A") (-1, -1)
  = Ok (mkGame [[lit "."; lit "."]; [lit "."; lit "A"]] [(lit "A", (-1, -1))]
               [(lit "a", (1, 1))] 2 2)
  /\ apply_move (new_game (lit "A . ; . a")) (lit "A") (2, 0) = Raise IndexError.
Proof.
  assert (grid_shape (grid (new_game (lit "A . ; . a")))
            (width (new_game (lit "A . ; . a"))) (height (new_game (lit "A . ; . a"))))
    as Hsh.
  { split; [reflexivity|]. repeat constructor. }
  assert (in_grid (new_game (lit "A . ; . a")) (0, 0)) as Hin.
  { unfold in_grid. simpl. vm_compute. intuition congruence. }
  split.
  - rewrite (apply_move_index_bounds _ (lit "A") (0, 0) (-1, -1) Hsh eq_refl Hin).
    reflexivity.
  - rewrite (apply_move_index_bounds _ (lit "A") (0, 0) (2, 0) Hsh eq_refl Hin).
    reflexivity.
Defined.

(** X9. Moving a piece of a well-formed board to the cell it stands on
    returns a board equal to the one given. *)
Theorem apply_move_to_own_cell (s : KubobleGame) (p : str) (old : pos) :
  wf_game s -> dict_get p (pieces s) = Some old -> apply_move s p old = Ok s.
Proof.
  apply apply_move_same_cell.
Qed.

Lemma apply_move_to_own_cell_witness :
  apply_move (new_game (lit "A . ; . a")) (lit "A") (0, 0)
  = Ok (new_game (lit "A . ; . a")).
Proof.
  apply (apply_move_to_own_cell (new_game (lit "A . ; . a")) (lit "A") (0, 0)).
  - apply new_game_wf.
  - reflexivity.
Defined.

(** ** The verifier *)

(** X10. What [verify_kuboble_solution] accepts.  When the first loop ends
    with the [is_win] of the parsed level, the text is accepted exactly
    when the level is won; when it rejects a fragment, the text is
    rejected; and when it yields a list of (piece, direction) pairs, the
    text is accepted exactly when these pairs name, move for move, a run of
    moves taken from [get_possible_moves] that ends on a won board. *)
Theorem verifier_accepts_exactly_winning_runs (level_string solution : str) :
  verify_kuboble_solution level_string solution = Ok true <->
  match parse_moves (length (split_on ";" solution)) 0 (split_on ";" solution) [] with
  | ReturnIsWin => is_win (new_game level_string) = true
  | ReturnFalse => False
  | Parsed pm => exists ms s', run (new_game level_string) ms s'
                               /\ move_pair <$> ms = pm /\ is_win s' = true
  end.
Proof.
  apply verify_accepts.
Qed.

(** ** The solver *)

(** X11. A solution the breadth-first search returns for a parsed level is
    accepted by [verify_kuboble_solution], whatever the level text and the
    depth bound. *)
Theorem solver_answer_passes_the_verifier (level_string : str) (fuel : nat)
    (max_depth : Z) (solution : str) :
  _is_solvable_bfs fuel (new_game level_string) max_depth = Ok (Some solution) ->
  verify_kuboble_solution level_string solution = Ok true.
Proof.
  apply solver_path_verifies.
Qed.

Lemma solver_answer_passes_the_verifier_witness :
  _is_solvable_bfs 100 (new_game (lit "A . ; . a")) 20 = Ok (Some (lit "A down;A right"))
  /\ verify_kuboble_solution (lit "A . ; . a") (lit "A down;A right") = Ok true.
Proof.
  assert (_is_solvable_bfs 100 (new_game (lit "A . ; . a")) 20
          = Ok (Some (lit "A down;A right"))) as H by (vm_compute; reflexivity).
  split; [exact H|]. exact (solver_answer_passes_the_verifier _ _ _ _ H).
Defined.

(** X12. The search never returns more than [max_depth] moves.  A text
    it returns is the [;]-join of the move strings of a run of legal moves
    that ends on a won board; this run is the path the search found, and
    it has at most [max(0, max_depth)] moves.  For a well-formed board
    with capital-letter piece names and a run that is not empty, cutting
    the text at [;] gives these move strings back, so the text has as many
    fragments as the run has moves. *)
Theorem solver_respects_the_depth_bound (fuel : nat) (s0 : KubobleGame)
    (max_depth : Z) (solution : str) :
  _is_solvable_bfs fuel s0 max_depth = Ok (Some solution) ->
  exists ms t,
    run s0 ms t /\ is_win t = true
    /\ bfs_path fuel s0 max_depth = Ok (Some (move_text <$> ms))
    /\ solution = join (lit ";") (move_text <$> ms)
    /\ Z.of_nat (length ms) <= Z.max 0 max_depth
    /\ (wf_game s0 -> piece_names_ok s0 -> ms <> [] ->
        split_on ";" solution = move_text <$> ms).
Proof.
  unfold _is_solvable_bfs. intros H. inv_bind H.
  destruct a as [path|]; [|done]. injection H as <-.
  pose proof (bfs_path_depth _ _ _ _ Ha) as Hdepth.
  destruct (bfs_path_sound _ _ _ _ Ha) as (ms & t & Hrun & Hwin & -> & _).
  rewrite length_fmap in Hdepth.
  exists ms, t. split_and!; [done..|]. intros Hwf Hnames Hms.
  pose proof (run_moves_plain _ _ _ Hwf Hnames Hrun) as Hpl.
  unfold split_on. change (lit ";") with [";"%char]. apply split_by_join.
  - by apply bool_decide_eq_true.
  - by destruct ms.
  - apply Forall_forall. intros f Hf.
    apply list_elem_of_fmap in Hf as ([[p pos] d] & -> & Hm).
    destruct (Hpl _ Hm) as [(ch & Hp & Hch) Hd]. simpl in *. subst p.
    unfold move_text. simpl. by apply move_fragment.
Qed.

Lemma solver_respects_the_depth_bound_witness :
  _is_solvable_bfs 100 (new_game (lit "A . ; . a")) 20 = Ok (Some (lit "A down;A right"))
  /\ exists ms t,
       run (new_game (lit "A . ; . a")) ms t /\ is_win t = true
       /\ bfs_path 100 (new_game (lit "A . ; . a")) 20 = Ok (Some (move_text <$> ms))
       /\ lit "A down;A right" = join (lit ";") (move_text <$> ms)
       /\ Z.of_nat (length ms) <= Z.max 0 20.
Proof.
  assert (_is_solvable_bfs 100 (new_game (lit "A . ; . a")) 20
          = Ok (Some (lit "A down;A right"))) as H by (vm_compute; reflexivity).
  split; [exact H|].
  destruct (solver_respects_the_depth_bound _ _ _ _ H)
    as (ms & t & H1 & H2 & H3 & H4 & H5 & _).
  by exists ms, t.
Defined.

(** X13. With a depth bound of zero or less the search only tests the
    start board: it returns the empty solution when the board is won and
    [None] otherwise (the generator uses this as its test for a level that
    is solved from the start). *)
Theorem solver_depth_zero_tests_the_start (fuel : nat) (s0 : KubobleGame)
    (max_depth : Z) :
  max_depth <= 0 ->
  _is_solvable_bfs (S fuel) s0 max_depth = Ok (if is_win s0 then Some [] else None).
Proof.
  apply bfs_depth_zero.
Qed.

Lemma solver_depth_zero_tests_the_start_witness :
  _is_solvable_bfs 1 (new_game (lit "A . ; . a")) 0 = Ok None
  /\ _is_solvable_bfs 1 (new_game (lit "Aa")) 0 = Ok (Some []).
Proof.
  split.
  - rewrite (solver_depth_zero_tests_the_start 0 _ 0) by lia. reflexivity.
  - rewrite (solver_depth_zero_tests_the_start 0 _ 0) by lia. reflexivity.
Defined.

(** X14. An exhausted search is conclusive: when the search returns [None]
    for a well-formed board, no run of at most [max_depth] moves taken
    from [get_possible_moves] ends on a won board. *)
Theorem solver_none_is_conclusive (fuel : nat) (s0 : KubobleGame) (max_depth : Z) :
  wf_game s0 ->
  _is_solvable_bfs fuel s0 max_depth = Ok None ->
  forall ms t, run s0 ms t -> is_win t = true -> max_depth < Z.of_nat (length ms).
Proof.
  intros Hwf H. unfold _is_solvable_bfs in H. inv_bind H.
  destruct a as [path|]; [done|]. by eapply bfs_path_none.
Qed.

Lemma solver_none_is_conclusive_witness :
  _is_solvable_bfs 10 (new_game (lit "A a .")) 5 = Ok None
  /\ forall ms t, run (new_game (lit "A a .")) ms t -> is_win t = true ->
                  5 < Z.of_nat (length ms).
Proof.
  assert (_is_solvable_bfs 10 (new_game (lit "A a .")) 5 = Ok None) as H
    by (vm_compute; reflexivity).
  split; [exact H|].
  exact (solver_none_is_conclusive 10 _ 5 (new_game_wf (lit "A a .")) H).
Defined.

(** X15. The key of the visited set identifies the board: two boards
    reached by legal moves from one well-formed board that have the same
    sorted piece positions are the same board, so the search loses nothing
    by skipping a key it has seen. *)
Theorem visited_key_identifies_the_board (s0 t1 t2 : KubobleGame) :
  wf_game s0 -> reachable s0 t1 -> reachable s0 t2 ->
  state_key t1 = state_key t2 -> t1 = t2.
Proof.
  apply state_key_inj.
Qed.

Lemma visited_key_identifies_the_board_witness :
  let s1 := mkGame [[lit "."; lit "A"]; [lit "."; lit "."]] [(lit "A", (0, 1))]
                   [(lit "a", (1, 1))] 2 2 in
  let s2 := mkGame [[lit "A"; lit "."]; [lit "."; lit "."]] [(lit "A", (0, 0))]
                   [(lit "a", (1, 1))] 2 2 in
  reachable (new_game (lit "A . ; . a")) s1
  /\ apply_move s1 (lit "A") (0, 0) = Ok s2
  /\ reachable (new_game (lit "A . ; . a")) s2
  /\ new_game (lit "A . ; . a") = s2.
Proof.
  intros s1 s2.
  assert (reachable (new_game (lit "A . ; . a")) s1) as H1.
  { eapply reachable_move; [apply reachable_start|].
    eexists _, (lit "A"), (0, 1), (lit "right").
    split_and!; [vm_compute; reflexivity| |vm_compute; reflexivity].
    apply (bool_decide_unpack _). by vm_compute. }
  assert (reachable (new_game (lit "A . ; . a")) s2) as H2.
  { eapply reachable_move; [exact H1|].
    eexists _, (lit "A"), (0, 0), (lit "left").
    split_and!; [vm_compute; reflexivity| |vm_compute; reflexivity].
    apply (bool_decide_unpack _). by vm_compute. }
  split_and!; [exact H1|reflexivity|exact H2|].
  apply (visited_key_identifies_the_board (new_game (lit "A . ; . a")) _ s2).
  - apply new_game_wf.
  - apply reachable_start.
  - exact H2.
  - reflexivity.
Defined.

(** ** The generator *)

(** X16. Whatever the shuffles, a pair the generator returns for
    [num_pieces <> 0] is accepted by [verify_kuboble_solution]. *)
Theorem generated_pair_passes_the_verifier (shuffle : nat -> list pos -> list pos)
    (fuel : nat) (w h num_pieces num_obstacles : Z)
    (max_generation_attempts max_solver_depth : Z) (require_non_trivial_solution : bool)
    (level_string solution : str) :
  num_pieces <> 0 ->
  generate_kuboble_level shuffle fuel w h num_pieces num_obstacles
    max_generation_attempts max_solver_depth require_non_trivial_solution
    = Ok (Some (level_string, solution)) ->
  verify_kuboble_solution level_string solution = Ok true.
Proof.
  apply generated_pair_verifies.
Qed.

Lemma generated_pair_passes_the_verifier_witness :
  generate_kuboble_level (fun _ l => l) 100 2 2 1 1 3 25 true
  = Ok (Some (lit ". X;a A", lit "A left"))
  /\ verify_kuboble_solution (lit ". X;a A") (lit "A left") = Ok true.
Proof.
  assert (generate_kuboble_level (fun _ l => l) 100 2 2 1 1 3 25 true
          = Ok (Some (lit ". X;a A", lit "A left"))) as H by (vm_compute; reflexivity).
  split; [exact H|].
  apply (generated_pair_passes_the_verifier (fun _ l => l) 100 2 2 1 1 3 25 true _ _);
    [lia|exact H].
Defined.

(** X17. A pair the generator returns for [num_pieces <> 0] holds the text
    of a run of legal moves from the parsed level to a won board, of at
    most [max(0, max_solver_depth)] moves; with
    [require_non_trivial_solution] the level is not won at the start and
    the solution is not empty. *)
Theorem generated_solution_is_bounded (shuffle : nat -> list pos -> list pos)
    (fuel : nat) (w h num_pieces num_obstacles : Z)
    (max_generation_attempts max_solver_depth : Z) (require_non_trivial_solution : bool)
    (level_string solution : str) :
  num_pieces <> 0 ->
  generate_kuboble_level shuffle fuel w h num_pieces num_obstacles
    max_generation_attempts max_solver_depth require_non_trivial_solution
    = Ok (Some (level_string, solution)) ->
  exists ms t,
    run (new_game level_string) ms t /\ is_win t = true
    /\ solution = join (lit ";") (move_text <$> ms)
    /\ Z.of_nat (length ms) <= Z.max 0 max_solver_depth
    /\ (require_non_trivial_solution = true ->
        is_win (new_game level_string) = false /\ ms <> [] /\ solution <> []).
Proof.
  apply generated_pair_bounds.
Qed.

Lemma generated_solution_is_bounded_witness :
  generate_kuboble_level (fun _ l => l) 100 2 2 1 1 3 25 true
  = Ok (Some (lit ". X;a A", lit "A left"))
  /\ exists ms t,
       run (new_game (lit ". X;a A")) ms t /\ is_win t = true
       /\ lit "A left" = join (lit ";") (move_text <$> ms)
       /\ Z.of_nat (length ms) <= Z.max 0 25
       /\ (true = true ->
           is_win (new_game (lit ". X;a A")) = false /\ ms <> [] /\ lit "A left" <> []).
Proof.
  assert (generate_kuboble_level (fun _ l => l) 100 2 2 1 1 3 25 true
          = Ok (Some (lit ". X;a A", lit "A left"))) as H by (vm_compute; reflexivity).
  split; [exact H|].
  apply (generated_solution_is_bounded (fun _ l => l) 100 2 2 1 1 3 25 true _ _);
    [lia|exact H].
Defined.

(** X18. The generator gives up with [None], without raising: when the
    parameters pass the two checks and either no attempt is allowed or the
    number of pieces is negative (no attempt can then place that many
    pieces). *)
Theorem generator_gives_up (shuffle : nat -> list pos -> list pos)
    (fuel : nat) (w h num_pieces num_obstacles : Z)
    (max_generation_attempts max_solver_depth : Z) (require_non_trivial_solution : bool) :
  num_pieces <> 0 -> num_pieces <= 26 -> num_pieces * 2 + num_obstacles <= w * h ->
  max_generation_attempts <= 0 \/ num_pieces < 0 ->
  generate_kuboble_level shuffle fuel w h num_pieces num_obstacles
    max_generation_attempts max_solver_depth require_non_trivial_solution = Ok None.
Proof.
  apply generate_gives_up.
Qed.

Lemma generator_gives_up_witness :
  generate_kuboble_level (fun _ l => l) 100 2 2 1 1 0 25 true = Ok None
  /\ generate_kuboble_level (fun _ l => l) 100 2 2 (-1) 1 100 25 true = Ok None.
Proof.
  split.
  - apply generator_gives_up; lia.
  - apply generator_gives_up; lia.
Defined.

(** ** The generator's own check *)

(** X19. [_verify_generated_solution], run with the class [KubobleGame], is
    at least as strict as the verifier: a solution text it accepts is
    accepted by [verify_kuboble_solution]. *)
Theorem generated_check_implies_the_verifier (level_str solution_str : str) :
  _verify_generated_solution level_str (Some solution_str) new_game = Ok true ->
  verify_kuboble_solution level_str solution_str = Ok true.
Proof.
  apply accepted_by_both.
Qed.

Lemma generated_check_implies_the_verifier_witness :
  _verify_generated_solution (lit "A . ; . a") (Some (lit "A down;A right")) new_game
  = Ok true
  /\ verify_kuboble_solution (lit "A . ; . a") (lit "A down;A right") = Ok true.
Proof.
  assert (_verify_generated_solution (lit "A . ; . a") (Some (lit "A down;A right"))
            new_game = Ok true) as H by (vm_compute; reflexivity).
  split; [exact H|]. exact (generated_check_implies_the_verifier _ _ H).
Defined.

(** X20. A solution the breadth-first search returns for a parsed level
    passes [_verify_generated_solution]: the generator never prints a
    verification error for a pair it took from the search. *)
Theorem solver_answer_passes_the_generated_check (level_str : str) (fuel : nat)
    (max_depth : Z) (solution : str) :
  _is_solvable_bfs fuel (new_game level_str) max_depth = Ok (Some solution) ->
  _verify_generated_solution level_str (Some solution) new_game = Ok true.
Proof.
  apply solver_path_checks.
Qed.

Lemma solver_answer_passes_the_generated_check_witness :
  _is_solvable_bfs 100 (new_game (lit "A . ; . a")) 20 = Ok (Some (lit "A down;A right"))
  /\ _verify_generated_solution (lit "A . ; . a") (Some (lit "A down;A right")) new_game
     = Ok true.
Proof.
  assert (_is_solvable_bfs 100 (new_game (lit "A . ; . a")) 20
          = Ok (Some (lit "A down;A right"))) as H by (vm_compute; reflexivity).
  split; [exact H|]. exact (solver_answer_passes_the_generated_check _ _ _ _ H).
Defined.


(** ** Termination *)

(** X22. The breadth-first search ends on every well-formed board, for
    every depth bound: the boards reached by legal moves have finitely
    many keys and every turn of the loop pops the queue or adds a new key,
    so beyond some amount of fuel the search returns a solution or
    [None]. *)
Theorem solver_terminates (s0 : KubobleGame) :
  wf_game s0 ->
  exists N : nat, forall fuel max_depth, (N <= fuel)%nat ->
    exists r, _is_solvable_bfs fuel s0 max_depth = Ok r.
Proof.
  apply bfs_ends.
Qed.

Lemma solver_terminates_witness :
  exists N : nat, forall fuel max_depth, (N <= fuel)%nat ->
    exists r, _is_solvable_bfs fuel (new_game (lit "A . ; . a")) max_depth = Ok r.
Proof.
  exact (solver_terminates (new_game (lit "A . ; . a")) (new_game_wf (lit "A . ; . a"))).
Defined.

(** X23. The generator ends for all parameters and shuffles: beyond some
    amount of fuel for its searches it returns a pair or [None], or raises
    [ValueError]; no other exception escapes it. *)
Theorem generator_terminates (shuffle : nat -> list pos -> list pos)
    (w h num_pieces num_obstacles : Z)
    (max_generation_attempts max_solver_depth : Z) (require_non_trivial_solution : bool) :
  exists N : nat, forall fuel, (N <= fuel)%nat ->
    (exists r, generate_kuboble_level shuffle fuel w h num_pieces num_obstacles
                 max_generation_attempts max_solver_depth require_non_trivial_solution
               = Ok r)
    \/ generate_kuboble_level shuffle fuel w h num_pieces num_obstacles
         max_generation_attempts max_solver_depth require_non_trivial_solution
       = Raise ValueError.
Proof.
  apply generate_ends.
Qed.

(** ** The contents of a generated level *)

(** X24. When every shuffle returns a permutation of its list, a level the
    generator returns for 1 to 23 pieces and a non-negative number of
    obstacles holds what was asked for: the parsed board has the given
    width and height, its pieces are named by the first [num_pieces]
    capital letters, its targets by the matching small letters, it has
    [num_obstacles] obstacles, and no target shares a cell with an obstacle
    or with a piece.  (The 24th piece would be named [X], which the level
    text cannot tell from an obstacle: such a piece is lost in parsing.) *)
Theorem generated_level_holds_what_was_asked (shuffle : nat -> list pos -> list pos)
    (fuel : nat) (w h num_pieces num_obstacles : Z)
    (max_generation_attempts max_solver_depth : Z) (require_non_trivial_solution : bool)
    (level_string solution : str) :
  (forall n l, shuffle n l ≡ₚ l) ->
  1 <= num_pieces <= 23 -> 0 <= num_obstacles ->
  generate_kuboble_level shuffle fuel w h num_pieces num_obstacles
    max_generation_attempts max_solver_depth require_non_trivial_solution
    = Ok (Some (level_string, solution)) ->
  (width (new_game level_string) = w /\ height (new_game level_string) = h
   /\ keys (pieces (new_game level_string)) ≡ₚ piece_letter <$> seq 0 (Z.to_nat num_pieces)
   /\ keys (targets (new_game level_string))
      ≡ₚ (fun k => lower (piece_letter k)) <$> seq 0 (Z.to_nat num_pieces)
   /\ length (obstacles (new_game level_string)) = Z.to_nat num_obstacles
   /\ (forall t x, dict_get t (targets (new_game level_string)) = Some x ->
         ~ is_obstacle (new_game level_string) x
         /\ forall p, dict_get p (pieces (new_game level_string)) <> Some x))
  /\ piece_letter 23 = lit "X"
  /\ pieces (new_game (_coords_to_level_string 2 1 [(piece_letter 23, (0, 0))]
                         [(lower (piece_letter 23), (0, 1))] [])) = [].
Proof.
  intros Hshuf Hnp Hno H. split; [|split; reflexivity].
  by eapply generated_level_shape.
Qed.

Lemma generated_level_holds_what_was_asked_witness :
  generate_kuboble_level (fun _ l => l) 100 2 2 1 1 3 25 true
  = Ok (Some (lit ". X;a A", lit "A left"))
  /\ width (new_game (lit ". X;a A")) = 2 /\ height (new_game (lit ". X;a A")) = 2
  /\ keys (pieces (new_game (lit ". X;a A"))) ≡ₚ piece_letter <$> seq 0 (Z.to_nat 1)
  /\ length (obstacles (new_game (lit ". X;a A"))) = Z.to_nat 1.
Proof.
  assert (generate_kuboble_level (fun _ l => l) 100 2 2 1 1 3 25 true
          = Ok (Some (lit ". X;a A", lit "A left"))) as H by (vm_compute; reflexivity).
  destruct (generated_level_holds_what_was_asked (fun _ l => l) 100 2 2 1 1 3 25 true
              (lit ". X;a A") (lit "A left"))
    as ((Hw & Hh & Hp & _ & Ho & _) & _); [reflexivity|lia|lia|exact H|].
  split_and!; [exact H|exact Hw|exact Hh|exact Hp|exact Ho].
Defined.

(** ** Lenient input *)

(** X25. Whitespace before and after the level text is ignored by the
    parser: the same board is built. *)
Theorem parser_ignores_surrounding_whitespace (pre level_string post : str) :
  Forall (fun c => is_space c = true) pre ->
  Forall (fun c => is_space c = true) post ->
  new_game (pre ++ level_string ++ post) = new_game level_string.
Proof.
  apply new_game_spaces.
Qed.

Lemma parser_ignores_surrounding_whitespace_witness :
  new_game (lit "  " ++ lit "A . ; . a" ++ lit " ") = new_game (lit "A . ; . a").
Proof.
  apply parser_ignores_surrounding_whitespace; repeat constructor.
Defined.

(** X26. A [;] after the solution text does not change the verdict of
    [verify_kuboble_solution], whatever the level and the solution. *)
Theorem verifier_ignores_a_trailing_separator (level_string solution : str) :
  verify_kuboble_solution level_string (solution ++ lit ";")
  = verify_kuboble_solution level_string solution.
Proof.
  apply verify_trailing_separator.
Qed.

(** X27. The first loop of the parser reads a grid of cell tokens back
    from its text: for a grid with at least one row whose tokens are not
    empty, hold no whitespace and no [;], and hold no [.] unless they are
    ["."], cutting the [;]-join of the space-joined rows yields the grid
    again, token for token (rows of one token and empty rows included). *)
Theorem token_grid_is_read_back (G : grid_t) :
  G <> [] -> Forall (Forall nice_token) G ->
  row_tokens <$> split_on ";" (strip (join (lit ";") (join (lit " ") <$> G))) = G.
Proof.
  apply tokenize_level_text.
Qed.

Lemma token_grid_is_read_back_witness :
  row_tokens <$> split_on ";" (strip (join (lit ";")
     (join (lit " ") <$> [[lit "Aa"; lit "."]; []; [lit "X"]])))
  = [[lit "Aa"; lit "."]; []; [lit "X"]].
Proof.
  apply token_grid_is_read_back; [done|].
  repeat constructor; try done; try (right; repeat constructor; done); by left.
Defined.
